(** * Section / camera / object synchronisation core of the 3D portfolio

    A shallow embedding of the entry point (class [Portfolio3D]) and of the
    classes [CameraController], [InteractionManager] and [PortfolioObjects]
    under [src/scripts], followed by the event listeners the application
    registers and removes, the environment built by [SceneManager] and the
    frame-rate monitor [PerformanceMonitor].

    Conventions of the embedding.
    - JavaScript numbers are idealised as real numbers ([R]); section
      indices, which the code only ever produces as integers, are [Z].
      The rounding of double-precision arithmetic is not modelled: a
      coordinate computed by the code is the real value of the expression
      the source writes, operation for operation.
    - A field that may be [undefined] is an [option].
    - Wall-clock instants and the animation engine's clock are integer
      milliseconds ([Z]); the scene clock ([THREE.Clock], seconds) handed to
      the per-frame animator is a real.
    - The sources mutate objects in place; here every handler is a function
      from state to state, and a handler that raises an uncaught exception
      returns [Thrown] with the state as mutated up to that point. *)

From Stdlib Require Import Reals ZArith List Bool Lia Lra.
Import ListNotations.

Open Scope R_scope.

(** ** Vectors *)

Record vec3 : Type := mkVec3 { vx : R; vy : R; vz : R }.

Definition vzero : vec3 := mkVec3 0 0 0.
Definition vone : vec3 := mkVec3 1 1 1.

(** [Vector3.multiplyScalar]. *)
Definition multiplyScalar (k : R) (v : vec3) : vec3 :=
  mkVec3 (vx v * k) (vy v * k) (vz v * k).

(** ** Primitives *)

(** The only material parameter the interaction code reads or writes.
    [MeshStandardMaterial] defines it (default 1 in three.js);
    [MeshBasicMaterial] and [LineBasicMaterial] leave it [undefined]. *)
Record material : Type := mkMaterial { emissiveIntensity : option R }.

(** [object.userData]: free-form fields, each possibly absent. *)
Record userData : Type := mkUserData {
  angle : option R;
  radius : option R;
  orbit : option R;
  speed : option R;
  floatOffset : option R;
  hoverY : option R;
  delay : option R;
  initialScale : option R;
  originalEmissiveIntensity : option R
}.

Definition noData : userData :=
  mkUserData None None None None None None None None None.

Record object : Type := mkObject {
  position : vec3;
  rotation : vec3;
  scale : vec3;
  mat : option material;
  data : userData
}.

Definition set_position (p : vec3) (o : object) : object :=
  mkObject p (rotation o) (scale o) (mat o) (data o).
Definition set_rotation (r : vec3) (o : object) : object :=
  mkObject (position o) r (scale o) (mat o) (data o).
Definition set_scale (v : vec3) (o : object) : object :=
  mkObject (position o) (rotation o) v (mat o) (data o).
Definition set_mat (m : option material) (o : object) : object :=
  mkObject (position o) (rotation o) (scale o) m (data o).
Definition set_data (d : userData) (o : object) : object :=
  mkObject (position o) (rotation o) (scale o) (mat o) d.

Definition set_originalEmissiveIntensity (v : option R) (d : userData) : userData :=
  mkUserData (angle d) (radius d) (orbit d) (speed d) (floatOffset d)
             (hoverY d) (delay d) (initialScale d) v.

(** A freshly constructed [THREE.Mesh] / [Line] / [LineSegments]: position
    and rotation zero, scale [(1,1,1)], empty [userData]. *)
Definition newObject (m : material) : object :=
  mkObject vzero vzero vone (Some m) noData.

Definition standardMaterial (e : R) : material := mkMaterial (Some e).
Definition basicMaterial : material := mkMaterial None.
Definition lineMaterial : material := mkMaterial None.

(** Reading a [userData] number inside arithmetic.  On the constructed scene
    every field read this way is present (see [hero_spheres_tagged] and
    [skills_orbs_tagged]). *)
Definition num (o : option R) : R :=
  match o with Some v => v | None => 0 end.

(** ** Sections *)

Inductive section : Type := Hero | About | Projects | Skills | Contact.

Definition section_eq_dec (a b : section) : {a = b} + {a <> b}.
Proof. decide equality. Defined.

(** [const sectionNames = ['hero', 'about', 'projects', 'skills', 'contact']] *)
Definition sectionNames : list section := [Hero; About; Projects; Skills; Contact].

(** JavaScript array indexing by an integer: [undefined] out of range. *)
Definition js_index {A : Type} (l : list A) (i : Z) : option A :=
  if (i <? 0)%Z then None else nth_error l (Z.to_nat i).

(** [this.objects]: one list of primitives per section key. *)
Record objectTable : Type := mkObjects {
  hero : list object;
  about : list object;
  projects : list object;
  skills : list object;
  contact : list object
}.

Definition get_section (c : section) (t : objectTable) : list object :=
  match c with
  | Hero => hero t | About => about t | Projects => projects t
  | Skills => skills t | Contact => contact t
  end.

Definition set_section (c : section) (l : list object) (t : objectTable) : objectTable :=
  match c with
  | Hero => mkObjects l (about t) (projects t) (skills t) (contact t)
  | About => mkObjects (hero t) l (projects t) (skills t) (contact t)
  | Projects => mkObjects (hero t) (about t) l (skills t) (contact t)
  | Skills => mkObjects (hero t) (about t) (projects t) l (contact t)
  | Contact => mkObjects (hero t) (about t) (projects t) (skills t) l
  end.

(** ** Procedural construction ([PortfolioObjects.create*Section]) *)

Definition createHeroSection : list object :=
  let torus := set_position (mkVec3 0 0 0) (newObject (standardMaterial 0.3)) in
  let sphere (i : nat) :=
    let a := (INR i / 8) * PI * 2 in
    let r := 5 in
    let o := newObject (standardMaterial 0.5) in
    let o := set_position (mkVec3 (cos a * r) 0 (sin a * r)) o in
    set_data (mkUserData (Some a) (Some r) None None None None None None None) o in
  let pyramid := set_position (mkVec3 0 0 (-5)) (newObject basicMaterial) in
  [torus] ++ map sphere (seq 0 8) ++ [pyramid].

Definition cubePositions : list vec3 :=
  [mkVec3 (-10) 2 (-2); mkVec3 (-8) 0 0; mkVec3 (-10) (-2) (-2)].

(** [cubePositions.forEach((pos, index) => ...)] *)
Fixpoint forEachi {A B : Type} (f : A -> nat -> list B) (l : list A) (i : nat) : list B :=
  match l with
  | [] => []
  | a :: r => f a i ++ forEachi f r (S i)
  end.

Definition createAboutSection : list object :=
  let pair (pos : vec3) (index : nat) :=
    let tag o :=
      set_data (mkUserData None None None None (Some (INR index * 0.5))
                           None None None None) o in
    let cube := tag (set_position pos (newObject lineMaterial)) in
    let solidCube := tag (set_position pos (newObject (standardMaterial 1))) in
    [cube; solidCube] in
  let helix := newObject lineMaterial in
  forEachi pair cubePositions 0 ++ [helix].

Definition cardPositions : list vec3 :=
  [mkVec3 6 2 (-2); mkVec3 8 0 0; mkVec3 6 (-2) (-2)].

Definition createProjectsSection : list object :=
  let pair (pos : vec3) (index : nat) :=
    let card := set_position pos (newObject (standardMaterial 0.2)) in
    let card := set_rotation (mkVec3 0 (- PI / 6) 0) card in
    let card :=
      set_data (mkUserData None None None None None (Some (vy pos))
                           None None None) card in
    let frame := newObject lineMaterial in
    let frame := set_position (position card) frame in
    let frame := set_rotation (rotation card) frame in
    [card; frame] in
  let network := newObject lineMaterial in
  forEachi pair cardPositions 0 ++ [network].

Definition createSkillsSection : list object :=
  let ring (k : nat) :=
    let r := 3 + INR k * 1.5 in
    let count := (4 + k * 2)%nat in
    let orb (i : nat) :=
      let a := (INR i / INR count) * PI * 2 in
      let o := newObject (standardMaterial 0.5) in
      let o := set_position (mkVec3 (cos a * r) (3 + sin a * 0.5) (sin a * r)) o in
      set_data (mkUserData (Some a) (Some r) (Some (INR k))
                           (Some (0.5 + INR k * 0.2)) None None None None None) o in
    map orb (seq 0 count) in
  let core := set_position (mkVec3 0 3 0) (newObject (standardMaterial 0.5)) in
  flat_map ring (seq 0 3) ++ [core].

Definition createContactSection : list object :=
  let ring (i : nat) :=
    let o := newObject basicMaterial in
    let o := set_position (mkVec3 0 (-3) 0) o in
    let o := set_rotation (mkVec3 (PI / 2) 0 0) o in
    set_data (mkUserData None None None None None None
                         (Some (INR i * 0.2)) (Some 1) None) o in
  let envelope := set_position (mkVec3 0 (-3) 0) (newObject (standardMaterial 0.3)) in
  map ring (seq 0 5) ++ [envelope].

(** [createAllSections], applied to the empty table of the constructor. *)
Definition createAllSections : objectTable :=
  mkObjects createHeroSection createAboutSection createProjectsSection
            createSkillsSection createContactSection.

(** ** References to primitives

    The sources hold pointers to the objects stored in [this.objects]; here a
    primitive is referred to by its section key and its index in that
    section's list.  The lists never change length after construction. *)

Definition objref : Type := (section * nat)%type.

Definition objref_eq_dec (a b : objref) : {a = b} + {a <> b}.
Proof. decide equality; [apply Nat.eq_dec | apply section_eq_dec]. Defined.

Definition obj_at (r : objref) (t : objectTable) : option object :=
  nth_error (get_section (fst r) t) (snd r).

Fixpoint update_nth {A : Type} (n : nat) (f : A -> A) (l : list A) : list A :=
  match l, n with
  | [], _ => []
  | a :: r, O => f a :: r
  | a :: r, S m => a :: update_nth m f r
  end.

Definition upd_obj (r : objref) (f : object -> object) (t : objectTable) : objectTable :=
  set_section (fst r) (update_nth (snd r) f (get_section (fst r) t)) t.

Definition refs_of (c : section) (t : objectTable) : list objref :=
  map (fun i => (c, i)) (seq 0 (length (get_section c t))).

(** The references of [Object.values(this.objects).flat()], in key order. *)
Definition all_refs (t : objectTable) : list objref :=
  flat_map (fun c => refs_of c t) sectionNames.

(** ** Camera poses ([CameraController.sectionPositions]) *)

Record cameraPose : Type := mkPose { pose_position : vec3; pose_lookAt : vec3 }.

Definition sectionPositions : list cameraPose :=
  [ mkPose (mkVec3 0 0 15) (mkVec3 0 0 0);
    mkPose (mkVec3 (-8) 2 12) (mkVec3 (-8) 0 0);
    mkPose (mkVec3 8 (-2) 12) (mkVec3 8 0 0);
    mkPose (mkVec3 0 5 10) (mkVec3 0 3 0);
    mkPose (mkVec3 0 (-3) 13) (mkVec3 0 (-3) 0) ].

Definition parallaxStrength : R := 0.01.

(** ** The animation engine

    [gsap] is a dependency of the repository, not part of it.  The sources
    use one entry point, [gsap.to(vector, {x, y, z, duration, delay, ease})],
    always on the three components of a vector and never with an
    [overwrite] option.  The engine's behaviour for such calls is modelled
    as follows.
    - A tween starts [delay] after its creation and lasts [duration]
      (both converted to milliseconds here).
    - On every tick the engine renders the live tweens in creation order.
      A tween that has not started is skipped.  On its first render a tween
      records the current value of its target as its start value.  A tween
      whose end time has been reached writes its end value and is removed;
      otherwise it writes the eased interpolation.
    - Nothing cancels a tween: with the engine's default ([overwrite:
      false]) tweens of the same vector run side by side, and within one
      tick the one created last writes last. *)

Inductive target : Type :=
| TCameraPosition
| TTargetPosition
| TScale (r : objref).

Definition target_eq_dec (a b : target) : {a = b} + {a <> b}.
Proof. decide equality; apply objref_eq_dec. Defined.

Inductive ease : Type :=
| Power2InOut
| Power2In
| BackOut (overshoot : R).

(** The engine's easing curves on progress [p] in [0,1]. *)
Definition ease_fn (e : ease) (p : R) : R :=
  match e with
  | Power2In => p * p * p
  | Power2InOut =>
      if Rlt_dec p 0.5 then (p * 2) * (p * 2) * (p * 2) / 2
      else 1 - ((1 - p) * 2) * ((1 - p) * 2) * ((1 - p) * 2) / 2
  | BackOut c => (p - 1) * (p - 1) * ((c + 1) * (p - 1) + c) + 1
  end.

Record tween : Type := mkTween {
  tw_target : target;
  tw_to : vec3;
  tw_start : Z;
  tw_duration : Z;
  tw_ease : ease;
  tw_from : option vec3
}.

Definition tw_end (w : tween) : Z := (tw_start w + tw_duration w)%Z.

Definition lerp (a b k : R) : R := a + (b - a) * k.

Definition vlerp (a b : vec3) (k : R) : vec3 :=
  mkVec3 (lerp (vx a) (vx b) k) (lerp (vy a) (vy b) k) (lerp (vz a) (vz b) k).

(** One tween at one tick, given the current value [cur] of its target:
    [None] when the tween has not started; otherwise the value written and
    the tween to keep, if any. *)
Definition render1 (now : Z) (w : tween) (cur : vec3) : option (vec3 * option tween) :=
  if (now <? tw_start w)%Z then None
  else
    let from := match tw_from w with Some f => f | None => cur end in
    if (tw_end w <=? now)%Z then Some (tw_to w, None)
    else
      let p := IZR (now - tw_start w) / IZR (tw_duration w) in
      Some (vlerp from (tw_to w) (ease_fn (tw_ease w) p),
            Some (mkTween (tw_target w) (tw_to w) (tw_start w) (tw_duration w)
                          (tw_ease w) (Some from))).

(** ** Transient click feedback *)

(** The ring spawned by [createRipple], with the bookkeeping the sources
    leave to the scene graph, the resource tracker and the frame scheduler. *)
Record ripple : Type := mkRipple {
  rp_position : vec3;
  rp_scale : vec3;
  rp_opacity : R;
  rp_startTime : Z;
  rp_inScene : bool;
  rp_geometryDisposed : bool;
  rp_materialDisposed : bool;
  rp_scheduled : bool
}.

(** A pending [setTimeout(() => object.scale.set(originalScale...), 150)]. *)
Record pulse : Type := mkPulse {
  pl_due : Z;
  pl_object : objref;
  pl_originalScale : vec3
}.

(** ** Program state *)

Record state : Type := mkState {
  (* Portfolio3D *)
  app_currentSection : Z;
  contentSections : list bool;
  scrollTimeout : option (Z * R);
  (* CameraController *)
  camera_position : vec3;
  camera_lookingAt : option vec3;
  targetPosition : vec3;
  mousePosX : R;
  mousePosY : R;
  (* PortfolioObjects *)
  objects : objectTable;
  currentSection : Z;
  (* InteractionManager *)
  mouse_x : R;
  mouse_y : R;
  hoveredObject : option objref;
  cursor_pointer : bool;
  ripples : list ripple;
  pulses : list pulse;
  (* animation engine *)
  tweens : list tween
}.

Definition set_app_currentSection (v : Z) (s : state) : state :=
  mkState v (contentSections s) (scrollTimeout s) (camera_position s)
    (camera_lookingAt s) (targetPosition s) (mousePosX s) (mousePosY s)
    (objects s) (currentSection s) (mouse_x s) (mouse_y s) (hoveredObject s)
    (cursor_pointer s) (ripples s) (pulses s) (tweens s).
Definition set_contentSections (v : list bool) (s : state) : state :=
  mkState (app_currentSection s) v (scrollTimeout s) (camera_position s)
    (camera_lookingAt s) (targetPosition s) (mousePosX s) (mousePosY s)
    (objects s) (currentSection s) (mouse_x s) (mouse_y s) (hoveredObject s)
    (cursor_pointer s) (ripples s) (pulses s) (tweens s).
Definition set_scrollTimeout (v : option (Z * R)) (s : state) : state :=
  mkState (app_currentSection s) (contentSections s) v (camera_position s)
    (camera_lookingAt s) (targetPosition s) (mousePosX s) (mousePosY s)
    (objects s) (currentSection s) (mouse_x s) (mouse_y s) (hoveredObject s)
    (cursor_pointer s) (ripples s) (pulses s) (tweens s).
Definition set_camera_position (v : vec3) (s : state) : state :=
  mkState (app_currentSection s) (contentSections s) (scrollTimeout s) v
    (camera_lookingAt s) (targetPosition s) (mousePosX s) (mousePosY s)
    (objects s) (currentSection s) (mouse_x s) (mouse_y s) (hoveredObject s)
    (cursor_pointer s) (ripples s) (pulses s) (tweens s).
Definition set_camera_lookingAt (v : option vec3) (s : state) : state :=
  mkState (app_currentSection s) (contentSections s) (scrollTimeout s)
    (camera_position s) v (targetPosition s) (mousePosX s) (mousePosY s)
    (objects s) (currentSection s) (mouse_x s) (mouse_y s) (hoveredObject s)
    (cursor_pointer s) (ripples s) (pulses s) (tweens s).
Definition set_targetPosition (v : vec3) (s : state) : state :=
  mkState (app_currentSection s) (contentSections s) (scrollTimeout s)
    (camera_position s) (camera_lookingAt s) v (mousePosX s) (mousePosY s)
    (objects s) (currentSection s) (mouse_x s) (mouse_y s) (hoveredObject s)
    (cursor_pointer s) (ripples s) (pulses s) (tweens s).
Definition set_mousePos (x y : R) (s : state) : state :=
  mkState (app_currentSection s) (contentSections s) (scrollTimeout s)
    (camera_position s) (camera_lookingAt s) (targetPosition s) x y
    (objects s) (currentSection s) (mouse_x s) (mouse_y s) (hoveredObject s)
    (cursor_pointer s) (ripples s) (pulses s) (tweens s).
Definition set_objects (v : objectTable) (s : state) : state :=
  mkState (app_currentSection s) (contentSections s) (scrollTimeout s)
    (camera_position s) (camera_lookingAt s) (targetPosition s) (mousePosX s)
    (mousePosY s) v (currentSection s) (mouse_x s) (mouse_y s)
    (hoveredObject s) (cursor_pointer s) (ripples s) (pulses s) (tweens s).
Definition set_currentSection (v : Z) (s : state) : state :=
  mkState (app_currentSection s) (contentSections s) (scrollTimeout s)
    (camera_position s) (camera_lookingAt s) (targetPosition s) (mousePosX s)
    (mousePosY s) (objects s) v (mouse_x s) (mouse_y s) (hoveredObject s)
    (cursor_pointer s) (ripples s) (pulses s) (tweens s).
Definition set_mouse (x y : R) (s : state) : state :=
  mkState (app_currentSection s) (contentSections s) (scrollTimeout s)
    (camera_position s) (camera_lookingAt s) (targetPosition s) (mousePosX s)
    (mousePosY s) (objects s) (currentSection s) x y (hoveredObject s)
    (cursor_pointer s) (ripples s) (pulses s) (tweens s).
Definition set_hoveredObject (v : option objref) (s : state) : state :=
  mkState (app_currentSection s) (contentSections s) (scrollTimeout s)
    (camera_position s) (camera_lookingAt s) (targetPosition s) (mousePosX s)
    (mousePosY s) (objects s) (currentSection s) (mouse_x s) (mouse_y s) v
    (cursor_pointer s) (ripples s) (pulses s) (tweens s).
Definition set_cursor_pointer (v : bool) (s : state) : state :=
  mkState (app_currentSection s) (contentSections s) (scrollTimeout s)
    (camera_position s) (camera_lookingAt s) (targetPosition s) (mousePosX s)
    (mousePosY s) (objects s) (currentSection s) (mouse_x s) (mouse_y s)
    (hoveredObject s) v (ripples s) (pulses s) (tweens s).
Definition set_ripples (v : list ripple) (s : state) : state :=
  mkState (app_currentSection s) (contentSections s) (scrollTimeout s)
    (camera_position s) (camera_lookingAt s) (targetPosition s) (mousePosX s)
    (mousePosY s) (objects s) (currentSection s) (mouse_x s) (mouse_y s)
    (hoveredObject s) (cursor_pointer s) v (pulses s) (tweens s).
Definition set_pulses (v : list pulse) (s : state) : state :=
  mkState (app_currentSection s) (contentSections s) (scrollTimeout s)
    (camera_position s) (camera_lookingAt s) (targetPosition s) (mousePosX s)
    (mousePosY s) (objects s) (currentSection s) (mouse_x s) (mouse_y s)
    (hoveredObject s) (cursor_pointer s) (ripples s) v (tweens s).
Definition set_tweens (v : list tween) (s : state) : state :=
  mkState (app_currentSection s) (contentSections s) (scrollTimeout s)
    (camera_position s) (camera_lookingAt s) (targetPosition s) (mousePosX s)
    (mousePosY s) (objects s) (currentSection s) (mouse_x s) (mouse_y s)
    (hoveredObject s) (cursor_pointer s) (ripples s) (pulses s) v.

(** A handler either returns or raises an exception nobody catches; in both
    cases the mutations it made stay. *)
Inductive outcome : Type :=
| Ok (s : state)
| Thrown (s : state).

Definition state_of (o : outcome) : state :=
  match o with Ok s => s | Thrown s => s end.

Definition threw (o : outcome) : bool :=
  match o with Ok _ => false | Thrown _ => true end.

(** ** Engine operations *)

Definition read (p : target) (s : state) : vec3 :=
  match p with
  | TCameraPosition => camera_position s
  | TTargetPosition => targetPosition s
  | TScale r => match obj_at r (objects s) with Some o => scale o | None => vzero end
  end.

Definition write (p : target) (v : vec3) (s : state) : state :=
  match p with
  | TCameraPosition => set_camera_position v s
  | TTargetPosition => set_targetPosition v s
  | TScale r => set_objects (upd_obj r (set_scale v) (objects s)) s
  end.

(** [gsap.to(target, {x, y, z, duration, delay, ease})] called at [now]. *)
Definition gsap_to (now : Z) (p : target) (to : vec3) (duration delay : Z) (e : ease)
    (s : state) : state :=
  set_tweens (tweens s ++ [mkTween p to (now + delay)%Z duration e None]) s.

(** One tick of the engine over the live tweens [ws], in creation order. *)
Fixpoint renderAll (now : Z) (ws : list tween) (s : state) : state * list tween :=
  match ws with
  | [] => (s, [])
  | w :: r =>
      match render1 now w (read (tw_target w) s) with
      | None =>
          let (s', r') := renderAll now r s in (s', w :: r')
      | Some (v, k) =>
          let (s', r') := renderAll now r (write (tw_target w) v s) in
          (s', match k with Some w' => w' :: r' | None => r' end)
      end
  end.

Definition gsap_tick (now : Z) (s : state) : state :=
  let (s', ws) := renderAll now (tweens s) s in set_tweens ws s'.

(** ** Per-frame animator ([PortfolioObjects.update]) *)

Fixpoint mapi {A B : Type} (f : nat -> A -> B) (l : list A) (i : nat) : list B :=
  match l with
  | [] => []
  | a :: r => f i a :: mapi f r (S i)
  end.

Definition updateHero (elapsedTime : R) (index : nat) (obj : object) : object :=
  if (index =? 0)%nat then
    set_rotation (mkVec3 (elapsedTime * 0.3) (elapsedTime * 0.5) (vz (rotation obj))) obj
  else if (index <=? 8)%nat then
    let a := num (angle (data obj)) + elapsedTime * 0.5 in
    set_position (mkVec3 (cos a * num (radius (data obj)))
                         (sin (elapsedTime * 0.5 + INR index) * 0.5)
                         (sin a * num (radius (data obj)))) obj
  else
    set_rotation (mkVec3 (vx (rotation obj)) (elapsedTime * 0.3) (vz (rotation obj))) obj.

Definition updateAbout (elapsedTime : R) (obj : object) : object :=
  match floatOffset (data obj) with
  | Some off =>
      let obj :=
        set_position (mkVec3 (vx (position obj))
                             (vy (position obj) + sin (elapsedTime * 2 + off) * 0.002)
                             (vz (position obj))) obj in
      set_rotation (mkVec3 (elapsedTime * 0.5) (elapsedTime * 0.3) (vz (rotation obj))) obj
  | None =>
      set_rotation (mkVec3 (vx (rotation obj)) (vy (rotation obj)) (elapsedTime * 0.2)) obj
  end.

Definition updateProjects (elapsedTime : R) (obj : object) : object :=
  match hoverY (data obj) with
  | Some y0 =>
      set_position (mkVec3 (vx (position obj)) (y0 + sin (elapsedTime * 2) * 0.1)
                           (vz (position obj))) obj
  | None => obj
  end.

Definition updateSkills (elapsedTime : R) (obj : object) : object :=
  match orbit (data obj) with
  | Some _ =>
      let a := num (angle (data obj)) + elapsedTime * num (speed (data obj)) in
      let obj :=
        set_position (mkVec3 (cos a * num (radius (data obj))) (vy (position obj))
                             (sin a * num (radius (data obj)))) obj in
      set_rotation (mkVec3 (vx (rotation obj)) (elapsedTime * 2) (vz (rotation obj))) obj
  | None =>
      set_rotation (mkVec3 (elapsedTime * 0.5) (elapsedTime * 0.7) (vz (rotation obj))) obj
  end.

Definition updateContact (elapsedTime : R) (obj : object) : object :=
  match delay (data obj) with
  | Some d =>
      let k := 1 + sin (elapsedTime * 2 - d) * 0.2 in
      set_scale (mkVec3 k k k) obj
  | None =>
      let obj :=
        set_rotation (mkVec3 (vx (rotation obj)) (sin elapsedTime * 0.2)
                             (vz (rotation obj))) obj in
      set_position (mkVec3 (vx (position obj)) (-3 + sin (elapsedTime * 2) * 0.1)
                           (vz (position obj))) obj
  end.

(** [PortfolioObjects.update(elapsedTime, deltaTime)]; [deltaTime] is not
    used by the body. *)
Definition update (elapsedTime : R) (t : objectTable) : objectTable :=
  mkObjects (mapi (updateHero elapsedTime) (hero t) 0)
            (map (updateAbout elapsedTime) (about t))
            (map (updateProjects elapsedTime) (projects t))
            (map (updateSkills elapsedTime) (skills t))
            (map (updateContact elapsedTime) (contact t)).

(** ** Camera controller *)

(** [CameraController.moveToSection], called at engine time [now]; the
    1.5 s of the source are 1500 ms here. *)
Definition moveToSection (now : Z) (sectionIndex : Z) (s : state) : state :=
  match js_index sectionPositions sectionIndex with
  | None => s
  | Some p =>
      let s := gsap_to now TCameraPosition (pose_position p) 1500 0 Power2InOut s in
      gsap_to now TTargetPosition (pose_lookAt p) 1500 0 Power2InOut s
  end.

(** The viewport size read from [window]. *)
Record viewport : Type := mkViewport { innerWidth : R; innerHeight : R }.

Definition normalizeX (w : viewport) (clientX : R) : R :=
  (clientX / innerWidth w) * 2 - 1.
Definition normalizeY (w : viewport) (clientY : R) : R :=
  - (clientY / innerHeight w) * 2 + 1.

(** [CameraController.handleMouseMove] *)
Definition handleMouseMove (w : viewport) (clientX clientY : R) (s : state) : state :=
  set_mousePos (normalizeX w clientX) (normalizeY w clientY) s.

(** [CameraController.update(deltaTime)]; [deltaTime] is not used. *)
Definition cameraUpdate (s : state) : state :=
  let p := camera_position s in
  let targetX := vx p + mousePosX s * parallaxStrength in
  let targetY := vy p + mousePosY s * parallaxStrength in
  let p' := mkVec3 (vx p + (targetX - vx p) * 0.05)
                   (vy p + (targetY - vy p) * 0.05) (vz p) in
  set_camera_lookingAt (Some (targetPosition s)) (set_camera_position p' s).

(** ** Pointer interaction *)

(** [THREE.Raycaster.intersectObjects(list, false)], set from the current
    pointer and camera: given the candidate list it answers the index, in
    that list, of the nearest primitive hit, if any. *)
Definition raycaster : Type := list object -> option nat.

(** [InteractionManager.onMouseMove] *)
Definition onMouseMove (w : viewport) (clientX clientY : R) (s : state) : state :=
  set_mouse (normalizeX w clientX) (normalizeY w clientY) s.

(** [a || 0] on a possibly undefined number. *)
Definition or_zero (a : option R) : R :=
  match a with
  | Some v => if Req_dec_T v 0 then 0 else v
  | None => 0
  end.
Arguments or_zero : simpl never.

(** [InteractionManager.clearHover] *)
Definition clearHover (s : state) : state :=
  match hoveredObject s with
  | None => s
  | Some h =>
      let s := set_cursor_pointer false s in
      let restore (o : object) : object :=
        match mat o, originalEmissiveIntensity (data o) with
        | Some _, Some v => set_mat (Some (mkMaterial (Some v))) o
        | _, _ => o
        end in
      let s := set_objects (upd_obj h restore (objects s)) s in
      set_hoveredObject None s
  end.

(** [InteractionManager.handleObjectHover] *)
Definition enterHover (r : objref) (s : state) : state :=
  let s := clearHover s in
  let s := set_hoveredObject (Some r) s in
  let s := set_cursor_pointer true s in
  let highlight (o : object) : object :=
    match mat o with
    | Some m =>
        let o :=
          set_data (set_originalEmissiveIntensity
                      (Some (or_zero (emissiveIntensity m))) (data o)) o in
        match emissiveIntensity m with
        | Some _ => set_mat (Some (mkMaterial (Some 1))) o
        | None => o
        end
    | None => o
    end in
  set_objects (upd_obj r highlight (objects s)) s.

Definition handleObjectHover (r : objref) (s : state) : state :=
  match hoveredObject s with
  | Some h => if objref_eq_dec h r then s else enterHover r s
  | None => enterHover r s
  end.

(** The frame callback [animateRipple] of one ripple, run at wall-clock
    instant [now]. *)
Definition animateRipple (now : Z) (rp : ripple) : ripple :=
  let elapsed := (now - rp_startTime rp)%Z in
  let duration := 1000 in
  let progress := IZR elapsed / duration in
  if Rlt_dec progress 1 then
    mkRipple (rp_position rp) (mkVec3 (1 + progress * 3) (1 + progress * 3) 1)
             (1 - progress) (rp_startTime rp) (rp_inScene rp)
             (rp_geometryDisposed rp) (rp_materialDisposed rp) true
  else
    mkRipple (rp_position rp) (rp_scale rp) (rp_opacity rp) (rp_startTime rp)
             false true true false.

(** [InteractionManager.createRipple], called at wall-clock instant [now]. *)
Definition createRipple (now : Z) (pos : vec3) (s : state) : state :=
  let rp := mkRipple pos vone 1 now true false false false in
  set_ripples (ripples s ++ [animateRipple now rp]) s.

(** [InteractionManager.handleObjectClick] *)
Definition handleObjectClick (now : Z) (r : objref) (s : state) : state :=
  match obj_at r (objects s) with
  | None => s
  | Some o =>
      let s := createRipple now (position o) s in
      let originalScale := scale o in
      let s :=
        set_objects
          (upd_obj r (fun o => set_scale (multiplyScalar 1.2 (scale o)) o) (objects s)) s in
      set_pulses (pulses s ++ [mkPulse (now + 150)%Z r originalScale]) s
  end.

(** [InteractionManager.checkIntersections(isClick)].  When
    [portfolioObjects.currentSection] is not an index of [sectionNames],
    [currentObjects] is [undefined] and the ray caster raises on it. *)
Definition checkIntersections (rc : raycaster) (isClick : bool) (now : Z) (s : state)
    : outcome :=
  match js_index sectionNames (currentSection s) with
  | None => Thrown s
  | Some c =>
      let currentObjects := get_section c (objects s) in
      match rc currentObjects with
      | Some n =>
          if (n <? length currentObjects)%nat then
            if isClick then Ok (handleObjectClick now (c, n) s)
            else Ok (handleObjectHover (c, n) s)
          else Ok (clearHover s)
      | None => Ok (clearHover s)
      end
  end.

(** [InteractionManager.onTouchStart] *)
Definition onTouchStart (w : viewport) (rc : raycaster) (touches : list (R * R))
    (now : Z) (s : state) : outcome :=
  match touches with
  | [] => Ok s
  | (clientX, clientY) :: _ =>
      checkIntersections rc false now
        (set_mouse (normalizeX w clientX) (normalizeY w clientY) s)
  end.

(** The deferred callbacks of click pulses that are due at [now]. *)
Definition runPulses (now : Z) (s : state) : state :=
  let due := filter (fun p => (pl_due p <=? now)%Z) (pulses s) in
  let later := filter (fun p => negb (pl_due p <=? now)%Z) (pulses s) in
  let restore (t : objectTable) (p : pulse) :=
    upd_obj (pl_object p) (set_scale (pl_originalScale p)) t in
  set_pulses later (set_objects (fold_left restore due (objects s)) s).

(** ** Section coordinator *)

(** [PortfolioObjects.updateActiveSection], called at engine time [now]
    (durations of 0.5 s are 500 ms, the stagger [index * 0.05] s is
    [50 * index] ms).  For an index outside [sectionNames], [currentObjects] is [undefined] and
    [currentObjects.forEach] raises after the hide tweens were issued. *)
Definition updateActiveSection (now : Z) (sectionIndex : Z) (s : state) : outcome :=
  let s := set_currentSection sectionIndex s in
  let hide (r : objref) := mkTween (TScale r) vzero now 500 Power2In None in
  let s := set_tweens (tweens s ++ map hide (all_refs (objects s))) s in
  match js_index sectionNames sectionIndex with
  | None => Thrown s
  | Some c =>
      let show (index : nat) (r : objref) :=
        mkTween (TScale r) vone (now + 50 * Z.of_nat index)%Z 500 (BackOut 1.7) None in
      Ok (set_tweens (tweens s ++ mapi show (refs_of c (objects s)) 0) s)
  end.

(** [Portfolio3D.navigateToSection] *)
Definition navigateToSection (now : Z) (sectionIndex : Z) (s : state) : outcome :=
  if (sectionIndex =? app_currentSection s)%Z then Ok s
  else
    let s := set_app_currentSection sectionIndex s in
    let s :=
      set_contentSections
        (mapi (fun index _ => (Z.of_nat index =? sectionIndex)%Z) (contentSections s) 0) s in
    let s := moveToSection now sectionIndex s in
    updateActiveSection now sectionIndex s.

(** The wheel listener: [clearTimeout(scrollTimeout)] and a fresh 100 ms
    timer that captures the event. *)
Definition onWheel (now : Z) (deltaY : R) (s : state) : state :=
  set_scrollTimeout (Some ((now + 100)%Z, deltaY)) s.

(** Comparison of two numbers as a boolean. *)
Definition Rltb (a b : R) : bool := if Rlt_dec a b then true else false.

(** The body of the timer callback, for the captured [e.deltaY]. *)
Definition wheelStep (now : Z) (deltaY : R) (s : state) : outcome :=
  if Rltb 0 deltaY && (app_currentSection s <? 4)%Z then
    navigateToSection now (app_currentSection s + 1) s
  else if Rltb deltaY 0 && (0 <? app_currentSection s)%Z then
    navigateToSection now (app_currentSection s - 1) s
  else Ok s.

(** The host runs the pending wheel timer, if it is due at [now]. *)
Definition runScrollTimeout (now : Z) (s : state) : outcome :=
  match scrollTimeout s with
  | Some (due, deltaY) =>
      if (due <=? now)%Z then wheelStep now deltaY (set_scrollTimeout None s)
      else Ok s
  | None => Ok s
  end.

(** ** Frames *)

(** [Portfolio3D.animate]: animator, camera, interaction, then render. *)
Definition animate (elapsedTime : R) (rc : raycaster) (now : Z) (s : state) : outcome :=
  let s := set_objects (update elapsedTime (objects s)) s in
  let s := cameraUpdate s in
  checkIntersections rc false now s.

Definition animateRipples (now : Z) (s : state) : state :=
  set_ripples
    (map (fun rp => if rp_scheduled rp then animateRipple now rp else rp) (ripples s)) s.

(** ** Events and runs

    What the host environment dispatches, each at an instant [now] in
    milliseconds.  One clock serves as the wall clock ([Date.now()], timer
    deadlines) and as the animation engine's clock.
    - [Navigate i]: a call of [navigateToSection(i)] (a navigation link or
      the call-to-action button, which always passes 1).
    - [Wheel], [MouseMove], [TouchStart], [Click]: the input listeners.
    - [ScrollTimeout], [PulseTimeout]: the host runs the timer callbacks
      that are due.
    - [Tick]: the animation engine's own frame callback.
    - [Frame]: the application's frame callback, [Portfolio3D.animate],
      together with the frame callbacks of the live ripples; [elapsedTime]
      is the scene clock in seconds and [rc] the ray caster as set from the
      current pointer and camera. *)

Inductive event : Type :=
| Navigate (sectionIndex : Z)
| Wheel (deltaY : R)
| ScrollTimeout
| MouseMove (w : viewport) (clientX clientY : R)
| TouchStart (w : viewport) (rc : raycaster) (touches : list (R * R))
| Click (rc : raycaster)
| PulseTimeout
| Tick
| Frame (elapsedTime : R) (rc : raycaster).

Definition step (now : Z) (e : event) (s : state) : outcome :=
  match e with
  | Navigate i => navigateToSection now i s
  | Wheel deltaY => Ok (onWheel now deltaY s)
  | ScrollTimeout => runScrollTimeout now s
  | MouseMove w x y => Ok (onMouseMove w x y (handleMouseMove w x y s))
  | TouchStart w rc touches => onTouchStart w rc touches now s
  | Click rc => checkIntersections rc true now s
  | PulseTimeout => Ok (runPulses now s)
  | Tick => Ok (gsap_tick now s)
  | Frame elapsedTime rc => animate elapsedTime rc now (animateRipples now s)
  end.

(** A run of timed events.  An exception ends the handler that raised it,
    not the page: later events act on the state it left. *)
Fixpoint run (tr : list (Z * event)) (s : state) : state :=
  match tr with
  | [] => s
  | (now, e) :: r => run r (state_of (step now e s))
  end.

Fixpoint uncaught (tr : list (Z * event)) (s : state) : nat :=
  match tr with
  | [] => O
  | (now, e) :: r =>
      ((if threw (step now e s) then 1 else 0) + uncaught r (state_of (step now e s)))%nat
  end.

(** Modelled from the spec: [index.html] is not among the sources.  The page
    markup has one content section per section identity, and the flag of
    the Hero section is set when the page loads. *)
Definition initialMarkup : list bool := [true; false; false; false; false].

(** The state built by the constructors and [Portfolio3D.init], before the
    first frame. *)
Definition initial_state : state :=
  mkState 0 initialMarkup None
          (mkVec3 0 0 15) None (mkVec3 0 0 15) 0 0
          createAllSections 0
          0 0 None false [] []
          [].

(** ** Event listeners

    [addEventListener] and [removeEventListener] of the host, for the
    targets, event types and functions the sources use.  A function value
    is an object: every evaluation of [f.bind(this)] or of a function
    expression makes a new one, told apart here by a serial number.  On one
    target a listener is identified by its event type, its function and its
    capture flag: adding one that is registered already does nothing, and
    removing one that is not registered does nothing. *)

Inductive eventTarget : Type := Window | Document | NavLink (k : nat) | CtaButton.

Inductive eventType : Type := EvResize | EvClick | EvMouseMove | EvWheel | EvTouchStart.

(** What a function object runs: a method bound to its instance, or one of
    the function expressions of [Portfolio3D.setupEventListeners]. *)
Inductive code : Type :=
| Bound_animate
| Bound_onWindowResize
| Bound_onMouseMove
| Bound_onClick
| Bound_onTouchStart
| NavLinkHandler (k : nat)
| CtaHandler
| ParallaxHandler
| WheelHandler.

Record callback : Type := mkCallback { cb_serial : nat; cb_code : code }.

Record listener : Type := mkListener {
  l_target : eventTarget;
  l_type : eventType;
  l_callback : callback;
  l_capture : bool
}.

(** The listeners registered on the page, in registration order, and the
    number of function objects made so far. *)
Record host : Type := mkHost { listeners : list listener; nextSerial : nat }.

Definition eventTarget_eqb (a b : eventTarget) : bool :=
  match a, b with
  | Window, Window | Document, Document | CtaButton, CtaButton => true
  | NavLink j, NavLink k => (j =? k)%nat
  | _, _ => false
  end.

Definition eventType_eqb (a b : eventType) : bool :=
  match a, b with
  | EvResize, EvResize | EvClick, EvClick | EvMouseMove, EvMouseMove
  | EvWheel, EvWheel | EvTouchStart, EvTouchStart => true
  | _, _ => false
  end.

(** Same target, same type, same function object, same capture flag. *)
Definition same_listener (a b : listener) : bool :=
  eventTarget_eqb (l_target a) (l_target b) &&
  eventType_eqb (l_type a) (l_type b) &&
  (cb_serial (l_callback a) =? cb_serial (l_callback b))%nat &&
  Bool.eqb (l_capture a) (l_capture b).

(** Evaluating [f.bind(this)] or a function expression. *)
Definition newFunction (c : code) (h : host) : callback * host :=
  (mkCallback (nextSerial h) c, mkHost (listeners h) (S (nextSerial h))).

Definition addEventListener (tg : eventTarget) (ty : eventType) (f : callback)
    (capture : bool) (h : host) : host :=
  let l := mkListener tg ty f capture in
  if existsb (same_listener l) (listeners h) then h
  else mkHost (listeners h ++ [l]) (nextSerial h).

Definition removeEventListener (tg : eventTarget) (ty : eventType) (f : callback)
    (capture : bool) (h : host) : host :=
  mkHost (filter (fun x => negb (same_listener (mkListener tg ty f capture) x)) (listeners h))
         (nextSerial h).

Module InteractionManager.

(** [InteractionManager.setupEventListeners] *)
Definition setupEventListeners (h : host) : host :=
  let (f, h) := newFunction Bound_onMouseMove h in
  let h := addEventListener Window EvMouseMove f false h in
  let (f, h) := newFunction Bound_onClick h in
  let h := addEventListener Window EvClick f false h in
  let (f, h) := newFunction Bound_onTouchStart h in
  addEventListener Window EvTouchStart f false h.

(** [InteractionManager.dispose]: each argument is a fresh [bind]. *)
Definition dispose (h : host) : host :=
  let (f, h) := newFunction Bound_onMouseMove h in
  let h := removeEventListener Window EvMouseMove f false h in
  let (f, h) := newFunction Bound_onClick h in
  let h := removeEventListener Window EvClick f false h in
  let (f, h) := newFunction Bound_onTouchStart h in
  removeEventListener Window EvTouchStart f false h.

End InteractionManager.

Module Portfolio3D.

(** The two fields the constructor overwrites with bound methods. *)
Record bound : Type := mkBound { animate : callback; onWindowResize : callback }.

(** [this.animate = this.animate.bind(this);
     this.onWindowResize = this.onWindowResize.bind(this);] *)
Definition constructor (h : host) : bound * host :=
  let (a, h) := newFunction Bound_animate h in
  let (r, h) := newFunction Bound_onWindowResize h in
  (mkBound a r, h).

(** [Portfolio3D.setupEventListeners], on a page with [navLinks] navigation
    links and with or without a call-to-action button.  The option
    [{ passive: true }] of the wheel listener leaves the capture flag
    unset. *)
Definition setupEventListeners (b : bound) (navLinks : nat) (cta : bool) (h : host) : host :=
  let h := addEventListener Window EvResize (onWindowResize b) false h in
  let h :=
    fold_left (fun h k =>
                 let (f, h) := newFunction (NavLinkHandler k) h in
                 addEventListener (NavLink k) EvClick f false h)
              (seq 0 navLinks) h in
  let h :=
    if cta then
      let (f, h) := newFunction CtaHandler h in
      addEventListener CtaButton EvClick f false h
    else h in
  let (f, h) := newFunction ParallaxHandler h in
  let h := addEventListener Document EvMouseMove f false h in
  let (f, h) := newFunction WheelHandler h in
  addEventListener Window EvWheel f false h.

(** What [Portfolio3D.dispose] does to the listeners (the rest of the
    method disposes rendering resources). *)
Definition dispose (b : bound) (h : host) : host :=
  removeEventListener Window EvResize (onWindowResize b) false h.

End Portfolio3D.

(** Every registered function was made before the next one to be made. *)
Definition well_formed (h : host) : Prop :=
  Forall (fun l => (cb_serial (l_callback l) < nextSerial h)%nat) (listeners h).

(** ** The environment ([SceneManager])

    [Math.random()] is a source of draws consumed in program order.  The
    buffers are lists of numbers, three per point; the typed arrays of
    [createParticles] are filled by ascending index, which is modelled as
    appending. *)

Record rng : Type := mkRng { draws : nat -> R; used : nat }.

Definition random (g : rng) : R * rng :=
  (draws g (used g), mkRng (draws g) (S (used g))).

Module SceneManager.

(** A [THREE.Points] object: its [position] and [color] attributes and its
    rotation. *)
Record points : Type := mkPoints {
  positionAttribute : list R;
  colorAttribute : list R;
  points_rotation : vec3
}.

Record t : Type := mk { stars : option points; particleSystem : option points }.

(** One iteration of the loop of [createStarfield]. *)
Definition starVertex (g : rng) : list R * rng :=
  let (r, g) := random g in
  let x := (r - 0.5) * 2000 in
  let (r, g) := random g in
  let y := (r - 0.5) * 2000 in
  let (r, g) := random g in
  let z := (r - 0.5) * 2000 in
  ([x; y; z], g).

Fixpoint starLoop (n : nat) (starsVertices : list R) (g : rng) : list R * rng :=
  match n with
  | O => (starsVertices, g)
  | S n => let (v, g) := starVertex g in starLoop n (starsVertices ++ v) g
  end.

Definition createStarfield (g : rng) : points * rng :=
  let (starsVertices, g) := starLoop (Z.to_nat 10000) [] g in
  (mkPoints starsVertices [] vzero, g).

(** One iteration of the loop of [createParticles]: three coordinates and
    the colour picked by [colorChoice]. *)
Definition particle (g : rng) : list R * list R * rng :=
  let (r, g) := random g in
  let x := (r - 0.5) * 100 in
  let (r, g) := random g in
  let y := (r - 0.5) * 100 in
  let (r, g) := random g in
  let z := (r - 0.5) * 100 in
  let (colorChoice, g) := random g in
  let c :=
    if Rlt_dec colorChoice 0.33 then [0; 1; 1]
    else if Rlt_dec colorChoice 0.66 then [1; 0; 1]
    else [0; 1; 0.5] in
  ([x; y; z], c, g).

Fixpoint particleLoop (n : nat) (posArray colorArray : list R) (g : rng)
    : list R * list R * rng :=
  match n with
  | O => (posArray, colorArray, g)
  | S n =>
      let '(p, c, g) := particle g in
      particleLoop n (posArray ++ p) (colorArray ++ c) g
  end.

Definition createParticles (g : rng) : points * rng :=
  let '(posArray, colorArray, g) := particleLoop (Z.to_nat 5000) [] [] g in
  (mkPoints posArray colorArray vzero, g).

(** The constructor: [createEnvironment] builds the star field and the
    particle system (and a grid helper that nothing refers to later). *)
Definition constructor (g : rng) : t * rng :=
  let (s, g) := createStarfield g in
  let (p, g) := createParticles g in
  (mk (Some s) (Some p), g).

(** [SceneManager.update(elapsedTime)] *)
Definition update (elapsedTime : R) (m : t) : t :=
  let stars' :=
    match stars m with
    | Some s =>
        Some (mkPoints (positionAttribute s) (colorAttribute s)
                (mkVec3 (vx (points_rotation s)) (elapsedTime * 0.02)
                        (vz (points_rotation s))))
    | None => None
    end in
  let particles' :=
    match particleSystem m with
    | Some p =>
        Some (mkPoints (positionAttribute p) (colorAttribute p)
                (mkVec3 (sin (elapsedTime * 0.1) * 0.1) (elapsedTime * 0.05)
                        (vz (points_rotation p))))
    | None => None
    end in
  mk stars' particles'.

End SceneManager.

(** The draws of the random source lie in [0, 1). *)
Definition unit_draws (g : rng) : Prop := forall k, 0 <= draws g k < 1.

(** A buffer of colour triples, each one of the three colours of the
    particle palette. *)
Inductive palette_buffer : list R -> Prop :=
| palette_nil : palette_buffer []
| palette_cyan l : palette_buffer l -> palette_buffer (0 :: 1 :: 1 :: l)
| palette_magenta l : palette_buffer l -> palette_buffer (1 :: 0 :: 1 :: l)
| palette_green l : palette_buffer l -> palette_buffer (0 :: 1 :: 0.5 :: l).

(** ** The frame-rate monitor ([PerformanceMonitor])

    [performance.now()] is a real number of milliseconds; the counters are
    integers. *)

(** [Math.round]: the nearest integer, halves upwards. *)
Definition Math_round (x : R) : Z := Int_part (x + / 2).

Module PerformanceMonitor.

Inductive fpsColor : Type := Green | Yellow | Red.

(** [container.style.display]: not set by [initStats]. *)
Inductive display : Type := Unset | Block | Hidden.

Record t : Type := mk {
  enabled : bool;
  frames : Z;
  prevTime : R;
  fps : Z;
  ms : Z;
  fpsElement : option (fpsColor * Z);
  msElement : option Z;
  container_display : display
}.

(** The constructor with [initStats], run at [performance.now() = now]. *)
Definition constructor (now : R) : t := mk true 0 now 0 0 None None Unset.

(** [updateDisplay], without the memory line (a non-standard host
    extension that writes a third element nothing reads). *)
Definition updateDisplay (p : t) : t :=
  let color :=
    if (60 <=? fps p)%Z then Green else if (30 <=? fps p)%Z then Yellow else Red in
  mk (enabled p) (frames p) (prevTime p) (fps p) (ms p)
     (Some (color, fps p)) (Some (ms p)) (container_display p).

(** [PerformanceMonitor.update], run at [performance.now() = currentTime]. *)
Definition update (currentTime : R) (p : t) : t :=
  if negb (enabled p) then p
  else
    let frames1 := (frames p + 1)%Z in
    let delta := currentTime - prevTime p in
    if Rle_dec 1000 delta then
      let fps' := Math_round ((IZR frames1 * 1000) / delta) in
      let ms' := Math_round (delta / IZR frames1) in
      updateDisplay
        (mk (enabled p) 0 currentTime fps' ms' (fpsElement p) (msElement p)
            (container_display p))
    else
      mk (enabled p) frames1 (prevTime p) (fps p) (ms p) (fpsElement p) (msElement p)
         (container_display p).

(** [PerformanceMonitor.toggle] *)
Definition toggle (p : t) : t :=
  let e := negb (enabled p) in
  mk e (frames p) (prevTime p) (fps p) (ms p) (fpsElement p) (msElement p)
     (if e then Block else Hidden).

End PerformanceMonitor.

(** The monitor's panel is visible. *)
Definition panel_visible (p : PerformanceMonitor.t) : bool :=
  match PerformanceMonitor.container_display p with
  | PerformanceMonitor.Hidden => false
  | _ => true
  end.

(** The monitor run over the frames at the instants [ts], in order. *)
Definition monitor_frames (ts : list R) (p : PerformanceMonitor.t) : PerformanceMonitor.t :=
  fold_left (fun p t => PerformanceMonitor.update t p) ts p.

(** ** Notions used by the statements and their proofs *)

(** Events that neither navigate nor click: engine ticks, rendered frames
    and pointer moves. *)
Definition passive (e : event) : Prop :=
  match e with
  | Tick | Frame _ _ | MouseMove _ _ _ => True
  | _ => False
  end.

(** Engine ticks and rendered frames only. *)
Definition is_frame (e : event) : Prop :=
  match e with
  | Tick | Frame _ _ => True
  | _ => False
  end.

(** The section index is one of the five sections. *)
Definition valid_index (i : Z) : Prop := (0 <= i <= 4)%Z.

(** What the per-frame animator does to the primitive at one reference. *)
Definition updateAt (elapsedTime : R) (r : objref) : object -> object :=
  match fst r with
  | Hero => updateHero elapsedTime (snd r)
  | About => updateAbout elapsedTime
  | Projects => updateProjects elapsedTime
  | Skills => updateSkills elapsedTime
  | Contact => updateContact elapsedTime
  end.

(** The pointer handlers leave everything but the hover state, the
    primitives and the click feedback alone. *)
Definition same_core (s s' : state) : Prop :=
  app_currentSection s' = app_currentSection s /\
  contentSections s' = contentSections s /\
  scrollTimeout s' = scrollTimeout s /\
  camera_position s' = camera_position s /\
  camera_lookingAt s' = camera_lookingAt s /\
  targetPosition s' = targetPosition s /\
  mousePosX s' = mousePosX s /\
  mousePosY s' = mousePosY s /\
  currentSection s' = currentSection s /\
  mouse_x s' = mouse_x s /\
  mouse_y s' = mouse_y s /\
  tweens s' = tweens s.

(** [object.material.emissiveIntensity] of the primitive at a reference:
    [None] when there is no such primitive, [Some None] when the value is
    [undefined]. *)
Definition emissiveAt (r : objref) (s : state) : option (option R) :=
  option_map (fun o => match mat o with
                       | Some m => emissiveIntensity m
                       | None => None
                       end) (obj_at r (objects s)).

(** The hide tween and the show tween issued by [updateActiveSection]. *)
Definition hideTween (now : Z) (r : objref) : tween :=
  mkTween (TScale r) vzero now 500 Power2In None.

Definition showTween (now : Z) (index : nat) (r : objref) : tween :=
  mkTween (TScale r) vone (now + 50 * Z.of_nat index)%Z 500 (BackOut 1.7) None.

(** The camera tweens issued by [moveToSection] for a pose. *)
Definition cameraTweens (now : Z) (p : cameraPose) : list tween :=
  [ mkTween TCameraPosition (pose_position p) (now + 0)%Z 1500 Power2InOut None;
    mkTween TTargetPosition (pose_lookAt p) (now + 0)%Z 1500 Power2InOut None ].

(** What a navigation to a valid section, other than the current one, does. *)
Definition navigated (now : Z) (i : Z) (c : section) (p : cameraPose) (s : state) : state :=
  mkState i
    (mapi (fun index _ => (Z.of_nat index =? i)%Z) (contentSections s) 0)
    (scrollTimeout s) (camera_position s) (camera_lookingAt s) (targetPosition s)
    (mousePosX s) (mousePosY s) (objects s) i (mouse_x s) (mouse_y s)
    (hoveredObject s) (cursor_pointer s) (ripples s) (pulses s)
    (((tweens s ++ cameraTweens now p) ++ map (hideTween now) (all_refs (objects s)))
       ++ mapi (showTween now) (refs_of c (objects s)) 0).

(** A ripple in flight: in the scene, callback scheduled, nothing disposed. *)
Definition ripple_live (rp : ripple) : Prop :=
  rp_scheduled rp = true /\ rp_inScene rp = true /\
  rp_geometryDisposed rp = false /\ rp_materialDisposed rp = false.

(** A ripple that is over: out of the scene, geometry and material
    disposed, no callback scheduled. *)
Definition ripple_released (rp : ripple) : Prop :=
  rp_scheduled rp = false /\ rp_inScene rp = false /\
  rp_geometryDisposed rp = true /\ rp_materialDisposed rp = true.

(** Geometries and materials allocated for ripples and not yet disposed. *)
Definition ripple_resources (s : state) : nat :=
  (length (filter (fun rp => negb (rp_geometryDisposed rp)) (ripples s)) +
   length (filter (fun rp => negb (rp_materialDisposed rp)) (ripples s)))%nat.

(** What one event does to a ripple that already exists. *)
Definition ripple_step (now : Z) (e : event) (rp : ripple) : ripple :=
  match e with
  | Frame _ _ => if rp_scheduled rp then animateRipple now rp else rp
  | _ => rp
  end.

(** Click events. *)
Definition is_click (e : event) : Prop :=
  match e with Click _ => True | _ => False end.

(** A tween that the tick at [now] completes and removes. *)
Definition done (now : Z) (w : tween) : bool :=
  negb (now <? tw_start w)%Z && (tw_end w <=? now)%Z.

(** A tween without its recorded start value. *)
Definition erase (w : tween) : tween :=
  mkTween (tw_target w) (tw_to w) (tw_start w) (tw_duration w) (tw_ease w) None.

(** The last tween of a list, in creation order, that drives target [p]. *)
Fixpoint last_on (p : target) (ws : list tween) : option tween :=
  match ws with
  | [] => None
  | w :: r =>
      match last_on p r with
      | Some u => Some u
      | None => if target_eq_dec (tw_target w) p then Some w else None
      end
  end.

(** Every tween of the list that drives [p] has a non-negative duration and
    ends by [bound]. *)
Definition ends_by (p : target) (bound : Z) (ws : list tween) : Prop :=
  Forall (fun u => tw_target u = p -> (0 <= tw_duration u /\ tw_end u <= bound)%Z) ws.

(** The target exists in the state. *)
Definition valid (p : target) (s : state) : Prop :=
  match p with
  | TScale r => obj_at r (objects s) <> None
  | _ => True
  end.

(** Target [p] is heading for value [v]: either no tween drives it and it
    has the value, or the tween created last for it ends at [v] and no
    other tween for it ends later. *)
Definition settling (p : target) (v : vec3) (s : state) : Prop :=
  match last_on p (tweens s) with
  | None => read p s = v
  | Some w => tw_to w = v /\ ends_by p (tw_end w) (tweens s)
  end.

(** Target [p] rests at [v]: it has the value and no tween drives it. *)
Definition settled (p : target) (v : vec3) (s : state) : Prop :=
  last_on p (tweens s) = None /\ read p s = v.

(** Nothing but the engine writes target [p]: for a scale, the primitive
    exists and carries no [delay] tag (the animator pulses the tagged ones);
    for the camera position, the pointer is at the centre, so the parallax
    nudge is zero. *)
Definition undisturbed (p : target) (s : state) : Prop :=
  match p with
  | TScale r => exists o, obj_at r (objects s) = Some o /\ delay (data o) = None
  | TCameraPosition => mousePosX s = 0 /\ mousePosY s = 0
  | TTargetPosition => True
  end.

(** Pointwise relation between two object tables of the same shape. *)
Definition objs_rel (P : object -> object -> Prop) (t t' : objectTable) : Prop :=
  forall r,
    match obj_at r t with
    | Some o => exists o', obj_at r t' = Some o' /\ P o o'
    | None => obj_at r t' = None
    end.

(** The [delay] tag is kept. *)
Definition tag_kept (o o' : object) : Prop :=
  delay (data o') = delay (data o).

(** The scale and the [delay] tag are kept. *)
Definition hover_rel (o o' : object) : Prop :=
  scale o' = scale o /\ delay (data o') = delay (data o).

(** The [delay] tag is kept, and so is the scale of an untagged primitive. *)
Definition anim_rel (o o' : object) : Prop :=
  delay (data o') = delay (data o) /\
  (delay (data o) = None -> scale o' = scale o).

(** The fields a tick never touches. *)
Definition tick_frame (s s' : state) : Prop :=
  app_currentSection s' = app_currentSection s /\
  contentSections s' = contentSections s /\
  currentSection s' = currentSection s /\
  mousePosX s' = mousePosX s /\
  mousePosY s' = mousePosY s /\
  hoveredObject s' = hoveredObject s.

(** Navigation requests, engine ticks and rendered frames. *)
Definition nav_or_frame (e : event) : Prop :=
  match e with
  | Navigate _ | Tick | Frame _ _ => True
  | _ => False
  end.

(** Entries 0 and 2 of [sectionPositions]. *)
Definition heroPose : cameraPose := mkPose (mkVec3 0 0 15) (mkVec3 0 0 0).
Definition projectsPose : cameraPose := mkPose (mkVec3 8 (-2) 12) (mkVec3 8 0 0).

(** An entry of the list [intersectObjects] returns: the index, in the
    candidate list, of the primitive hit ([.object]) and the point where
    the ray meets it ([.point]). *)
Record intersection : Type := mkIntersection { hit_object : nat; hit_point : vec3 }.

(** The nearest intersection of the ray with a list of candidates, if
    any: [intersects[0]]. *)
Definition raycast : Type := list object -> option intersection.

(** What the handlers read of the nearest intersection:
    [intersects[0].object] and nothing else. *)
Definition picked (cast : raycast) : raycaster :=
  fun l => option_map hit_object (cast l).

(** ** Notions used by the further properties *)

(** Everything in [userData] but the hover bookkeeping is kept. *)
Definition tags_kept (o o' : object) : Prop :=
  set_originalEmissiveIntensity None (data o') =
  set_originalEmissiveIntensity None (data o).

(** The coordinator's index is one of the five sections and the object
    manager's index agrees with it. *)
Definition in_sync (s : state) : Prop :=
  valid_index (app_currentSection s) /\ currentSection s = app_currentSection s.

(** Every navigation request of the run names one of the five sections. *)
Definition valid_requests (tr : list (Z * event)) : Prop :=
  Forall (fun te => match snd te with Navigate i => valid_index i | _ => True end) tr.

(** Content section [k] carries the [active] flag exactly when [k] is the
    coordinator's current index. *)
Definition markup_mirrors (s : state) : Prop :=
  forall k b, nth_error (contentSections s) k = Some b ->
              b = (Z.of_nat k =? app_currentSection s)%Z.

(** An event leaves the markup and the coordinator's index alone, or it is
    a navigation that rewrote both. *)
Definition markup_step (s s' : state) : Prop :=
  (app_currentSection s' = app_currentSection s /\
   contentSections s' = contentSections s) \/
  contentSections s' =
  mapi (fun index _ => (Z.of_nat index =? app_currentSection s')%Z) (contentSections s) 0.

(** Every event but the engine's own tick. *)
Definition not_tick (e : event) : Prop :=
  match e with Tick => False | _ => True end.

(** The page shows the pointer cursor exactly while a primitive is hovered. *)
Definition cursor_matches (s : state) : Prop :=
  cursor_pointer s = match hoveredObject s with Some _ => true | None => false end.

(** The hover state is untouched. *)
Definition hover_kept (s s' : state) : Prop :=
  cursor_pointer s' = cursor_pointer s /\ hoveredObject s' = hoveredObject s.

(** The height of a float-tagged primitive after the frames at scene times
    [Ts], in order, from the height [y]: each frame adds its increment to
    the height the frame before it left, as [updateAbout] does. *)
Definition floated (off : R) (Ts : list R) (y : R) : R :=
  fold_left (fun y T => y + sin (T * 2 + off) * 0.002) Ts y.

(** One parallax nudge of a camera coordinate [x] with the pointer
    coordinate [m], the expression of [CameraController.update]. *)
Definition nudge (m x : R) : R := x + (x + m * parallaxStrength - x) * 0.05.

(** The animator run once per scene time of [Ts], in order. *)
Definition updates (Ts : list R) (t : objectTable) : objectTable :=
  fold_left (fun t T => update T t) Ts t.

(** The scale written by the last of the pulses [ps] that targets [r]. *)
Fixpoint last_pulse (r : objref) (ps : list pulse) : option vec3 :=
  match ps with
  | [] => None
  | p :: rest =>
      match last_pulse r rest with
      | Some v => Some v
      | None => if objref_eq_dec (pl_object p) r then Some (pl_originalScale p) else None
      end
  end.

(** Events that neither click nor run the pulse timers. *)
Definition quiet (e : event) : Prop :=
  match e with Click _ | PulseTimeout => False | _ => True end.

(** Rendered frames only. *)
Definition frames_only (tr : list (Z * event)) : Prop :=
  Forall (fun te => match snd te with Frame _ _ => True | _ => False end) tr.

(** A burst: wheel events [(t, deltaY)], each followed by a run of the
    timer callbacks at an instant [tc]. *)
Definition burst (b : list (Z * R * Z)) : list (Z * event) :=
  flat_map (fun x => [(fst (fst x), Wheel (snd (fst x))); (snd x, ScrollTimeout)]) b.

(** The emissive intensity and the hover bookkeeping are kept. *)
Definition look_kept (o o' : object) : Prop :=
  mat o' = mat o /\
  originalEmissiveIntensity (data o') = originalEmissiveIntensity (data o).

(** Relative to the table [t0] of the primitives as built: a primitive
    built with emissive intensity [v] has intensity 1 and remembers [v]
    while it is the hovered one, and has intensity [v] otherwise. *)
Definition highlight_ok (t0 : objectTable) (s : state) : Prop :=
  forall r o0 v o,
    obj_at r t0 = Some o0 -> mat o0 = Some (mkMaterial (Some v)) ->
    obj_at r (objects s) = Some o ->
    (hoveredObject s = Some r ->
     mat o = Some (mkMaterial (Some 1)) /\ originalEmissiveIntensity (data o) = Some v) /\
    (hoveredObject s <> Some r -> mat o = Some (mkMaterial (Some v))).

(** * Properties *)

(** ** Vectors and lists *)

Lemma vec3_eq (a b : vec3) :
  vx a = vx b -> vy a = vy b -> vz a = vz b -> a = b.
Proof. destruct a, b; simpl; intros -> -> ->; reflexivity. Qed.

Lemma nth_error_mapi {A B : Type} (f : nat -> A -> B) (l : list A) :
  forall i n, nth_error (mapi f l i) n = option_map (f (i + n)%nat) (nth_error l n).
Proof.
  induction l as [|a l IH]; intros i n.
  - destruct n; reflexivity.
  - destruct n as [|n]; simpl.
    + now rewrite Nat.add_0_r.
    + rewrite IH. now replace (S i + n)%nat with (i + S n)%nat by lia.
Qed.

Lemma length_mapi {A B : Type} (f : nat -> A -> B) (l : list A) :
  forall i, length (mapi f l i) = length l.
Proof. induction l; intros; simpl; auto. Qed.

Lemma mapi_ext_in {A B : Type} (f g : nat -> A -> B) (l : list A) :
  forall i,
    (forall n a, nth_error l n = Some a -> f (i + n)%nat a = g (i + n)%nat a) ->
    mapi f l i = mapi g l i.
Proof.
  induction l as [|a l IH]; intros i H; simpl; [reflexivity|].
  f_equal.
  - specialize (H O a eq_refl). now rewrite Nat.add_0_r in H.
  - apply IH. intros n b Hn. specialize (H (S n) b Hn).
    now replace (i + S n)%nat with (S i + n)%nat in H by lia.
Qed.

Lemma mapi_mapi {A B C : Type} (g : nat -> B -> C) (f : nat -> A -> B) (l : list A) :
  forall i, mapi g (mapi f l i) i = mapi (fun n a => g n (f n a)) l i.
Proof. induction l; intros; simpl; [reflexivity|]. now rewrite IHl. Qed.

Lemma nth_error_update_nth {A : Type} (f : A -> A) (l : list A) :
  forall n m,
    nth_error (update_nth n f l) m =
    if Nat.eq_dec n m then option_map f (nth_error l m) else nth_error l m.
Proof.
  induction l as [|a l IH]; intros n m.
  - destruct (Nat.eq_dec n m); destruct n, m; reflexivity.
  - destruct n as [|n], m as [|m]; simpl.
    + reflexivity.
    + reflexivity.
    + reflexivity.
    + rewrite IH. destruct (Nat.eq_dec n m), (Nat.eq_dec (S n) (S m));
        try reflexivity; lia.
Qed.

Lemma length_update_nth {A : Type} (f : A -> A) (l : list A) :
  forall n, length (update_nth n f l) = length l.
Proof. induction l; destruct n; simpl; auto. Qed.

(** ** The object table *)

Lemma get_set_section c c' l t :
  get_section c' (set_section c l t) = if section_eq_dec c c' then l else get_section c' t.
Proof. destruct c, c'; reflexivity. Qed.

Lemma obj_at_upd_obj r r' f t :
  obj_at r' (upd_obj r f t) =
  if objref_eq_dec r r' then option_map f (obj_at r' t) else obj_at r' t.
Proof.
  destruct r as [c n], r' as [c' n']. unfold obj_at, upd_obj; simpl.
  rewrite get_set_section.
  destruct (objref_eq_dec (c, n) (c', n')) as [E|E].
  - inversion E; subst. destruct (section_eq_dec c' c') as [?|F]; [|contradiction].
    rewrite nth_error_update_nth.
    destruct (Nat.eq_dec n' n') as [?|F]; [reflexivity|contradiction].
  - destruct (section_eq_dec c c') as [->|Hc]; [|reflexivity].
    rewrite nth_error_update_nth.
    destruct (Nat.eq_dec n n') as [->|Hn]; [|reflexivity].
    exfalso; apply E; reflexivity.
Qed.

Lemma length_upd_obj r f t c :
  length (get_section c (upd_obj r f t)) = length (get_section c t).
Proof.
  unfold upd_obj. rewrite get_set_section.
  destruct section_eq_dec as [<-|]; [apply length_update_nth|reflexivity].
Qed.

(** ** The per-frame animator, primitive by primitive *)

(** Case analysis on the rule [updateAt] applies: the section of the
    reference, then the test each rule makes on the primitive. *)
Ltac by_update_rule r o :=
  destruct r as [?c ?n]; unfold updateAt; cbn [fst snd];
  match goal with
  | c : section |- _ =>
      destruct c;
      [ unfold updateHero;
        repeat match goal with
               | |- context [if ?b then _ else _] => destruct b
               end
      | unfold updateAbout; destruct (floatOffset (data o))
      | unfold updateProjects; destruct (hoverY (data o))
      | unfold updateSkills; destruct (orbit (data o))
      | unfold updateContact; destruct (delay (data o)) eqn:?Hdelay ]
  end.

Section Animator.

Variable elapsedTime : R.

Lemma obj_at_update r t :
  obj_at r (update elapsedTime t) = option_map (updateAt elapsedTime r) (obj_at r t).
Proof.
  destruct r as [c n]. unfold obj_at, updateAt; simpl.
  destruct c; simpl; try apply nth_error_map.
  rewrite nth_error_mapi. reflexivity.
Qed.

Lemma length_update t c :
  length (get_section c (update elapsedTime t)) = length (get_section c t).
Proof. destruct c; simpl; try apply length_map. apply length_mapi. Qed.

Lemma updateAt_data r o : data (updateAt elapsedTime r o) = data o.
Proof. by_update_rule r o; reflexivity. Qed.

Lemma updateAt_mat r o : mat (updateAt elapsedTime r o) = mat o.
Proof. by_update_rule r o; reflexivity. Qed.

(** The animator writes a scale only on a primitive that carries a
    [delay] tag. *)
Lemma updateAt_scale r o :
  delay (data o) = None -> scale (updateAt elapsedTime r o) = scale o.
Proof. intros Hd. by_update_rule r o; try reflexivity. congruence. Qed.

Lemma updateHero_idem n o :
  updateHero elapsedTime n (updateHero elapsedTime n o) = updateHero elapsedTime n o.
Proof.
  unfold updateHero. destruct (n =? 0)%nat; [destruct o; reflexivity|].
  destruct (n <=? 8)%nat; destruct o; reflexivity.
Qed.

Lemma updateSkills_idem o :
  updateSkills elapsedTime (updateSkills elapsedTime o) = updateSkills elapsedTime o.
Proof.
  unfold updateSkills. destruct o as [p r sc m d]; simpl.
  destruct (orbit d) eqn:E; simpl; rewrite E; reflexivity.
Qed.

End Animator.

(** ** Per-frame animator: orbiting primitives *)

(** The orbiters of the constructed scene carry the fields the animator
    reads. *)
Lemma hero_spheres_tagged n o :
  nth_error createHeroSection n = Some o -> (1 <= n <= 8)%nat ->
  angle (data o) = Some (INR (n - 1) / 8 * PI * 2) /\ radius (data o) = Some 5.
Proof.
  intros H Hn. unfold createHeroSection in H.
  destruct n as [|n]; [lia|]. cbn [app nth_error] in H.
  rewrite nth_error_app1 in H by (rewrite length_map, length_seq; lia).
  rewrite nth_error_map in H.
  rewrite (nth_error_nth' _ O) in H by (rewrite length_seq; lia).
  rewrite seq_nth in H by lia. simpl in H. inversion H; subst; simpl.
  rewrite Nat.sub_0_r. split; reflexivity.
Qed.

Lemma skills_orbs_tagged n o :
  nth_error createSkillsSection n = Some o -> orbit (data o) <> None ->
  exists a r v, angle (data o) = Some a /\ radius (data o) = Some r /\
                speed (data o) = Some v.
Proof.
  intros H Ho. apply nth_error_In in H. unfold createSkillsSection in H.
  apply in_app_or in H. destruct H as [H|[<-|[]]].
  - apply in_flat_map in H. destruct H as (k & _ & H).
    apply in_map_iff in H. destruct H as (i & <- & _).
    do 3 eexists. repeat split; reflexivity.
  - simpl in Ho. contradiction.
Qed.

(** C7 — For every orbit-tagged primitive (the Hero spheres at indices 1..8
    and the Skills orbs) and every elapsed time [T], the position written by
    the per-frame update depends on [T] and the stored phase only: running
    the update twice with the same [T] gives the same primitives as running
    it once, the position is
    [(cos(angle + T*speed)*radius, f(T), sin(angle + T*speed)*radius)]
    (speed 0.5 and [f(T) = sin(T*0.5 + index)*0.5] for the Hero spheres; the
    stored speed and the untouched height for the Skills orbs), and the
    stored phase is not modified. *)
Theorem orbit_position_pure (t : objectTable) (T : R) :
  hero (update T (update T t)) = hero (update T t) /\
  skills (update T (update T t)) = skills (update T t) /\
  (forall n o,
      nth_error (hero t) n = Some o -> (1 <= n <= 8)%nat ->
      exists o',
        nth_error (hero (update T t)) n = Some o' /\
        data o' = data o /\
        position o' =
        mkVec3 (cos (num (angle (data o)) + T * 0.5) * num (radius (data o)))
               (sin (T * 0.5 + INR n) * 0.5)
               (sin (num (angle (data o)) + T * 0.5) * num (radius (data o)))) /\
  (forall n o,
      nth_error (skills t) n = Some o -> orbit (data o) <> None ->
      exists o',
        nth_error (skills (update T t)) n = Some o' /\
        data o' = data o /\
        position o' =
        mkVec3 (cos (num (angle (data o)) + T * num (speed (data o)))
                  * num (radius (data o)))
               (vy (position o))
               (sin (num (angle (data o)) + T * num (speed (data o)))
                  * num (radius (data o)))).
Proof.
  repeat split.
  - simpl. rewrite mapi_mapi. apply mapi_ext_in. intros; apply updateHero_idem.
  - simpl. rewrite map_map. apply map_ext. intros; apply updateSkills_idem.
  - intros n o H Hn. simpl. rewrite nth_error_mapi, H. simpl.
    exists (updateHero T n o). split; [reflexivity|].
    unfold updateHero.
    destruct (n =? 0)%nat eqn:E0; [apply Nat.eqb_eq in E0; lia|].
    destruct (n <=? 8)%nat eqn:E8; [|apply Nat.leb_gt in E8; lia].
    split; reflexivity.
  - intros n o H Ho. simpl. rewrite nth_error_map, H. simpl.
    exists (updateSkills T o). split; [reflexivity|].
    unfold updateSkills. destruct (orbit (data o)); [|contradiction].
    split; reflexivity.
Qed.

Lemma orbit_position_pure_witness :
  exists o',
    nth_error (hero (update 2 createAllSections)) 1 = Some o' /\
    position o' =
    mkVec3 (cos (INR 0 / 8 * PI * 2 + 2 * 0.5) * 5)
           (sin (2 * 0.5 + INR 1) * 0.5)
           (sin (INR 0 / 8 * PI * 2 + 2 * 0.5) * 5).
Proof.
  destruct (orbit_position_pure createAllSections 2) as (_ & _ & H & _).
  destruct (H 1%nat _ eq_refl) as (o' & H1 & _ & H3); [lia|].
  exists o'. split; [exact H1|exact H3].
Defined.

(** ** Pointer coordinates *)

Lemma unit_fraction (x w : R) : 0 < w -> 0 <= x <= w -> 0 <= x / w <= 1.
Proof.
  intros Hw [H0 H1]. assert (Hi : 0 < / w) by now apply Rinv_0_lt_compat.
  unfold Rdiv. split.
  - apply Rmult_le_pos; lra.
  - replace 1 with (w * / w) by (apply Rinv_r; lra).
    apply Rmult_le_compat_r; lra.
Qed.

Lemma normalizeX_range w x :
  0 < innerWidth w -> 0 <= x <= innerWidth w -> -1 <= normalizeX w x <= 1.
Proof.
  intros Hw Hx. unfold normalizeX.
  pose proof (unit_fraction x (innerWidth w) Hw Hx). lra.
Qed.

Lemma normalizeY_range w y :
  0 < innerHeight w -> 0 <= y <= innerHeight w -> -1 <= normalizeY w y <= 1.
Proof.
  intros Hw Hy. unfold normalizeY.
  pose proof (unit_fraction y (innerHeight w) Hw Hy). lra.
Qed.

Lemma same_core_refl s : same_core s s.
Proof. repeat split. Qed.

Lemma same_core_trans s1 s2 s3 : same_core s1 s2 -> same_core s2 s3 -> same_core s1 s3.
Proof.
  unfold same_core. intros H1 H2.
  destruct H1 as (?&?&?&?&?&?&?&?&?&?&?&?), H2 as (?&?&?&?&?&?&?&?&?&?&?&?).
  repeat split; congruence.
Qed.

Lemma clearHover_core s : same_core s (clearHover s).
Proof. unfold clearHover. destruct (hoveredObject s); repeat split. Qed.

Lemma enterHover_core r s : same_core s (enterHover r s).
Proof.
  apply same_core_trans with (clearHover s); [apply clearHover_core|].
  unfold enterHover. repeat split.
Qed.

Lemma handleObjectHover_core r s : same_core s (handleObjectHover r s).
Proof.
  unfold handleObjectHover. destruct (hoveredObject s) as [h|].
  - destruct (objref_eq_dec h r); [apply same_core_refl|apply enterHover_core].
  - apply enterHover_core.
Qed.

Lemma handleObjectClick_core now r s : same_core s (handleObjectClick now r s).
Proof.
  unfold handleObjectClick. destruct (obj_at r (objects s)); repeat split.
Qed.

Lemma checkIntersections_core rc b now s :
  same_core s (state_of (checkIntersections rc b now s)).
Proof.
  unfold checkIntersections.
  destruct (js_index sectionNames (currentSection s)) as [c|]; [|apply same_core_refl].
  destruct (rc (get_section c (objects s))) as [n|]; [|apply clearHover_core].
  destruct (n <? length (get_section c (objects s)))%nat; [|apply clearHover_core].
  destruct b; simpl; [apply handleObjectClick_core|apply handleObjectHover_core].
Qed.

(** C4 (amended) — A pointer-move event whose client coordinates lie
    inside a viewport with positive sides ([0 <= clientX <= innerWidth],
    [0 <= clientY <= innerHeight]) stores normalized coordinates within
    [-1,1] on both axes, in the interaction manager ([mouse.x], [mouse.y])
    and in the camera controller ([mousePosX], [mousePosY]).  A touch-start
    event whose first touch lies inside the viewport stores normalized
    coordinates within [-1,1] in the interaction manager only: the touch
    handler does not write the camera controller's coordinates, which keep
    whatever values they had.  The handlers normalize; they do not clamp. *)
Theorem pointer_normalized_inside_viewport
    (w : viewport) (x y : R) (now : Z) (s : state) :
  0 < innerWidth w -> 0 < innerHeight w ->
  0 <= x <= innerWidth w -> 0 <= y <= innerHeight w ->
  (let s' := state_of (step now (MouseMove w x y) s) in
   -1 <= mouse_x s' <= 1 /\ -1 <= mouse_y s' <= 1 /\
   -1 <= mousePosX s' <= 1 /\ -1 <= mousePosY s' <= 1) /\
  (forall rc rest,
      let s' := state_of (step now (TouchStart w rc ((x, y) :: rest)) s) in
      -1 <= mouse_x s' <= 1 /\ -1 <= mouse_y s' <= 1 /\
      mousePosX s' = mousePosX s /\ mousePosY s' = mousePosY s).
Proof.
  intros Hw Hh Hx Hy.
  pose proof (normalizeX_range w x Hw Hx) as HX.
  pose proof (normalizeY_range w y Hh Hy) as HY.
  split.
  - simpl. auto.
  - intros rc rest. simpl.
    destruct (checkIntersections_core rc false now
                (set_mouse (normalizeX w x) (normalizeY w y) s))
      as (_&_&_&_&_&_&HPx&HPy&_&Hmx&Hmy&_).
    rewrite Hmx, Hmy, HPx, HPy. simpl. auto.
Qed.

Lemma pointer_normalized_inside_viewport_witness :
  (let s' := state_of (step 0 (MouseMove (mkViewport 800 600) 200 450) initial_state) in
   -1 <= mouse_x s' <= 1 /\ -1 <= mouse_y s' <= 1 /\
   -1 <= mousePosX s' <= 1 /\ -1 <= mousePosY s' <= 1) /\
  (let s' := state_of (step 0 (TouchStart (mkViewport 800 600) (fun _ => None)
                                 [(200, 450)]) initial_state) in
   -1 <= mouse_x s' <= 1 /\ -1 <= mouse_y s' <= 1 /\
   mousePosX s' = mousePosX initial_state /\ mousePosY s' = mousePosY initial_state).
Proof.
  destruct (pointer_normalized_inside_viewport (mkViewport 800 600) 200 450 0 initial_state)
    as [H1 H2]; try (simpl; lra).
  split; [exact H1|exact (H2 (fun _ => None) [])].
Defined.

(** C4 as stated fails: a pointer-move event to the right of a 100-pixel
    wide viewport stores the horizontal coordinate 5. *)
Lemma pointer_not_clamped :
  let s' := state_of (step 0 (MouseMove (mkViewport 100 100) 300 50) initial_state) in
  mouse_x s' = 5 /\ mousePosX s' = 5 /\ ~ (-1 <= mouse_x s' <= 1).
Proof.
  simpl. unfold normalizeX; simpl.
  assert (E : 300 / 100 * 2 - 1 = 5) by lra.
  rewrite E. repeat split. lra.
Qed.

(** ** Hover *)

Lemma or_zero_some v : or_zero (Some v) = v.
Proof. unfold or_zero. destruct (Req_dec_T v 0); congruence. Qed.

Lemma clearHover_hovered s : hoveredObject (clearHover s) = None.
Proof. unfold clearHover. destruct (hoveredObject s) eqn:E; [reflexivity|exact E]. Qed.

Lemma clearHover_other r s :
  hoveredObject s <> Some r -> obj_at r (objects (clearHover s)) = obj_at r (objects s).
Proof.
  intros H. unfold clearHover. destruct (hoveredObject s) as [h|]; [|reflexivity].
  simpl. rewrite obj_at_upd_obj.
  destruct (objref_eq_dec h r); [subst; contradiction|reflexivity].
Qed.

Lemma enterHover_target r s o v :
  hoveredObject s <> Some r ->
  obj_at r (objects s) = Some o ->
  mat o = Some (mkMaterial (Some v)) ->
  exists o',
    obj_at r (objects (enterHover r s)) = Some o' /\
    mat o' = Some (mkMaterial (Some 1)) /\
    originalEmissiveIntensity (data o') = Some v.
Proof.
  intros Hh Ho Hm. unfold enterHover. simpl.
  rewrite obj_at_upd_obj.
  destruct (objref_eq_dec r r) as [_|F]; [|contradiction].
  rewrite (clearHover_other r s Hh), Ho. simpl. rewrite Hm. simpl.
  eexists. split; [reflexivity|]. simpl. split; [reflexivity|].
  now rewrite or_zero_some.
Qed.

Lemma clearHover_restores r s o v :
  hoveredObject s = Some r ->
  obj_at r (objects s) = Some o ->
  mat o <> None ->
  originalEmissiveIntensity (data o) = Some v ->
  emissiveAt r (clearHover s) = Some (Some v).
Proof.
  intros Hh Ho Hm Hv. unfold clearHover, emissiveAt. rewrite Hh. simpl.
  rewrite obj_at_upd_obj. destruct (objref_eq_dec r r) as [_|F]; [|contradiction].
  rewrite Ho. simpl. destruct (mat o); [|contradiction]. rewrite Hv. reflexivity.
Qed.

Lemma enterHover_keeps_other r r' s :
  r <> r' ->
  emissiveAt r (enterHover r' s) = emissiveAt r (clearHover s).
Proof.
  intros Hne. unfold enterHover, emissiveAt. simpl.
  rewrite obj_at_upd_obj.
  destruct (objref_eq_dec r' r); [subst; contradiction|reflexivity].
Qed.

(** C5 (amended) — For every primitive of the current section whose
    material defines an emissive intensity [v], hovering it (when it is not
    already the hovered primitive) sets the intensity to the highlight value
    1, and the next resolve that does not hit it — no hit at all, or a hit
    on a different primitive — restores exactly [v]. *)
Theorem hover_roundtrip
    (s : state) (c : section) (n : nat) (o : object) (v : R)
    (rc1 rc2 : raycaster) (now1 now2 : Z) :
  js_index sectionNames (currentSection s) = Some c ->
  nth_error (get_section c (objects s)) n = Some o ->
  mat o = Some (mkMaterial (Some v)) ->
  hoveredObject s <> Some (c, n) ->
  rc1 (get_section c (objects s)) = Some n ->
  let s1 := state_of (checkIntersections rc1 false now1 s) in
  rc2 (get_section c (objects s1)) <> Some n ->
  let s2 := state_of (checkIntersections rc2 false now2 s1) in
  emissiveAt (c, n) s = Some (Some v) /\
  hoveredObject s1 = Some (c, n) /\
  emissiveAt (c, n) s1 = Some (Some 1) /\
  emissiveAt (c, n) s2 = Some (Some v).
Proof.
  intros Hc Ho Hm Hh Hrc1 s1 Hrc2 s2.
  assert (Hlen : (n <? length (get_section c (objects s)))%nat = true).
  { apply Nat.ltb_lt. apply nth_error_Some. congruence. }
  assert (Hs1 : s1 = enterHover (c, n) s).
  { unfold s1, checkIntersections. rewrite Hc, Hrc1, Hlen. simpl.
    unfold handleObjectHover. destruct (hoveredObject s) as [h|]; [|reflexivity].
    destruct (objref_eq_dec h (c, n)); [subst; contradiction|reflexivity]. }
  destruct (enterHover_target (c, n) s o v Hh Ho Hm) as (o1 & Ho1 & Hm1 & Hv1).
  rewrite <- Hs1 in Ho1.
  assert (Hh1 : hoveredObject s1 = Some (c, n)) by (rewrite Hs1; reflexivity).
  assert (Hc1 : js_index sectionNames (currentSection s1) = Some c).
  { destruct (checkIntersections_core rc1 false now1 s) as (_&_&_&_&_&_&_&_&E&_).
    fold s1 in E. now rewrite E. }
  assert (Hrest : emissiveAt (c, n) (clearHover s1) = Some (Some v)).
  { apply (clearHover_restores (c, n) s1 o1 v Hh1 Ho1); [now rewrite Hm1|exact Hv1]. }
  repeat split.
  - unfold emissiveAt, obj_at. simpl. rewrite Ho. simpl. now rewrite Hm.
  - exact Hh1.
  - unfold emissiveAt. rewrite Ho1. simpl. now rewrite Hm1.
  - unfold s2, checkIntersections. rewrite Hc1.
    destruct (rc2 (get_section c (objects s1))) as [n'|]; [|exact Hrest].
    destruct (n' <? length (get_section c (objects s1)))%nat; [|exact Hrest].
    simpl. unfold handleObjectHover. rewrite Hh1.
    assert (Hne : (c, n) <> (c, n')) by (intros E; inversion E; subst; now apply Hrc2).
    destruct (objref_eq_dec (c, n) (c, n')); [contradiction|].
    now rewrite enterHover_keeps_other.
Qed.

Lemma hero_torus :
  nth_error (get_section Hero (objects initial_state)) 0 =
  Some (set_position (mkVec3 0 0 0) (newObject (standardMaterial 0.3))).
Proof. reflexivity. Qed.

Lemma hero_pyramid :
  nth_error (get_section Hero (objects initial_state)) 9 =
  Some (set_position (mkVec3 0 0 (-5)) (newObject basicMaterial)).
Proof. reflexivity. Qed.

Lemma hover_roundtrip_witness :
  let s1 := state_of (checkIntersections (fun _ => Some 0%nat) false 0 initial_state) in
  let s2 := state_of (checkIntersections (fun _ => None) false 16 s1) in
  emissiveAt (Hero, 0%nat) initial_state = Some (Some 0.3) /\
  hoveredObject s1 = Some (Hero, 0%nat) /\
  emissiveAt (Hero, 0%nat) s1 = Some (Some 1) /\
  emissiveAt (Hero, 0%nat) s2 = Some (Some 0.3).
Proof.
  apply (hover_roundtrip initial_state Hero 0 _ 0.3
           (fun _ => Some 0%nat) (fun _ => None) 0 16 eq_refl hero_torus eq_refl).
  - simpl. discriminate.
  - reflexivity.
  - discriminate.
Defined.

(** C5 as stated fails on a primitive whose material has no emissive
    intensity: the wireframe pyramid of the Hero section starts with the
    value [undefined]; hovering leaves it so, and un-hovering writes 0. *)
Lemma pyramid_hover_not_restored :
  let s1 := state_of (checkIntersections (fun _ => Some 9%nat) false 0 initial_state) in
  let s2 := state_of (checkIntersections (fun _ => None) false 16 s1) in
  emissiveAt (Hero, 9%nat) initial_state = Some None /\
  emissiveAt (Hero, 9%nat) s1 = Some None /\
  emissiveAt (Hero, 9%nat) s2 = Some (Some 0) /\
  emissiveAt (Hero, 9%nat) s2 <> emissiveAt (Hero, 9%nat) initial_state.
Proof.
  assert (E0 : emissiveAt (Hero, 9%nat) initial_state = Some None).
  { unfold emissiveAt, obj_at. simpl fst; simpl snd. now rewrite hero_pyramid. }
  assert (Hs1 : state_of (checkIntersections (fun _ => Some 9%nat) false 0 initial_state)
                = enterHover (Hero, 9%nat) initial_state) by reflexivity.
  cbv zeta. rewrite Hs1.
  assert (O1 : obj_at (Hero, 9%nat) (objects (enterHover (Hero, 9%nat) initial_state)) =
               Some (set_data (set_originalEmissiveIntensity (Some 0) noData)
                      (set_position (mkVec3 0 0 (-5)) (newObject basicMaterial)))).
  { reflexivity. }
  assert (E1 : emissiveAt (Hero, 9%nat) (enterHover (Hero, 9%nat) initial_state) = Some None).
  { unfold emissiveAt. rewrite O1. reflexivity. }
  assert (E2 : emissiveAt (Hero, 9%nat)
                 (state_of (checkIntersections (fun _ => None) false 16
                              (enterHover (Hero, 9%nat) initial_state))) = Some (Some 0)).
  { change (emissiveAt (Hero, 9%nat) (clearHover (enterHover (Hero, 9%nat) initial_state))
            = Some (Some 0)).
    eapply clearHover_restores; [reflexivity|exact O1|discriminate|reflexivity]. }
  rewrite E0, E1, E2. repeat split. discriminate.
Qed.

(** ** Navigation *)

Lemma valid_index_cases i :
  valid_index i -> i = 0%Z \/ i = 1%Z \/ i = 2%Z \/ i = 3%Z \/ i = 4%Z.
Proof. unfold valid_index. lia. Qed.

Lemma sectionNames_valid i :
  valid_index i -> exists c, js_index sectionNames i = Some c.
Proof.
  intros H. destruct (valid_index_cases i H) as [->|[->|[->|[->| ->]]]];
    eexists; reflexivity.
Qed.

Lemma sectionPositions_valid i :
  valid_index i -> exists p, js_index sectionPositions i = Some p.
Proof.
  intros H. destruct (valid_index_cases i H) as [->|[->|[->|[->| ->]]]];
    eexists; reflexivity.
Qed.

Example sectionNames_2 : js_index sectionNames 2 = Some Projects.
Proof. reflexivity. Qed.

Example sectionNames_7 : js_index sectionNames 7 = None.
Proof. reflexivity. Qed.

Example sectionNames_minus_1 : js_index sectionNames (-1) = None.
Proof. reflexivity. Qed.

Lemma js_index_out_of_range {A : Type} (l : list A) i :
  (i < 0 \/ Z.of_nat (length l) <= i)%Z -> js_index l i = None.
Proof.
  intros H. unfold js_index. destruct (i <? 0)%Z eqn:E; [reflexivity|].
  apply Z.ltb_ge in E. apply nth_error_None. lia.
Qed.

Lemma js_index_in_range {A : Type} (l : list A) i a :
  js_index l i = Some a -> (0 <= i < Z.of_nat (length l))%Z.
Proof.
  unfold js_index. destruct (i <? 0)%Z eqn:E; [discriminate|].
  apply Z.ltb_ge in E. intros H.
  assert (Z.to_nat i < length l)%nat by (apply nth_error_Some; congruence). lia.
Qed.

Lemma navigateToSection_valid now i c p s :
  js_index sectionNames i = Some c ->
  js_index sectionPositions i = Some p ->
  i <> app_currentSection s ->
  navigateToSection now i s = Ok (navigated now i c p s).
Proof.
  intros Hc Hp Hne. unfold navigateToSection.
  destruct (i =? app_currentSection s)%Z eqn:E; [apply Z.eqb_eq in E; contradiction|].
  unfold moveToSection. cbn [contentSections set_app_currentSection set_contentSections].
  rewrite Hp. unfold updateActiveSection. rewrite Hc.
  unfold gsap_to, navigated, cameraTweens, hideTween, showTween. simpl.
  rewrite <- !app_assoc. reflexivity.
Qed.

Lemma navigateToSection_same now s :
  navigateToSection now (app_currentSection s) s = Ok s.
Proof. unfold navigateToSection. now rewrite Z.eqb_refl. Qed.

(** C6 — For every valid section index [i] in 0..4 and every state, a
    navigation to [i] returns, and a second navigation to [i] right after it
    is a no-op: it returns without raising and leaves the whole state
    (current index, markup flags, camera targets, tweens) as the first call
    left it. *)
Theorem navigate_twice_is_noop (s : state) (i : Z) (now now' : Z) :
  valid_index i ->
  exists s1,
    navigateToSection now i s = Ok s1 /\
    app_currentSection s1 = i /\
    navigateToSection now' i s1 = Ok s1.
Proof.
  intros Hv.
  destruct (Z.eq_dec i (app_currentSection s)) as [->|Hne].
  - exists s. rewrite !navigateToSection_same. auto.
  - destruct (sectionNames_valid i Hv) as (c & Hc).
    destruct (sectionPositions_valid i Hv) as (p & Hp).
    exists (navigated now i c p s).
    rewrite (navigateToSection_valid now i c p s Hc Hp Hne).
    repeat split.
    change i with (app_currentSection (navigated now i c p s)) at 1.
    apply navigateToSection_same.
Qed.

Lemma navigate_twice_is_noop_witness :
  exists s1,
    navigateToSection 0 2 initial_state = Ok s1 /\
    app_currentSection s1 = 2%Z /\
    navigateToSection 40 2 s1 = Ok s1.
Proof.
  apply (navigate_twice_is_noop initial_state 2 0 40). unfold valid_index. lia.
Defined.

(** A navigation to an index outside 0..4, different from the current one:
    the current index and the markup flags are overwritten, the camera is
    left alone, [updateActiveSection] records the index, issues the hide
    tweens for every primitive and then raises. *)
Lemma navigateToSection_out_of_range now i s :
  ~ valid_index i ->
  i <> app_currentSection s ->
  navigateToSection now i s =
  Thrown
    (mkState i
       (mapi (fun index _ => (Z.of_nat index =? i)%Z) (contentSections s) 0)
       (scrollTimeout s) (camera_position s) (camera_lookingAt s) (targetPosition s)
       (mousePosX s) (mousePosY s) (objects s) i (mouse_x s) (mouse_y s)
       (hoveredObject s) (cursor_pointer s) (ripples s) (pulses s)
       (tweens s ++ map (hideTween now) (all_refs (objects s)))).
Proof.
  intros Hv Hne. unfold navigateToSection.
  destruct (i =? app_currentSection s)%Z eqn:E; [apply Z.eqb_eq in E; contradiction|].
  assert (Hr : (i < 0 \/ 5 <= i)%Z) by (unfold valid_index in Hv; lia).
  unfold moveToSection. rewrite (js_index_out_of_range sectionPositions i Hr).
  unfold updateActiveSection. rewrite (js_index_out_of_range sectionNames i Hr).
  reflexivity.
Qed.

Lemma length_refs_of c t : length (refs_of c t) = length (get_section c t).
Proof. unfold refs_of. now rewrite length_map, length_seq. Qed.

Lemma length_all_refs_initial : length (all_refs createAllSections) = 49%nat.
Proof. reflexivity. Qed.

(** C1 — the code at the failing input.  On the freshly initialised page a
    navigation request to index 7 is not a no-op: the handler raises, and
    when it does the current index is 7, no markup flag is set, 49 hide
    tweens are queued, one per primitive; only the camera is untouched.
    From then on every rendered frame raises as well, in the ray cast on the
    missing section list. *)
Theorem navigate_out_of_range_not_ignored :
  let r := navigateToSection 0 7 initial_state in
  threw r = true /\
  app_currentSection (state_of r) = 7%Z /\
  currentSection (state_of r) = 7%Z /\
  contentSections (state_of r) = [false; false; false; false; false] /\
  camera_position (state_of r) = camera_position initial_state /\
  targetPosition (state_of r) = targetPosition initial_state /\
  tweens (state_of r) = map (hideTween 0) (all_refs createAllSections) /\
  length (tweens (state_of r)) = 49%nat /\
  (forall now e rc, threw (step now (Frame e rc) (state_of r)) = true).
Proof.
  assert (Hv : ~ valid_index 7) by (unfold valid_index; lia).
  assert (Hne : 7%Z <> app_currentSection initial_state) by discriminate.
  cbv zeta. rewrite (navigateToSection_out_of_range 0 7 initial_state Hv Hne).
  cbn [threw state_of app_currentSection currentSection contentSections
       camera_position targetPosition tweens].
  repeat split.
Qed.

(** ** Debounced wheel navigation *)

Lemma Rltb_true a b : a < b -> Rltb a b = true.
Proof. intros H. unfold Rltb. destruct (Rlt_dec a b); [reflexivity|contradiction]. Qed.

Lemma Rltb_false a b : ~ a < b -> Rltb a b = false.
Proof. intros H. unfold Rltb. destruct (Rlt_dec a b); [contradiction|reflexivity]. Qed.

Lemma run_app tr1 tr2 s : run (tr1 ++ tr2) s = run tr2 (run tr1 s).
Proof.
  revert s. induction tr1 as [|[now e] tr1 IH]; intros s; simpl; [reflexivity|apply IH].
Qed.

Lemma run_cons now e tr s : run ((now, e) :: tr) s = run tr (state_of (step now e s)).
Proof. reflexivity. Qed.

Lemma run_navigate now i c p0 tr s :
  js_index sectionNames i = Some c ->
  js_index sectionPositions i = Some p0 ->
  i <> app_currentSection s ->
  run ((now, Navigate i) :: tr) s = run tr (navigated now i c p0 s).
Proof.
  intros Hc Hp Hne. rewrite run_cons. unfold step.
  now rewrite (navigateToSection_valid now i c p0 s Hc Hp Hne).
Qed.

Lemma run_tick now tr s : run ((now, Tick) :: tr) s = run tr (gsap_tick now s).
Proof. reflexivity. Qed.

Lemma runScrollTimeout_due now due d s :
  scrollTimeout s = Some (due, d) -> (due <= now)%Z ->
  runScrollTimeout now s = wheelStep now d (set_scrollTimeout None s).
Proof.
  intros H Hd. unfold runScrollTimeout. rewrite H.
  destruct (due <=? now)%Z eqn:E; [reflexivity|apply Z.leb_gt in E; lia].
Qed.

Lemma runScrollTimeout_early now due d s :
  scrollTimeout s = Some (due, d) -> (now < due)%Z -> runScrollTimeout now s = Ok s.
Proof.
  intros H Hd. unfold runScrollTimeout. rewrite H.
  destruct (due <=? now)%Z eqn:E; [apply Z.leb_le in E; lia|reflexivity].
Qed.

Lemma runScrollTimeout_none now s :
  scrollTimeout s = None -> runScrollTimeout now s = Ok s.
Proof. intros H. unfold runScrollTimeout. now rewrite H. Qed.

(** C8 (amended) — When two wheel events arrive within the 100 ms debounce
    window, the first event's timer is cancelled and never runs; the second
    event's timer runs once, when it is due, and performs at most one
    navigation step: one section forward when its [deltaY] is positive and
    the current section is below 4, one section back when its [deltaY] is
    negative and the current section is above 0, and no navigation at all
    otherwise (at a bound, or [deltaY = 0]).  Never two steps. *)
Theorem wheel_debounce
    (s : state) (d1 d2 : R) (t1 ta t2 tb T T' : Z) :
  valid_index (app_currentSection s) ->
  (t1 <= ta <= t2)%Z -> (t2 < t1 + 100)%Z ->
  (t2 <= tb < t2 + 100)%Z -> (t2 + 100 <= T <= T')%Z ->
  let cur := app_currentSection s in
  let before := [(t1, Wheel d1); (ta, ScrollTimeout); (t2, Wheel d2); (tb, ScrollTimeout)] in
  let tr := before ++ [(T, ScrollTimeout); (T', ScrollTimeout)] in
  run before s = set_scrollTimeout (Some ((t2 + 100)%Z, d2)) s /\
  run tr s = state_of (wheelStep T d2 (set_scrollTimeout None s)) /\
  uncaught tr s = O /\
  (0 < d2 -> (cur < 4)%Z -> app_currentSection (run tr s) = (cur + 1)%Z) /\
  (d2 < 0 -> (0 < cur)%Z -> app_currentSection (run tr s) = (cur - 1)%Z) /\
  (d2 = 0 \/ (0 < d2 /\ cur = 4%Z) \/ (d2 < 0 /\ cur = 0%Z) ->
   run tr s = set_scrollTimeout None s).
Proof.
  intros Hv Ha H12 Hb HT cur before tr.
  assert (Ea : runScrollTimeout ta (onWheel t1 d1 s) = Ok (onWheel t1 d1 s)).
  { apply (runScrollTimeout_early ta (t1 + 100) d1); [reflexivity|lia]. }
  assert (Eb : runScrollTimeout tb (onWheel t2 d2 (onWheel t1 d1 s)) =
               Ok (set_scrollTimeout (Some ((t2 + 100)%Z, d2)) s)).
  { apply (runScrollTimeout_early tb (t2 + 100) d2); [reflexivity|lia]. }
  assert (E1 : run before s = set_scrollTimeout (Some ((t2 + 100)%Z, d2)) s).
  { unfold before. cbn [run step state_of]. rewrite Ea. cbn [state_of].
    rewrite Eb. reflexivity. }
  set (s0 := set_scrollTimeout None s).
  assert (Hv0 : valid_index (app_currentSection s0)) by exact Hv.
  assert (Hstep : exists s', wheelStep T d2 s0 = Ok s' /\ scrollTimeout s' = None /\
            (0 < d2 -> (cur < 4)%Z -> app_currentSection s' = (cur + 1)%Z) /\
            (d2 < 0 -> (0 < cur)%Z -> app_currentSection s' = (cur - 1)%Z) /\
            (d2 = 0 \/ (0 < d2 /\ cur = 4%Z) \/ (d2 < 0 /\ cur = 0%Z) -> s' = s0)).
  { unfold wheelStep. change (app_currentSection s0) with cur.
    unfold valid_index in Hv. fold cur in Hv.
    destruct (Rlt_dec 0 d2) as [Hp|Hp].
    - rewrite (Rltb_true _ _ Hp), (Rltb_false d2 0) by lra. simpl.
      destruct (cur <? 4)%Z eqn:E4.
      + apply Z.ltb_lt in E4.
        assert (Hn : valid_index (cur + 1)) by (unfold valid_index; lia).
        assert (Hne : (cur + 1)%Z <> app_currentSection s0) by (change (app_currentSection s0) with cur; lia).
        destruct (sectionNames_valid _ Hn) as (c & Hc).
        destruct (sectionPositions_valid _ Hn) as (p & Hpp).
        rewrite (navigateToSection_valid T _ c p s0 Hc Hpp Hne).
        eexists. split; [reflexivity|]. split; [reflexivity|].
        repeat split; intros; try reflexivity; try lra.
        exfalso. destruct H as [H|[[_ H]|[H _]]]; try lra; lia.
      + apply Z.ltb_ge in E4. exists s0. repeat split; intros; try lra; lia.
    - rewrite (Rltb_false _ _ Hp). simpl.
      destruct (Rlt_dec d2 0) as [Hn|Hn].
      + rewrite (Rltb_true _ _ Hn). simpl.
        destruct (0 <? cur)%Z eqn:E0.
        * apply Z.ltb_lt in E0.
          assert (Hn' : valid_index (cur - 1)) by (unfold valid_index; lia).
          assert (Hne : (cur - 1)%Z <> app_currentSection s0) by (change (app_currentSection s0) with cur; lia).
          destruct (sectionNames_valid _ Hn') as (c & Hc).
          destruct (sectionPositions_valid _ Hn') as (p & Hpp).
          rewrite (navigateToSection_valid T _ c p s0 Hc Hpp Hne).
          eexists. split; [reflexivity|]. split; [reflexivity|].
          repeat split; intros; try reflexivity; try lra.
          exfalso. destruct H as [H|[[H _]|[_ H]]]; try lra; lia.
        * apply Z.ltb_ge in E0. exists s0. repeat split; intros; try lra; lia.
      + rewrite (Rltb_false _ _ Hn). exists s0. repeat split; intros; lra. }
  destruct Hstep as (s' & Hw & Hto & Hup & Hdown & Hnone).
  assert (Ec : runScrollTimeout T (set_scrollTimeout (Some ((t2 + 100)%Z, d2)) s) = Ok s').
  { rewrite (runScrollTimeout_due T (t2 + 100) d2) by (try reflexivity; lia). exact Hw. }
  assert (E2 : run tr s = s').
  { unfold tr. rewrite run_app, E1. cbn [run step state_of]. rewrite Ec.
    cbn [state_of]. now rewrite (runScrollTimeout_none T' s' Hto). }
  assert (E3 : uncaught tr s = O).
  { unfold tr, before. cbn [uncaught app step state_of threw].
    rewrite Ea. cbn [state_of threw]. rewrite Eb. cbn [state_of threw].
    rewrite Ec. cbn [state_of threw].
    now rewrite (runScrollTimeout_none T' s' Hto). }
  rewrite E2. split; [exact E1|]. split; [now rewrite Hw|]. split; [exact E3|].
  split; [exact Hup|]. split; [exact Hdown|exact Hnone].
Qed.

Lemma wheel_debounce_witness :
  app_currentSection
    (run ([(0, Wheel 120); (10, ScrollTimeout); (30, Wheel 120); (100, ScrollTimeout)]
            ++ [(130, ScrollTimeout); (200, ScrollTimeout)])%Z initial_state) = 1%Z.
Proof.
  assert (Hv : valid_index (app_currentSection initial_state))
    by (unfold valid_index; simpl; lia).
  destruct (wheel_debounce initial_state 120 120 0 10 30 100 130 200 Hv
              ltac:(lia) ltac:(lia) ltac:(lia) ltac:(lia)) as (_ & _ & _ & H & _).
  apply H; [lra|simpl; lia].
Defined.

(** C8 as stated fails: two wheel events 30 ms apart, the second one a
    horizontal scroll ([deltaY = 0]), produce no navigation step at all. *)
Lemma horizontal_wheel_no_step :
  run [(0, Wheel 120); (30, Wheel 0); (130, ScrollTimeout)]%Z initial_state = initial_state /\
  app_currentSection
    (run [(0, Wheel 120); (30, Wheel 0); (130, ScrollTimeout)]%Z initial_state) = 0%Z.
Proof.
  assert (E : run [(0, Wheel 120); (30, Wheel 0); (130, ScrollTimeout)]%Z initial_state
              = initial_state).
  { cbn [run step state_of].
    rewrite (runScrollTimeout_due 130 130 0) by (try reflexivity; lia).
    unfold wheelStep. rewrite !Rltb_false by lra. reflexivity. }
  rewrite E. split; reflexivity.
Qed.

(** ** Ripples *)

Lemma renderAll_ripples now ws :
  forall s, ripples (fst (renderAll now ws s)) = ripples s.
Proof.
  induction ws as [|w ws IH]; intros s; simpl; [reflexivity|].
  destruct (render1 now w (read (tw_target w) s)) as [[v k]|].
  - specialize (IH (write (tw_target w) v s)).
    destruct (renderAll now ws (write (tw_target w) v s)) as [s' r']. simpl in *.
    rewrite IH. destruct (tw_target w); reflexivity.
  - specialize (IH s). destruct (renderAll now ws s) as [s' r']. exact IH.
Qed.

Lemma gsap_tick_ripples now s : ripples (gsap_tick now s) = ripples s.
Proof.
  unfold gsap_tick. pose proof (renderAll_ripples now (tweens s) s) as H.
  destruct (renderAll now (tweens s) s) as [s' ws]. exact H.
Qed.

Lemma navigateToSection_ripples now i s :
  ripples (state_of (navigateToSection now i s)) = ripples s.
Proof.
  unfold navigateToSection. destruct (i =? app_currentSection s)%Z; [reflexivity|].
  unfold moveToSection, updateActiveSection.
  destruct (js_index sectionPositions i); destruct (js_index sectionNames i); reflexivity.
Qed.

Lemma wheelStep_ripples now d s : ripples (state_of (wheelStep now d s)) = ripples s.
Proof.
  unfold wheelStep.
  destruct (Rltb 0 d && (app_currentSection s <? 4)%Z);
    [apply navigateToSection_ripples|].
  destruct (Rltb d 0 && (0 <? app_currentSection s)%Z);
    [apply navigateToSection_ripples|reflexivity].
Qed.

Lemma clearHover_ripples s : ripples (clearHover s) = ripples s.
Proof. unfold clearHover. destruct (hoveredObject s); reflexivity. Qed.

Lemma handleObjectHover_ripples r s : ripples (handleObjectHover r s) = ripples s.
Proof.
  unfold handleObjectHover, enterHover.
  destruct (hoveredObject s) as [h|]; [destruct (objref_eq_dec h r)|];
    simpl; try reflexivity; apply clearHover_ripples.
Qed.

Lemma checkIntersections_hover_ripples rc now s :
  ripples (state_of (checkIntersections rc false now s)) = ripples s.
Proof.
  unfold checkIntersections.
  destruct (js_index sectionNames (currentSection s)) as [c|]; [|reflexivity].
  destruct (rc (get_section c (objects s))) as [n|]; [|apply clearHover_ripples].
  destruct (n <? length (get_section c (objects s)))%nat;
    [apply handleObjectHover_ripples|apply clearHover_ripples].
Qed.

Lemma checkIntersections_click_ripples rc now s :
  exists extra,
    ripples (state_of (checkIntersections rc true now s)) = ripples s ++ extra.
Proof.
  unfold checkIntersections.
  destruct (js_index sectionNames (currentSection s)) as [c|];
    [|exists []; now rewrite app_nil_r].
  destruct (rc (get_section c (objects s))) as [n|];
    [|exists []; cbn [state_of]; now rewrite app_nil_r, clearHover_ripples].
  destruct (n <? length (get_section c (objects s)))%nat;
    [|exists []; cbn [state_of]; now rewrite app_nil_r, clearHover_ripples].
  simpl. unfold handleObjectClick.
  destruct (obj_at (c, n) (objects s)); [|exists []; now rewrite app_nil_r].
  eexists. reflexivity.
Qed.

(** Every event maps the existing ripples through [ripple_step]; only a
    click appends new ones. *)
Lemma step_ripples now e s :
  exists extra,
    ripples (state_of (step now e s)) = map (ripple_step now e) (ripples s) ++ extra /\
    (~ is_click e -> extra = []).
Proof.
  destruct e; simpl step.
  - exists []. rewrite app_nil_r, navigateToSection_ripples, map_id. auto.
  - exists []. rewrite app_nil_r, map_id. auto.
  - exists []. rewrite app_nil_r, map_id. split; [|auto].
    unfold runScrollTimeout. destruct (scrollTimeout s) as [[due d]|]; [|reflexivity].
    destruct (due <=? now)%Z; [|reflexivity]. now rewrite wheelStep_ripples.
  - exists []. rewrite app_nil_r, map_id. auto.
  - exists []. rewrite app_nil_r, map_id. split; [|auto].
    unfold onTouchStart. destruct touches as [|[x y] r]; [reflexivity|].
    now rewrite checkIntersections_hover_ripples.
  - destruct (checkIntersections_click_ripples rc now s) as (extra & E).
    exists extra. rewrite E. simpl. rewrite map_id. split; [reflexivity|].
    intros H. exfalso. apply H. exact I.
  - exists []. rewrite app_nil_r, map_id. auto.
  - exists []. rewrite app_nil_r, map_id. simpl. rewrite gsap_tick_ripples. auto.
  - exists []. rewrite app_nil_r. split; [|auto].
    unfold animate. rewrite checkIntersections_hover_ripples. reflexivity.
Qed.

Lemma animateRipple_start now rp : rp_startTime (animateRipple now rp) = rp_startTime rp.
Proof. unfold animateRipple. destruct (Rlt_dec _ _); reflexivity. Qed.

Lemma animateRipple_live_or_released now rp :
  ripple_live rp ->
  ripple_live (animateRipple now rp) \/ ripple_released (animateRipple now rp).
Proof.
  intros (H1 & H2 & H3 & H4). unfold animateRipple.
  destruct (Rlt_dec _ _); [left|right]; repeat split; assumption.
Qed.

Lemma animateRipple_expired now rp :
  (rp_startTime rp + 1000 <= now)%Z -> ripple_released (animateRipple now rp).
Proof.
  intros H. unfold animateRipple.
  destruct (Rlt_dec (IZR (now - rp_startTime rp) / 1000) 1) as [Hlt|_];
    [|repeat split].
  exfalso. assert (Hz : (1000 <= now - rp_startTime rp)%Z) by lia.
  apply IZR_le in Hz. lra.
Qed.

Lemma ripple_step_released now e rp :
  ripple_released rp -> ripple_step now e rp = rp.
Proof.
  intros (H & _). destruct e; simpl; try reflexivity. now rewrite H.
Qed.

Lemma ripple_step_state now e rp :
  ripple_live rp \/ ripple_released rp ->
  ripple_live (ripple_step now e rp) \/ ripple_released (ripple_step now e rp).
Proof.
  intros [H|H].
  - destruct e; simpl; auto. destruct H as (Hs & H'). rewrite Hs.
    apply animateRipple_live_or_released. now split.
  - rewrite ripple_step_released by assumption. auto.
Qed.

Lemma ripple_step_start now e rp :
  rp_startTime (ripple_step now e rp) = rp_startTime rp.
Proof.
  destruct e; simpl; try reflexivity.
  destruct (rp_scheduled rp); [apply animateRipple_start|reflexivity].
Qed.

Lemma step_ripple_nth now e s k rp :
  nth_error (ripples s) k = Some rp ->
  nth_error (ripples (state_of (step now e s))) k = Some (ripple_step now e rp).
Proof.
  intros H. destruct (step_ripples now e s) as (extra & E & _). rewrite E.
  rewrite nth_error_app1.
  - now rewrite nth_error_map, H.
  - rewrite length_map. apply nth_error_Some. congruence.
Qed.

(** Along any run, a ripple keeps its start time and, once released, stays
    released. *)
Lemma run_ripple_nth tr :
  forall s k rp,
    nth_error (ripples s) k = Some rp ->
    ripple_live rp \/ ripple_released rp ->
    exists rp',
      nth_error (ripples (run tr s)) k = Some rp' /\
      rp_startTime rp' = rp_startTime rp /\
      (ripple_live rp' \/ ripple_released rp') /\
      (ripple_released rp -> ripple_released rp').
Proof.
  induction tr as [|[now e] tr IH]; intros s k rp Hk Hst; simpl.
  - exists rp. auto.
  - pose proof (step_ripple_nth now e s k rp Hk) as Hk'.
    destruct (IH _ k _ Hk' (ripple_step_state now e rp Hst)) as (rp' & H1 & H2 & H3 & H4).
    exists rp'. split; [exact H1|]. split; [now rewrite H2, ripple_step_start|].
    split; [exact H3|].
    intros Hr. apply H4. now rewrite ripple_step_released.
Qed.

Lemma createRipple_live now pos s :
  exists rp,
    ripples (createRipple now pos s) = ripples s ++ [rp] /\
    rp_position rp = pos /\ rp_startTime rp = now /\ ripple_live rp.
Proof.
  unfold createRipple. eexists. split; [reflexivity|].
  unfold animateRipple. cbn [rp_startTime rp_position].
  rewrite Z.sub_diag.
  destruct (Rlt_dec (0 / 1000) 1) as [_|F]; [|exfalso; apply F; lra].
  repeat split.
Qed.

Lemma released_no_resources l :
  Forall ripple_released l ->
  filter (fun rp => negb (rp_geometryDisposed rp)) l = [] /\
  filter (fun rp => negb (rp_materialDisposed rp)) l = [].
Proof.
  induction 1 as [|rp l (_ & _ & Hg & Hm) _ [IH1 IH2]]; [split; reflexivity|].
  simpl. rewrite Hg, Hm. simpl. auto.
Qed.

Lemma run_no_click_length tr :
  forall s,
    Forall (fun te => ~ is_click (snd te)) tr ->
    length (ripples (run tr s)) = length (ripples s).
Proof.
  induction tr as [|[now e] tr IH]; intros s H; simpl; [reflexivity|].
  inversion H as [|? ? He Htr]; subst. rewrite (IH _ Htr).
  destruct (step_ripples now e s) as (extra & E & Hx).
  rewrite E, (Hx He), app_nil_r. apply length_map.
Qed.

(** X27.  Every click that hits a primitive of the current section spawns
    a ripple at that primitive's own position ([object.position]), in the
    scene, with its frame callback scheduled and its geometry and material
    allocated.  Whatever else happens, once a frame has run at a wall-clock
    instant at least 1000 ms after the click, the ripple is out of the
    scene, its geometry and its material are disposed and no callback is
    left; and when no ripple was in flight before the click and no other
    click occurs, the number of ripple geometries and materials still
    allocated is then zero. *)
Theorem click_ripple_lifecycle
    (s : state) (rc : raycaster) (c : section) (n : nat) (o : object) (now : Z) :
  js_index sectionNames (currentSection s) = Some c ->
  rc (get_section c (objects s)) = Some n ->
  nth_error (get_section c (objects s)) n = Some o ->
  let s1 := state_of (step now (Click rc) s) in
  let k := length (ripples s) in
  (exists rp,
      ripples s1 = ripples s ++ [rp] /\
      rp_position rp = position o /\ rp_startTime rp = now /\ ripple_live rp) /\
  (forall tr T e rc' tr',
      (now + 1000 <= T)%Z ->
      exists rp',
        nth_error (ripples (run (tr ++ (T, Frame e rc') :: tr') s1)) k = Some rp' /\
        ripple_released rp') /\
  (forall tr T e rc' tr',
      (now + 1000 <= T)%Z ->
      Forall ripple_released (ripples s) ->
      Forall (fun te => ~ is_click (snd te)) (tr ++ tr') ->
      ripple_resources (run (tr ++ (T, Frame e rc') :: tr') s1) = O).
Proof.
  intros Hc Hrc Ho s1 k.
  assert (Hlen : (n <? length (get_section c (objects s)))%nat = true).
  { apply Nat.ltb_lt. apply nth_error_Some. congruence. }
  assert (Hs1 : s1 = handleObjectClick now (c, n) s).
  { unfold s1. simpl. unfold checkIntersections. now rewrite Hc, Hrc, Hlen. }
  assert (Hnew : exists rp,
             ripples s1 = ripples s ++ [rp] /\
             rp_position rp = position o /\ rp_startTime rp = now /\ ripple_live rp).
  { rewrite Hs1. unfold handleObjectClick, obj_at. cbn [fst snd]. rewrite Ho.
    destruct (createRipple_live now (position o) s) as (rp & E & Hp & Ht & Hl).
    exists rp. cbn [ripples set_pulses set_objects]. auto. }
  assert (Hexp : forall tr T e rc' tr',
             (now + 1000 <= T)%Z ->
             exists rp',
               nth_error (ripples (run (tr ++ (T, Frame e rc') :: tr') s1)) k = Some rp' /\
               ripple_released rp').
  { intros tr T e rc' tr' HT. destruct Hnew as (rp & E & _ & Ht & Hl).
    assert (Hk : nth_error (ripples s1) k = Some rp).
    { rewrite E. unfold k. rewrite nth_error_app2, Nat.sub_diag by lia. reflexivity. }
    destruct (run_ripple_nth tr s1 k rp Hk (or_introl Hl)) as (rp1 & H1 & Hst1 & Hs & _).
    rewrite run_app. cbn [run].
    pose proof (step_ripple_nth T (Frame e rc') _ k rp1 H1) as H2.
    assert (Hrel : ripple_released (ripple_step T (Frame e rc') rp1)).
    { destruct Hs as [Hl1|Hr1].
      - simpl. destruct Hl1 as (-> & _). apply animateRipple_expired. lia.
      - now rewrite ripple_step_released. }
    destruct (run_ripple_nth tr' _ k _ H2 (or_intror Hrel)) as (rp2 & H3 & _ & _ & H4).
    exists rp2. auto. }
  split; [exact Hnew|]. split; [exact Hexp|].
  intros tr T e rc' tr' HT Hold Hnc.
  set (s2 := run (tr ++ (T, Frame e rc') :: tr') s1).
  assert (Hl2 : length (ripples s2) = S k).
  { unfold s2. rewrite run_no_click_length.
    - destruct Hnew as (rp & E & _). rewrite E, length_app. simpl. unfold k. lia.
    - apply Forall_app in Hnc. destruct Hnc as [Ha Hb].
      apply Forall_app. split; [exact Ha|]. constructor; [simpl; auto|exact Hb]. }
  assert (Hall : Forall ripple_released (ripples s2)).
  { apply Forall_forall. intros rp Hin.
    apply In_nth_error in Hin. destruct Hin as (j & Hj).
    assert (Hjl : (j < S k)%nat) by (rewrite <- Hl2; apply nth_error_Some; congruence).
    destruct (Nat.eq_dec j k) as [->|Hne].
    - destruct (Hexp tr T e rc' tr' HT) as (rp' & H1 & H2).
      fold s2 in H1. congruence.
    - assert (Hjk : (j < k)%nat) by lia.
      destruct (nth_error (ripples s) j) as [rp0|] eqn:E0;
        [|apply nth_error_None in E0; unfold k in Hjk; lia].
      assert (Hr0 : ripple_released rp0).
      { rewrite Forall_forall in Hold. apply Hold. eapply nth_error_In; eauto. }
      assert (E1 : nth_error (ripples s1) j = Some rp0).
      { destruct Hnew as (rpn & E & _). rewrite E, nth_error_app1; assumption. }
      destruct (run_ripple_nth (tr ++ (T, Frame e rc') :: tr') s1 j rp0 E1 (or_intror Hr0))
        as (rp' & H1 & _ & _ & H2).
      fold s2 in H1. rewrite Hj in H1. inversion H1; subst. auto. }
  unfold ripple_resources. destruct (released_no_resources _ Hall) as [-> ->].
  reflexivity.
Qed.

Lemma click_ripple_lifecycle_witness :
  let s1 := state_of (step 0 (Click (fun _ => Some 0%nat)) initial_state) in
  (exists rp,
      ripples s1 = ripples initial_state ++ [rp] /\
      rp_position rp = mkVec3 0 0 0 /\ rp_startTime rp = 0%Z /\ ripple_live rp) /\
  ripple_resources (run ([(16, Tick)] ++ [(1000, Frame 1 (fun _ => None))])%Z s1) = O.
Proof.
  destruct (click_ripple_lifecycle initial_state (fun _ => Some 0%nat) Hero 0 _ 0
              eq_refl eq_refl hero_torus) as (H1 & _ & H3).
  split; [exact H1|].
  apply (H3 [(16, Tick)]%Z 1000%Z 1 (fun _ => None) []); [lia|constructor|].
  repeat constructor; simpl; auto.
Defined.

Lemma click_spawns_ripple s rc c n o now :
  js_index sectionNames (currentSection s) = Some c ->
  rc (get_section c (objects s)) = Some n ->
  nth_error (get_section c (objects s)) n = Some o ->
  exists rp,
    ripples (state_of (step now (Click rc) s)) = ripples s ++ [rp] /\
    rp_position rp = position o /\ rp_startTime rp = now /\ ripple_live rp.
Proof.
  intros Hc Hrc Ho.
  assert (Hlen : (n <? length (get_section c (objects s)))%nat = true).
  { apply Nat.ltb_lt. apply nth_error_Some. congruence. }
  cbn [step]. unfold checkIntersections. rewrite Hc, Hrc, Hlen. cbn [state_of].
  unfold handleObjectClick, obj_at. cbn [fst snd]. rewrite Ho.
  destruct (createRipple_live now (position o) s) as (rp & E & Hp & Ht & Hl).
  exists rp. cbn [ripples set_pulses set_objects]. auto.
Qed.

(** C9 (code bug) — The ripple is not spawned at the hit position.  On the
    freshly initialised page a click whose ray meets the Hero torus (a ring
    of radius 3 and tube radius 0.5 around the origin) on the front of its
    tube, at the point (3, 0, 0.5), spawns one live ripple at (0, 0, 0),
    the torus's own position at the centre of its hole.  [handleObjectClick]
    hands [createRipple] [object.position]; the point of the intersection
    is never read, so the outcome of the click is the same wherever the ray
    meets the primitive. *)
Theorem click_ripple_not_at_hit_point :
  let cast : raycast := fun _ => Some (mkIntersection 0 (mkVec3 3 0 0.5)) in
  let s1 := state_of (step 0 (Click (picked cast)) initial_state) in
  (exists rp,
      ripples s1 = [rp] /\ ripple_live rp /\ rp_startTime rp = 0%Z /\
      rp_position rp = mkVec3 0 0 0 /\
      rp_position rp <> mkVec3 3 0 0.5) /\
  (forall pt : vec3,
      state_of (step 0 (Click (picked (fun _ => Some (mkIntersection 0 pt)))) initial_state)
      = s1).
Proof.
  cbv zeta. split; [|intros pt; reflexivity].
  destruct (click_spawns_ripple initial_state
              (picked (fun _ => Some (mkIntersection 0 (mkVec3 3 0 0.5))))
              Hero 0 _ 0 eq_refl eq_refl hero_torus) as (rp & E & Hp & Ht & Hl).
  exists rp. split; [exact E|]. split; [exact Hl|]. split; [exact Ht|].
  split; [exact Hp|].
  rewrite Hp. intros F. apply (f_equal vx) in F. cbn in F. lra.
Qed.

(** ** The animation engine: one tick *)

Lemma render1_cases now w cur :
  ((now < tw_start w)%Z /\ render1 now w cur = None) \/
  ((tw_start w <= now)%Z /\ (tw_end w <= now)%Z /\
   render1 now w cur = Some (tw_to w, None)) \/
  ((tw_start w <= now < tw_end w)%Z /\
   exists v from,
     render1 now w cur =
     Some (v, Some (mkTween (tw_target w) (tw_to w) (tw_start w) (tw_duration w)
                            (tw_ease w) (Some from)))).
Proof.
  unfold render1.
  destruct (now <? tw_start w)%Z eqn:E1.
  - left. apply Z.ltb_lt in E1. auto.
  - apply Z.ltb_ge in E1. destruct (tw_end w <=? now)%Z eqn:E2.
    + right; left. apply Z.leb_le in E2. auto.
    + right; right. apply Z.leb_gt in E2. split; [lia|]. eauto.
Qed.

Lemma renderAll_cons now w r s :
  renderAll now (w :: r) s =
  match render1 now w (read (tw_target w) s) with
  | None => let (s', r') := renderAll now r s in (s', w :: r')
  | Some (v, k) =>
      let (s', r') := renderAll now r (write (tw_target w) v s) in
      (s', match k with Some w' => w' :: r' | None => r' end)
  end.
Proof. reflexivity. Qed.

(** The tweens left by a tick are, up to recorded start values, the tweens
    it did not complete, in the same order. *)
Lemma kept_erase now ws :
  forall s,
    map erase (snd (renderAll now ws s)) =
    map erase (filter (fun w => negb (done now w)) ws).
Proof.
  induction ws as [|w r IH]; intros s; [reflexivity|].
  rewrite renderAll_cons. cbn [filter]. unfold done at 1.
  destruct (render1_cases now w (read (tw_target w) s))
    as [[H1 E]|[(H1 & H2 & E)|(H1 & v & from & E)]]; rewrite E.
  - specialize (IH s). destruct (renderAll now r s) as [s' r'].
    apply Z.ltb_lt in H1. rewrite H1. simpl. now rewrite <- IH.
  - specialize (IH (write (tw_target w) (tw_to w) s)).
    destruct (renderAll now r (write (tw_target w) (tw_to w) s)) as [s' r'].
    assert (E1 : (now <? tw_start w)%Z = false) by (apply Z.ltb_ge; lia).
    assert (E2 : (tw_end w <=? now)%Z = true) by (apply Z.leb_le; lia).
    rewrite E1, E2. simpl. exact IH.
  - specialize (IH (write (tw_target w) v s)).
    destruct (renderAll now r (write (tw_target w) v s)) as [s' r'].
    assert (E1 : (now <? tw_start w)%Z = false) by (apply Z.ltb_ge; lia).
    assert (E2 : (tw_end w <=? now)%Z = false) by (apply Z.leb_gt; lia).
    rewrite E1, E2. simpl. simpl in IH. rewrite <- IH. reflexivity.
Qed.

Lemma last_on_erase p ws :
  last_on p (map erase ws) = option_map erase (last_on p ws).
Proof.
  induction ws as [|w r IH]; [reflexivity|]. simpl. rewrite IH.
  destruct (last_on p r); [reflexivity|].
  destruct (target_eq_dec (tw_target w) p); reflexivity.
Qed.

Lemma last_on_app p a b :
  last_on p (a ++ b) =
  match last_on p b with Some u => Some u | None => last_on p a end.
Proof.
  induction a as [|w a IH]; simpl.
  - destruct (last_on p b); reflexivity.
  - rewrite IH. destruct (last_on p b); reflexivity.
Qed.

Lemma last_on_none p ws :
  (forall u, In u ws -> tw_target u <> p) -> last_on p ws = None.
Proof.
  induction ws as [|w r IH]; intros H; [reflexivity|]. simpl.
  rewrite IH by (intros u Hu; apply H; now right).
  destruct (target_eq_dec (tw_target w) p) as [E|_]; [|reflexivity].
  exfalso. apply (H w); [now left|exact E].
Qed.

Lemma last_on_none_inv p ws :
  last_on p ws = None -> forall u, In u ws -> tw_target u <> p.
Proof.
  induction ws as [|w r IH]; intros H u Hu; [contradiction|]. simpl in H.
  destruct (last_on p r) eqn:E; [discriminate|].
  destruct (target_eq_dec (tw_target w) p) as [|Hne]; [discriminate|].
  destruct Hu as [<-|Hu]; [exact Hne|]. now apply IH.
Qed.

Lemma last_on_some p ws w :
  last_on p ws = Some w -> In w ws /\ tw_target w = p.
Proof.
  induction ws as [|a r IH]; intros H; [discriminate|]. simpl in H.
  destruct (last_on p r) eqn:E.
  - inversion H; subst. destruct (IH eq_refl). split; [now right|assumption].
  - destruct (target_eq_dec (tw_target a) p); [|discriminate].
    inversion H; subst. split; [now left|reflexivity].
Qed.

(** When at most one tween of the list drives [p], it is the last one. *)
Lemma last_on_unique p ws w :
  In w ws -> tw_target w = p ->
  (forall u, In u ws -> tw_target u = p -> u = w) ->
  last_on p ws = Some w.
Proof.
  intros Hin Hp Hu. destruct (last_on p ws) as [u|] eqn:E.
  - destruct (last_on_some p ws u E) as [H1 H2]. now rewrite (Hu u H1 H2).
  - exfalso. apply (last_on_none_inv p ws E w Hin Hp).
Qed.

Lemma ends_by_erase p bound ws :
  ends_by p bound (map erase ws) <-> ends_by p bound ws.
Proof.
  unfold ends_by. rewrite Forall_map. reflexivity.
Qed.

Lemma ends_by_filter p bound f ws :
  ends_by p bound ws -> ends_by p bound (filter f ws).
Proof.
  unfold ends_by. rewrite !Forall_forall. intros H u Hu.
  apply filter_In in Hu. apply H. tauto.
Qed.

Lemma ends_by_weaken p b b' ws :
  (b <= b')%Z -> ends_by p b ws -> ends_by p b' ws.
Proof.
  unfold ends_by. intros Hb H. eapply Forall_impl; [|exact H].
  simpl. intros u Hu Hp. specialize (Hu Hp). lia.
Qed.

Lemma ends_by_app p b ws1 ws2 :
  ends_by p b (ws1 ++ ws2) <-> ends_by p b ws1 /\ ends_by p b ws2.
Proof. unfold ends_by. apply Forall_app. Qed.

(** A tick keeps the bound on the tweens of a target. *)
Lemma renderAll_ends_by now p bound ws s :
  ends_by p bound ws -> ends_by p bound (snd (renderAll now ws s)).
Proof.
  intros H. apply ends_by_erase. rewrite kept_erase.
  apply ends_by_erase. now apply ends_by_filter.
Qed.

Lemma read_write_same p v s : valid p s -> read p (write p v s) = v.
Proof.
  destruct p as [| |r]; simpl; try reflexivity.
  intros H. rewrite obj_at_upd_obj.
  destruct (objref_eq_dec r r) as [_|F]; [|contradiction].
  destruct (obj_at r (objects s)); [reflexivity|contradiction].
Qed.

Lemma read_write_other p q v s : q <> p -> read p (write q v s) = read p s.
Proof.
  intros Hne. destruct p as [| |r], q as [| |r']; simpl; try reflexivity;
    try contradiction.
  rewrite obj_at_upd_obj.
  destruct (objref_eq_dec r' r) as [->|_]; [contradiction|reflexivity].
Qed.

Lemma valid_write p q v s : valid p s -> valid p (write q v s).
Proof.
  destruct p as [| |r]; simpl; try (intros; exact I).
  destruct q as [| |r']; simpl; try (intros H; exact H).
  intros H. rewrite obj_at_upd_obj.
  destruct (objref_eq_dec r' r); [|exact H].
  destruct (obj_at r (objects s)); [discriminate|contradiction].
Qed.

Lemma renderAll_fst_cons now w r s :
  fst (renderAll now (w :: r) s) =
  fst (renderAll now r
         match render1 now w (read (tw_target w) s) with
         | None => s
         | Some (v, _) => write (tw_target w) v s
         end).
Proof.
  rewrite renderAll_cons.
  destruct (render1 now w (read (tw_target w) s)) as [[v k]|].
  - destruct (renderAll now r (write (tw_target w) v s)); reflexivity.
  - destruct (renderAll now r s); reflexivity.
Qed.

(** When every tween driving [p] is completed by the tick, [p] ends with
    the end value of the tween created last for it. *)
Lemma renderAll_value_done now p ws :
  forall s,
    valid p s -> ends_by p now ws ->
    read p (fst (renderAll now ws s)) =
    match last_on p ws with Some w => tw_to w | None => read p s end.
Proof.
  induction ws as [|w r IH]; intros s Hv He; [reflexivity|].
  inversion He as [|? ? Hw Hr]; subst.
  rewrite renderAll_fst_cons. cbn [last_on].
  destruct (target_eq_dec (tw_target w) p) as [E|E].
  - destruct (Hw E) as [Hd Hend]. unfold tw_end in Hend.
    destruct (render1_cases now w (read (tw_target w) s))
      as [[H1 _]|[(_ & _ & E1)|(H1 & _)]]; [lia| |unfold tw_end in H1; lia].
    rewrite E1, E. rewrite IH; [|now apply valid_write|exact Hr].
    destruct (last_on p r); [reflexivity|]. now apply read_write_same.
  - assert (Hs : forall s1,
               s1 = match render1 now w (read (tw_target w) s) with
                    | None => s
                    | Some (v, _) => write (tw_target w) v s
                    end -> valid p s1 /\ read p s1 = read p s).
    { intros s1 ->. destruct (render1 now w (read (tw_target w) s)) as [[v k]|].
      - split; [now apply valid_write|now apply read_write_other].
      - auto. }
    destruct (Hs _ eq_refl) as [Hv1 Hr1].
    rewrite IH; [|exact Hv1|exact Hr].
    destruct (last_on p r); [reflexivity|exact Hr1].
Qed.

Lemma last_on_filter p f ws w :
  last_on p ws = Some w -> f w = true -> last_on p (filter f ws) = Some w.
Proof.
  induction ws as [|a r IH]; intros H Hf; [discriminate|]. simpl in H.
  destruct (last_on p r) as [u|] eqn:E.
  - inversion H; subst. simpl. destruct (f a); simpl; now rewrite IH.
  - destruct (target_eq_dec (tw_target a) p) as [Ea|]; [|discriminate].
    inversion H; subst. simpl. rewrite Hf. simpl.
    rewrite (last_on_none (tw_target w) (filter f r)).
    + destruct (target_eq_dec (tw_target w) (tw_target w)); [reflexivity|contradiction].
    + intros u Hu. apply filter_In in Hu.
      apply (last_on_none_inv _ _ E). tauto.
Qed.

Lemma done_ends_by now p ws :
  ends_by p now ws -> forall u, In u ws -> tw_target u = p -> done now u = true.
Proof.
  unfold ends_by. rewrite Forall_forall. intros H u Hu Hp.
  destruct (H u Hu Hp) as [Hd He]. unfold done, tw_end in *.
  apply andb_true_iff. split.
  - apply negb_true_iff. apply Z.ltb_ge. lia.
  - apply Z.leb_le. lia.
Qed.

(** ... and no tween driving [p] is left. *)
Lemma renderAll_none_left now p ws s :
  ends_by p now ws -> last_on p (snd (renderAll now ws s)) = None.
Proof.
  intros He.
  assert (H : last_on p (map erase (snd (renderAll now ws s))) = None).
  { rewrite kept_erase. apply last_on_none. intros u Hu.
    apply in_map_iff in Hu. destruct Hu as (u0 & <- & Hu0).
    apply filter_In in Hu0. destruct Hu0 as [Hin Hnd]. simpl. intros Hp.
    rewrite (done_ends_by now p ws He u0 Hin Hp) in Hnd. discriminate. }
  rewrite last_on_erase in H.
  destruct (last_on p (snd (renderAll now ws s))); [discriminate|reflexivity].
Qed.

(** A tween that is the last one for [p] and is not completed by the tick
    is still the last one for [p] after it. *)
Lemma renderAll_last_kept now p ws s w :
  last_on p ws = Some w -> done now w = false ->
  exists w', last_on p (snd (renderAll now ws s)) = Some w' /\ erase w' = erase w.
Proof.
  intros Hl Hd.
  assert (H : last_on p (map erase (snd (renderAll now ws s))) = Some (erase w)).
  { rewrite kept_erase, last_on_erase.
    rewrite (last_on_filter p _ ws w Hl); [reflexivity|now rewrite Hd]. }
  rewrite last_on_erase in H.
  destruct (last_on p (snd (renderAll now ws s))) as [w'|]; [|discriminate].
  exists w'. split; [reflexivity|]. simpl in H. congruence.
Qed.

Lemma erase_to w w' : erase w' = erase w -> tw_to w' = tw_to w /\ tw_end w' = tw_end w.
Proof.
  unfold erase, tw_end. intros H. inversion H. split; congruence.
Qed.

Lemma gsap_tick_tweens now s : tweens (gsap_tick now s) = snd (renderAll now (tweens s) s).
Proof. unfold gsap_tick. destruct (renderAll now (tweens s) s); reflexivity. Qed.

Lemma gsap_tick_read now p s :
  read p (gsap_tick now s) = read p (fst (renderAll now (tweens s) s)).
Proof.
  unfold gsap_tick. destruct (renderAll now (tweens s) s) as [s' ws].
  destruct p; reflexivity.
Qed.

Lemma ends_by_none p b ws : last_on p ws = None -> ends_by p b ws.
Proof.
  intros H. unfold ends_by. apply Forall_forall. intros u Hu Hp.
  exfalso. exact (last_on_none_inv p ws H u Hu Hp).
Qed.

Lemma last_ends_by p b ws w :
  last_on p ws = Some w -> ends_by p b ws -> (0 <= tw_duration w /\ tw_end w <= b)%Z.
Proof.
  intros Hl He. destruct (last_on_some p ws w Hl) as [Hin Hp].
  unfold ends_by in He. rewrite Forall_forall in He. now apply He.
Qed.

(** A tick keeps a target heading for its value. *)
Lemma gsap_tick_settling p v now s :
  valid p s -> settling p v s -> settling p v (gsap_tick now s).
Proof.
  unfold settling. intros Hv H.
  rewrite gsap_tick_tweens, gsap_tick_read.
  destruct (last_on p (tweens s)) as [w|] eqn:El.
  - destruct H as [Hto He].
    destruct (done now w) eqn:Ed.
    + assert (He' : ends_by p now (tweens s)).
      { apply (ends_by_weaken p (tw_end w)); [|exact He].
        unfold done in Ed. apply andb_true_iff in Ed. destruct Ed as [_ Ed].
        now apply Z.leb_le in Ed. }
      rewrite (renderAll_none_left now p _ s He').
      rewrite (renderAll_value_done now p _ s Hv He'), El. exact Hto.
    + destruct (renderAll_last_kept now p _ s w El Ed) as (w' & -> & Ew).
      destruct (erase_to _ _ Ew) as [-> ->]. split; [exact Hto|].
      now apply renderAll_ends_by.
  - assert (He' : ends_by p now (tweens s)) by now apply ends_by_none.
    rewrite (renderAll_none_left now p _ s He').
    rewrite (renderAll_value_done now p _ s Hv He'), El. exact H.
Qed.

(** A tick at or after the bound of the tweens of a target brings it to
    rest at the value it was heading for. *)
Lemma gsap_tick_settled p v bound now s :
  valid p s -> settling p v s -> ends_by p bound (tweens s) -> (bound <= now)%Z ->
  settled p v (gsap_tick now s).
Proof.
  intros Hv H He Hb. unfold settled.
  assert (He' : ends_by p now (tweens s)) by now apply (ends_by_weaken p bound).
  rewrite gsap_tick_tweens, gsap_tick_read.
  rewrite (renderAll_none_left now p _ s He').
  rewrite (renderAll_value_done now p _ s Hv He').
  split; [reflexivity|]. unfold settling in H.
  destruct (last_on p (tweens s)); [tauto|exact H].
Qed.

Lemma settled_settling p v s : settled p v s -> settling p v s.
Proof. unfold settled, settling. intros [-> H]. exact H. Qed.

Lemma gsap_tick_keeps_settled p v now s :
  valid p s -> settled p v s -> settled p v (gsap_tick now s).
Proof.
  intros Hv Hs. apply (gsap_tick_settled p v now now s Hv).
  - now apply settled_settling.
  - apply ends_by_none. apply Hs.
  - lia.
Qed.

(** ** What events do to the primitives *)

Lemma objs_rel_refl (P : object -> object -> Prop) t :
  (forall o, P o o) -> objs_rel P t t.
Proof. intros HP r. destruct (obj_at r t) as [o|]; eauto. Qed.

Lemma objs_rel_trans (P : object -> object -> Prop) t1 t2 t3 :
  (forall a b c, P a b -> P b c -> P a c) ->
  objs_rel P t1 t2 -> objs_rel P t2 t3 -> objs_rel P t1 t3.
Proof.
  intros HP H12 H23 r. specialize (H12 r). specialize (H23 r).
  destruct (obj_at r t1) as [o|].
  - destruct H12 as (o2 & E2 & P2). rewrite E2 in H23.
    destruct H23 as (o3 & E3 & P3). eauto.
  - now rewrite H12 in H23.
Qed.

Lemma objs_rel_impl (P Q : object -> object -> Prop) t t' :
  (forall a b, P a b -> Q a b) -> objs_rel P t t' -> objs_rel Q t t'.
Proof.
  intros HPQ H r. specialize (H r). destruct (obj_at r t) as [o|]; [|exact H].
  destruct H as (o' & E & HP). eauto.
Qed.

Lemma objs_rel_upd (P : object -> object -> Prop) r f t :
  (forall o, P o o) -> (forall o, P o (f o)) -> objs_rel P t (upd_obj r f t).
Proof.
  intros Hr Hf r'. rewrite obj_at_upd_obj.
  destruct (obj_at r' t) as [o|]; destruct (objref_eq_dec r r'); simpl; eauto.
Qed.

Lemma anim_rel_refl o : anim_rel o o.
Proof. split; auto. Qed.

Lemma anim_rel_trans a b c : anim_rel a b -> anim_rel b c -> anim_rel a c.
Proof.
  unfold anim_rel. intros [H1 H2] [H3 H4]. split; [congruence|].
  intros Hd. rewrite H4 by congruence. auto.
Qed.

Lemma tag_kept_trans a b c : tag_kept a b -> tag_kept b c -> tag_kept a c.
Proof. unfold tag_kept. congruence. Qed.

Lemma update_anim_rel e t : objs_rel anim_rel t (update e t).
Proof.
  intros r. rewrite obj_at_update. destruct (obj_at r t) as [o|]; [|reflexivity].
  simpl. eexists. split; [reflexivity|]. split.
  - now rewrite updateAt_data.
  - apply updateAt_scale.
Qed.

Lemma hover_rel_refl o : hover_rel o o.
Proof. split; reflexivity. Qed.

Lemma hover_rel_trans a b c : hover_rel a b -> hover_rel b c -> hover_rel a c.
Proof. unfold hover_rel. intros [H1 H2] [H3 H4]. split; congruence. Qed.

Lemma hover_rel_anim_rel a b : hover_rel a b -> anim_rel a b.
Proof. intros [H1 H2]. split; auto. Qed.

Create HintDb rels.
#[local] Hint Resolve hover_rel_refl anim_rel_refl objs_rel_refl : rels.

Lemma clearHover_hover_rel s : objs_rel hover_rel (objects s) (objects (clearHover s)).
Proof.
  unfold clearHover. destruct (hoveredObject s) as [h|]; [|auto with rels].
  simpl. apply objs_rel_upd; [auto with rels|].
  intros o. destruct (mat o); [|auto with rels].
  destruct (originalEmissiveIntensity (data o)); [|auto with rels].
  split; reflexivity.
Qed.

Lemma enterHover_hover_rel r s : objs_rel hover_rel (objects s) (objects (enterHover r s)).
Proof.
  eapply objs_rel_trans; [exact hover_rel_trans|apply clearHover_hover_rel|].
  unfold enterHover. simpl. apply objs_rel_upd; [auto with rels|].
  intros o. destruct (mat o) as [m|]; [|auto with rels].
  destruct (emissiveIntensity m); split; reflexivity.
Qed.

(** A hover resolve changes neither a scale nor a [delay] tag. *)
Lemma checkIntersections_hover_rel rc now s :
  objs_rel hover_rel (objects s) (objects (state_of (checkIntersections rc false now s))).
Proof.
  unfold checkIntersections.
  destruct (js_index sectionNames (currentSection s)) as [c|]; [|auto with rels].
  destruct (rc (get_section c (objects s))) as [n|]; [|apply clearHover_hover_rel].
  destruct (n <? length (get_section c (objects s)))%nat; [|apply clearHover_hover_rel].
  simpl. unfold handleObjectHover.
  destruct (hoveredObject s) as [h|]; [|apply enterHover_hover_rel].
  destruct (objref_eq_dec h (c, n)); [auto with rels|apply enterHover_hover_rel].
Qed.

Lemma checkIntersections_hover_anim_rel rc now s :
  objs_rel anim_rel (objects s) (objects (state_of (checkIntersections rc false now s))).
Proof.
  apply (objs_rel_impl hover_rel); [exact hover_rel_anim_rel|].
  apply checkIntersections_hover_rel.
Qed.

Lemma write_tag_kept p v s : objs_rel tag_kept (objects s) (objects (write p v s)).
Proof.
  destruct p; simpl; try (apply objs_rel_refl; reflexivity).
  apply objs_rel_upd; reflexivity.
Qed.

Lemma renderAll_tag_kept now ws :
  forall s, objs_rel tag_kept (objects s) (objects (fst (renderAll now ws s))).
Proof.
  induction ws as [|w r IH]; intros s; [apply objs_rel_refl; reflexivity|].
  rewrite renderAll_fst_cons.
  destruct (render1 now w (read (tw_target w) s)) as [[v k]|]; [|apply IH].
  eapply objs_rel_trans; [exact tag_kept_trans|apply write_tag_kept|apply IH].
Qed.

Lemma gsap_tick_tag_kept now s :
  objs_rel tag_kept (objects s) (objects (gsap_tick now s)).
Proof.
  pose proof (renderAll_tag_kept now (tweens s) s) as H.
  unfold gsap_tick. destruct (renderAll now (tweens s) s) as [s' ws]. exact H.
Qed.

Lemma write_tick_frame p v s : tick_frame s (write p v s).
Proof. destruct p; repeat split. Qed.

Lemma tick_frame_trans s1 s2 s3 : tick_frame s1 s2 -> tick_frame s2 s3 -> tick_frame s1 s3.
Proof.
  unfold tick_frame. intros (?&?&?&?&?&?) (?&?&?&?&?&?). repeat split; congruence.
Qed.

Lemma renderAll_tick_frame now ws :
  forall s, tick_frame s (fst (renderAll now ws s)).
Proof.
  induction ws as [|w r IH]; intros s; [repeat split|].
  rewrite renderAll_fst_cons.
  destruct (render1 now w (read (tw_target w) s)) as [[v k]|]; [|apply IH].
  eapply tick_frame_trans; [apply write_tick_frame|apply IH].
Qed.

Lemma gsap_tick_frame now s : tick_frame s (gsap_tick now s).
Proof.
  pose proof (renderAll_tick_frame now (tweens s) s) as H.
  unfold gsap_tick. destruct (renderAll now (tweens s) s) as [s' ws]. exact H.
Qed.

(** ** Frames and ticks keep a target on course *)

Lemma undisturbed_valid p s : undisturbed p s -> valid p s.
Proof.
  destruct p as [| |r]; simpl; auto. intros (o & -> & _). discriminate.
Qed.

Lemma cameraUpdate_centre s :
  mousePosX s = 0 -> mousePosY s = 0 ->
  camera_position (cameraUpdate s) = camera_position s.
Proof.
  intros Hx Hy. unfold cameraUpdate. simpl. rewrite Hx, Hy.
  apply vec3_eq; simpl; unfold parallaxStrength; lra.
Qed.

(** With the pointer off centre every frame moves the camera on: the
    parallax nudge is relative to the current position, so it accumulates. *)
Lemma cameraUpdate_drift s :
  vx (camera_position (cameraUpdate s)) = vx (camera_position s) + mousePosX s * 0.0005 /\
  vy (camera_position (cameraUpdate s)) = vy (camera_position s) + mousePosY s * 0.0005.
Proof. unfold cameraUpdate. simpl. unfold parallaxStrength. split; lra. Qed.

(** What a rendered frame changes outside the ripples and the hover state. *)
Lemma frame_facts now e rc s :
  let s' := state_of (step now (Frame e rc) s) in
  tweens s' = tweens s /\
  objs_rel anim_rel (objects s) (objects s') /\
  targetPosition s' = targetPosition s /\
  mousePosX s' = mousePosX s /\ mousePosY s' = mousePosY s /\
  currentSection s' = currentSection s /\
  app_currentSection s' = app_currentSection s /\
  contentSections s' = contentSections s /\
  (mousePosX s = 0 -> mousePosY s = 0 -> camera_position s' = camera_position s).
Proof.
  cbn [step]. unfold animate.
  set (s3 := cameraUpdate
               (set_objects (update e (objects (animateRipples now s)))
                            (animateRipples now s))).
  destruct (checkIntersections_core rc false now s3)
    as (Ha & Hm & _ & Hcp & _ & Htp & Hmx & Hmy & Hcs & _ & _ & Htw).
  cbv zeta.
  rewrite Htw, Htp, Hmx, Hmy, Hcs, Ha, Hm, Hcp.
  repeat split.
  - eapply objs_rel_trans; [exact anim_rel_trans| |apply checkIntersections_hover_anim_rel].
    change (objects s3) with (update e (objects s)). apply update_anim_rel.
  - intros Hx Hy. unfold s3.
    rewrite cameraUpdate_centre by assumption. reflexivity.
Qed.

Lemma anim_rel_undisturbed p s s' :
  objs_rel anim_rel (objects s) (objects s') ->
  mousePosX s' = mousePosX s -> mousePosY s' = mousePosY s ->
  undisturbed p s -> undisturbed p s'.
Proof.
  intros Ho Hx Hy. destruct p as [| |r]; simpl; [| auto |].
  - now rewrite Hx, Hy.
  - intros (o & E & Hd). specialize (Ho r). rewrite E in Ho.
    destruct Ho as (o' & E' & Ht & _). exists o'. split; [exact E'|congruence].
Qed.

Lemma tag_kept_undisturbed p s s' :
  objs_rel tag_kept (objects s) (objects s') ->
  mousePosX s' = mousePosX s -> mousePosY s' = mousePosY s ->
  undisturbed p s -> undisturbed p s'.
Proof.
  intros Ho Hx Hy. destruct p as [| |r]; simpl; [| auto |].
  - now rewrite Hx, Hy.
  - intros (o & E & Hd). specialize (Ho r). rewrite E in Ho.
    destruct Ho as (o' & E' & Ht). exists o'. split; [exact E'|].
    unfold tag_kept in Ht. congruence.
Qed.

Lemma frame_read now e rc p s :
  undisturbed p s -> read p (state_of (step now (Frame e rc) s)) = read p s.
Proof.
  intros Hu. destruct (frame_facts now e rc s) as (_ & Ho & Htp & _ & _ & _ & _ & _ & Hcp).
  destruct p as [| |r]; simpl.
  - destruct Hu as [Hx Hy]. now apply Hcp.
  - exact Htp.
  - destruct Hu as (o & E & Hd). specialize (Ho r). rewrite E in Ho.
    destruct Ho as (o' & E' & _ & Hs). cbn [step] in E'. rewrite E', E. now apply Hs.
Qed.

(** One tick or frame: an undisturbed target stays undisturbed, keeps
    heading for its value, stays at rest once at rest, and the bound on its
    tweens is kept. *)
Lemma frame_step_keeps p v now e s :
  is_frame e -> undisturbed p s ->
  let s' := state_of (step now e s) in
  undisturbed p s' /\
  (settling p v s -> settling p v s') /\
  (settled p v s -> settled p v s') /\
  (forall b, ends_by p b (tweens s) -> ends_by p b (tweens s')).
Proof.
  intros He Hu. destruct e; try contradiction; cbv zeta.
  - (* Tick *)
    cbn [step state_of].
    destruct (gsap_tick_frame now s) as (_ & _ & _ & Hx & Hy & _).
    split; [|split; [|split]].
    + apply (tag_kept_undisturbed p s); auto. apply gsap_tick_tag_kept.
    + apply gsap_tick_settling. now apply undisturbed_valid.
    + apply gsap_tick_keeps_settled. now apply undisturbed_valid.
    + intros b Hb. rewrite gsap_tick_tweens. now apply renderAll_ends_by.
  - (* Frame *)
    destruct (frame_facts now elapsedTime rc s) as (Htw & Ho & _ & Hx & Hy & _).
    pose proof (frame_read now elapsedTime rc p s Hu) as Hr.
    split; [|split; [|split]].
    + apply (anim_rel_undisturbed p s); auto.
    + unfold settling. rewrite Htw, Hr. auto.
    + unfold settled. rewrite Htw, Hr. auto.
    + intros b. now rewrite Htw.
Qed.

Lemma frames_keep p v tr :
  forall s,
    Forall (fun te => is_frame (snd te)) tr -> undisturbed p s ->
    undisturbed p (run tr s) /\
    (settling p v s -> settling p v (run tr s)) /\
    (settled p v s -> settled p v (run tr s)) /\
    (forall b, ends_by p b (tweens s) -> ends_by p b (tweens (run tr s))).
Proof.
  induction tr as [|[now e] tr IH]; intros s Hf Hu; [simpl; auto|].
  inversion Hf as [|? ? He Htr]; subst. simpl in He.
  destruct (frame_step_keeps p v now e s He Hu) as (Hu1 & Hs1 & Hd1 & Hb1).
  destruct (IH _ Htr Hu1) as (Hu2 & Hs2 & Hd2 & Hb2).
  cbn [run]. split; [exact Hu2|]. split; [auto|]. split; [auto|].
  intros b Hb. apply Hb2, Hb1, Hb.
Qed.

(** Ticks and frames leave the section indices and the markup flags alone. *)
Lemma frames_keep_indices tr :
  forall s,
    Forall (fun te => is_frame (snd te)) tr ->
    app_currentSection (run tr s) = app_currentSection s /\
    currentSection (run tr s) = currentSection s /\
    contentSections (run tr s) = contentSections s.
Proof.
  induction tr as [|[now e] tr IH]; intros s Hf; [simpl; auto|].
  inversion Hf as [|? ? He Htr]; subst. simpl in He. cbn [run].
  destruct (IH (state_of (step now e s)) Htr) as (H1 & H2 & H3).
  rewrite H1, H2, H3. destruct e; try contradiction.
  - cbn [step state_of]. destruct (gsap_tick_frame now s) as (Ha & Hm & Hc & _). auto.
  - destruct (frame_facts now elapsedTime rc s) as (_ & _ & _ & _ & _ & Hc & Ha & Hm & _).
    auto.
Qed.

(** ** The tweens issued by a navigation *)

Lemma nth_error_refs_of c t n :
  (n < length (get_section c t))%nat -> nth_error (refs_of c t) n = Some (c, n).
Proof.
  intros H. unfold refs_of. rewrite nth_error_map.
  rewrite (nth_error_nth' _ O) by (rewrite length_seq; exact H).
  rewrite seq_nth by exact H. reflexivity.
Qed.

Lemma in_refs_of c t r :
  In r (refs_of c t) <-> fst r = c /\ (snd r < length (get_section c t))%nat.
Proof.
  unfold refs_of. rewrite in_map_iff. split.
  - intros (i & <- & Hi). apply in_seq in Hi. simpl. split; [reflexivity|lia].
  - intros [<- H]. exists (snd r). split; [now destruct r|]. apply in_seq. lia.
Qed.

Lemma in_all_refs t r : obj_at r t <> None -> In r (all_refs t).
Proof.
  intros H. unfold all_refs. apply in_flat_map. exists (fst r). split.
  - unfold sectionNames. destruct (fst r); simpl; tauto.
  - apply in_refs_of. split; [reflexivity|]. apply nth_error_Some. exact H.
Qed.

Lemma in_shows now c t u :
  In u (mapi (showTween now) (refs_of c t) 0) ->
  exists k, (k < length (get_section c t))%nat /\ u = showTween now k (c, k).
Proof.
  intros H. apply In_nth_error in H. destruct H as (n & Hn).
  rewrite nth_error_mapi in Hn. simpl in Hn.
  destruct (nth_error (refs_of c t) n) as [r|] eqn:E; [|discriminate].
  assert (Hl : (n < length (get_section c t))%nat).
  { rewrite <- length_refs_of. apply nth_error_Some. congruence. }
  rewrite (nth_error_refs_of c t n Hl) in E. inversion E; subst.
  simpl in Hn. inversion Hn. eauto.
Qed.

Lemma shows_in now c t k :
  (k < length (get_section c t))%nat ->
  In (showTween now k (c, k)) (mapi (showTween now) (refs_of c t) 0).
Proof.
  intros H. apply (nth_error_In _ k). rewrite nth_error_mapi.
  now rewrite (nth_error_refs_of c t k H).
Qed.

Lemma last_on_shows_same now c t k :
  (k < length (get_section c t))%nat ->
  last_on (TScale (c, k)) (mapi (showTween now) (refs_of c t) 0) =
  Some (showTween now k (c, k)).
Proof.
  intros H. apply last_on_unique; [now apply shows_in|reflexivity|].
  intros u Hu Hp. destruct (in_shows now c t u Hu) as (j & _ & ->).
  simpl in Hp. inversion Hp. reflexivity.
Qed.

Lemma last_on_shows_other now c t p :
  (forall k, p <> TScale (c, k)) ->
  last_on p (mapi (showTween now) (refs_of c t) 0) = None.
Proof.
  intros H. apply last_on_none. intros u Hu.
  destruct (in_shows now c t u Hu) as (j & _ & ->). simpl.
  intros E. apply (H j). now rewrite E.
Qed.

Lemma last_on_hides now t r :
  obj_at r t <> None ->
  last_on (TScale r) (map (hideTween now) (all_refs t)) = Some (hideTween now r).
Proof.
  intros H. apply last_on_unique.
  - apply in_map. now apply in_all_refs.
  - reflexivity.
  - intros u Hu Hp. apply in_map_iff in Hu. destruct Hu as (r' & <- & _).
    simpl in Hp. inversion Hp. reflexivity.
Qed.

Lemma last_on_hides_camera now t p :
  (forall r, p <> TScale r) -> last_on p (map (hideTween now) (all_refs t)) = None.
Proof.
  intros H. apply last_on_none. intros u Hu.
  apply in_map_iff in Hu. destruct Hu as (r' & <- & _). simpl.
  intros E. apply (H r'). now rewrite E.
Qed.

Lemma ends_by_hides now t p b :
  (now + 500 <= b)%Z -> ends_by p b (map (hideTween now) (all_refs t)).
Proof.
  intros Hb. unfold ends_by. apply Forall_forall. intros u Hu _.
  apply in_map_iff in Hu. destruct Hu as (r' & <- & _).
  unfold tw_end. simpl. lia.
Qed.

Lemma ends_by_camera now p0 p b :
  (now + 1500 <= b)%Z -> ends_by p b (cameraTweens now p0).
Proof.
  intros Hb. unfold ends_by, cameraTweens.
  repeat constructor; unfold tw_end; simpl; lia.
Qed.

Lemma ends_by_shows now c t c' k b :
  (c' = c -> now + 50 * Z.of_nat k + 500 <= b)%Z ->
  ends_by (TScale (c', k)) b (mapi (showTween now) (refs_of c t) 0).
Proof.
  intros Hb. unfold ends_by. apply Forall_forall. intros u Hu Hp.
  destruct (in_shows now c t u Hu) as (j & _ & ->).
  simpl in Hp. inversion Hp; subst. unfold tw_end.
  cbn [showTween tw_start tw_duration].
  specialize (Hb eq_refl). lia.
Qed.

(** After a navigation to section [c] at [now], a primitive of [c] is
    heading for scale 1 and a primitive of another section for scale 0,
    provided the tweens already driving it end by [now + 500]. *)
Lemma navigated_scale now i c p0 s c' k :
  obj_at (c', k) (objects s) <> None ->
  ends_by (TScale (c', k)) (now + 500) (tweens s) ->
  let s' := navigated now i c p0 s in
  let stagger := if section_eq_dec c' c then (50 * Z.of_nat k)%Z else 0%Z in
  settling (TScale (c', k)) (if section_eq_dec c' c then vone else vzero) s' /\
  ends_by (TScale (c', k)) (now + 500 + stagger) (tweens s').
Proof.
  intros Hv Hold. cbv zeta.
  assert (Hk : (k < length (get_section c' (objects s)))%nat)
    by (apply nth_error_Some; exact Hv).
  assert (Hall : forall b, (now + 500 <= b)%Z ->
             (c' = c -> now + 50 * Z.of_nat k + 500 <= b)%Z ->
             ends_by (TScale (c', k)) b (tweens (navigated now i c p0 s))).
  { intros b Hb Hb'. cbn [tweens navigated].
    apply ends_by_app. split; [|now apply ends_by_shows].
    apply ends_by_app. split; [|now apply ends_by_hides].
    apply ends_by_app. split; [now apply (ends_by_weaken _ (now + 500))|].
    unfold ends_by, cameraTweens. repeat constructor; simpl; intros; discriminate. }
  unfold settling. cbn [tweens navigated]. rewrite last_on_app.
  destruct (section_eq_dec c' c) as [->|Hne].
  - rewrite (last_on_shows_same now c (objects s) k Hk).
    split; [split; [reflexivity|]|].
    + unfold tw_end. cbn [showTween tw_start tw_duration]. apply Hall; lia.
    + apply Hall; lia.
  - rewrite last_on_shows_other by (intros j E; inversion E; contradiction).
    rewrite last_on_app, (last_on_hides now (objects s) (c', k) Hv).
    split; [split; [reflexivity|]|].
    + unfold tw_end. cbn [hideTween tw_start tw_duration].
      apply Hall; [lia|intros; contradiction].
    + apply Hall; [lia|intros; contradiction].
Qed.

(** After a navigation the camera position and the look-at target are
    heading for the pose of the section, provided the tweens already
    driving them end by [now + 1500]. *)
Lemma navigated_camera now i c p0 s :
  let s' := navigated now i c p0 s in
  (ends_by TCameraPosition (now + 1500) (tweens s) ->
   settling TCameraPosition (pose_position p0) s' /\
   ends_by TCameraPosition (now + 1500) (tweens s')) /\
  (ends_by TTargetPosition (now + 1500) (tweens s) ->
   settling TTargetPosition (pose_lookAt p0) s' /\
   ends_by TTargetPosition (now + 1500) (tweens s')).
Proof.
  cbv zeta.
  assert (Hall : forall p, (forall r, p <> TScale r) ->
             ends_by p (now + 1500) (tweens s) ->
             ends_by p (now + 1500) (tweens (navigated now i c p0 s))).
  { intros p Hp Hold. cbn [tweens navigated].
    apply ends_by_app. split.
    - apply ends_by_app. split; [|apply ends_by_hides; lia].
      apply ends_by_app. split; [exact Hold|apply ends_by_camera; lia].
    - apply ends_by_none. apply last_on_shows_other. intros k. apply Hp. }
  split; intros Hold.
  - assert (Hp : forall r, TCameraPosition <> TScale r) by discriminate.
    split; [|now apply Hall].
    unfold settling. cbn [tweens navigated].
    rewrite last_on_app, last_on_shows_other by (intros; discriminate).
    rewrite last_on_app, last_on_hides_camera by exact Hp.
    rewrite last_on_app. cbn [cameraTweens last_on tw_target].
    destruct (target_eq_dec TTargetPosition TCameraPosition); [discriminate|].
    destruct (target_eq_dec TCameraPosition TCameraPosition); [|contradiction].
    split; [reflexivity|]. unfold tw_end. cbn [tw_start tw_duration].
    replace (now + 0 + 1500)%Z with (now + 1500)%Z by lia.
    apply (Hall TCameraPosition Hp Hold).
  - assert (Hp : forall r, TTargetPosition <> TScale r) by discriminate.
    split; [|now apply Hall].
    unfold settling. cbn [tweens navigated].
    rewrite last_on_app, last_on_shows_other by (intros; discriminate).
    rewrite last_on_app, last_on_hides_camera by exact Hp.
    rewrite last_on_app. cbn [cameraTweens last_on tw_target].
    destruct (target_eq_dec TTargetPosition TTargetPosition); [|contradiction].
    split; [reflexivity|]. unfold tw_end. cbn [tw_start tw_duration].
    replace (now + 0 + 1500)%Z with (now + 1500)%Z by lia.
    apply (Hall TTargetPosition Hp Hold).
Qed.

(** ** The constructed scene *)

Lemma hero_constructed o :
  In o createHeroSection -> scale o = vone /\ delay (data o) = None.
Proof.
  unfold createHeroSection. intros H.
  apply in_app_or in H. destruct H as [[<-|[]]|H]; [split; reflexivity|].
  apply in_app_or in H. destruct H as [H|[<-|[]]]; [|split; reflexivity].
  apply in_map_iff in H. destruct H as (i & <- & _). split; reflexivity.
Qed.

Lemma about_constructed o :
  In o createAboutSection -> scale o = vone /\ delay (data o) = None.
Proof.
  unfold createAboutSection, cubePositions. cbn [forEachi app].
  intros H. repeat (destruct H as [<-|H]; [split; reflexivity|]). contradiction.
Qed.

Lemma projects_constructed o :
  In o createProjectsSection -> scale o = vone /\ delay (data o) = None.
Proof.
  unfold createProjectsSection, cardPositions. cbn [forEachi app].
  intros H. repeat (destruct H as [<-|H]; [split; reflexivity|]). contradiction.
Qed.

Lemma skills_constructed o :
  In o createSkillsSection -> scale o = vone /\ delay (data o) = None.
Proof.
  unfold createSkillsSection. intros H.
  apply in_app_or in H. destruct H as [H|[<-|[]]]; [|split; reflexivity].
  apply in_flat_map in H. destruct H as (k & _ & H).
  apply in_map_iff in H. destruct H as (i & <- & _). split; reflexivity.
Qed.

Lemma contact_constructed o :
  In o createContactSection -> scale o = vone.
Proof.
  unfold createContactSection. intros H.
  apply in_app_or in H. destruct H as [H|[<-|[]]]; [|reflexivity].
  apply in_map_iff in H. destruct H as (i & <- & _). reflexivity.
Qed.

Lemma constructed_scale c n o :
  nth_error (get_section c createAllSections) n = Some o -> scale o = vone.
Proof.
  intros H. apply nth_error_In in H. destruct c; simpl in H.
  - now apply hero_constructed.
  - now apply about_constructed.
  - now apply projects_constructed.
  - now apply skills_constructed.
  - now apply contact_constructed.
Qed.

Lemma length_hero_constructed : length createHeroSection = 10%nat.
Proof. reflexivity. Qed.

Lemma length_projects_constructed : length createProjectsSection = 7%nat.
Proof. reflexivity. Qed.

(** ** Before the first navigation *)

Lemma gsap_tick_idle now s : tweens s = [] -> gsap_tick now s = set_tweens [] s.
Proof. intros H. unfold gsap_tick. rewrite H. reflexivity. Qed.

Lemma passive_step_keeps_scene now e s :
  passive e ->
  tweens s = [] ->
  (forall r o, obj_at r (objects s) = Some o -> delay (data o) = None -> scale o = vone) ->
  let s' := state_of (step now e s) in
  tweens s' = [] /\
  (forall r o, obj_at r (objects s') = Some o -> delay (data o) = None -> scale o = vone).
Proof.
  intros He Ht Hs. destruct e; try contradiction; cbv zeta.
  - cbn [step state_of]. split; [exact Ht|exact Hs].
  - cbn [step state_of]. rewrite (gsap_tick_idle now s Ht). split; [reflexivity|exact Hs].
  - destruct (frame_facts now elapsedTime rc s) as (Htw & Ho & _).
    split; [now rewrite Htw|].
    intros r o' E' Hd. specialize (Ho r).
    destruct (obj_at r (objects s)) as [o|] eqn:E; [|congruence].
    destruct Ho as (o2 & E2 & Hdel & Hsc). rewrite E' in E2. inversion E2; subst.
    rewrite Hsc by congruence. apply (Hs r o E). congruence.
Qed.


(** ** Navigation followed by frames *)

Lemma navigateToSection_objects now i s :
  objects (state_of (navigateToSection now i s)) = objects s.
Proof.
  unfold navigateToSection. destruct (i =? app_currentSection s)%Z; [reflexivity|].
  unfold moveToSection, updateActiveSection.
  destruct (js_index sectionPositions i); destruct (js_index sectionNames i); reflexivity.
Qed.

Lemma anim_rel_tag_kept a b : anim_rel a b -> tag_kept a b.
Proof. intros [H _]. exact H. Qed.

Lemma run_tag_kept tr :
  forall s,
    Forall (fun te => nav_or_frame (snd te)) tr ->
    objs_rel tag_kept (objects s) (objects (run tr s)).
Proof.
  induction tr as [|[now e] tr IH]; intros s Hf;
    [apply objs_rel_refl; reflexivity|].
  inversion Hf as [|? ? He Htr]; subst. simpl in He. cbn [run].
  eapply objs_rel_trans; [exact tag_kept_trans| |apply IH; exact Htr].
  destruct e; try contradiction.
  - cbn [step]. rewrite navigateToSection_objects. apply objs_rel_refl; reflexivity.
  - apply gsap_tick_tag_kept.
  - destruct (frame_facts now elapsedTime rc s) as (_ & Ho & _).
    apply (objs_rel_impl anim_rel); [exact anim_rel_tag_kept|exact Ho].
Qed.

Lemma objs_rel_length (P : object -> object -> Prop) t t' c :
  objs_rel P t t' -> length (get_section c t') = length (get_section c t).
Proof.
  intros H.
  assert (Hn : forall k, nth_error (get_section c t) k = None <->
                         nth_error (get_section c t') k = None).
  { intros k. specialize (H (c, k)). unfold obj_at in H. simpl in H.
    destruct (nth_error (get_section c t) k) as [o|].
    - destruct H as (o' & -> & _). split; discriminate.
    - rewrite H. tauto. }
  destruct (Nat.lt_trichotomy (length (get_section c t')) (length (get_section c t)))
    as [Hlt|[Heq|Hgt]]; [|exact Heq|].
  - exfalso. assert (E : nth_error (get_section c t') (length (get_section c t')) = None)
      by (apply nth_error_None; lia).
    apply Hn in E. apply nth_error_None in E. lia.
  - exfalso. assert (E : nth_error (get_section c t) (length (get_section c t)) = None)
      by (apply nth_error_None; lia).
    apply Hn in E. apply nth_error_None in E. lia.
Qed.

Lemma is_frame_nav_or_frame tr :
  Forall (fun te : Z * event => is_frame (snd te)) tr ->
  Forall (fun te : Z * event => nav_or_frame (snd te)) tr.
Proof.
  apply Forall_impl. intros [now e]. simpl. destruct e; simpl; tauto.
Qed.

(** After a navigation and any ticks and frames, a scale that nothing else
    writes is on course. *)
Lemma navigation_scale_course s now i c p0 fr c' k :
  Forall (fun te => is_frame (snd te)) fr ->
  undisturbed (TScale (c', k)) s ->
  ends_by (TScale (c', k)) (now + 500) (tweens s) ->
  let sA := run fr (navigated now i c p0 s) in
  let stagger := if section_eq_dec c' c then (50 * Z.of_nat k)%Z else 0%Z in
  undisturbed (TScale (c', k)) sA /\
  settling (TScale (c', k)) (if section_eq_dec c' c then vone else vzero) sA /\
  ends_by (TScale (c', k)) (now + 500 + stagger) (tweens sA).
Proof.
  intros Hf Hu He. cbv zeta.
  assert (Hv : obj_at (c', k) (objects s) <> None)
    by (destruct Hu as (o & -> & _); discriminate).
  destruct (navigated_scale now i c p0 s c' k Hv He) as [Hs Hb].
  assert (Hu1 : undisturbed (TScale (c', k)) (navigated now i c p0 s)) by exact Hu.
  destruct (frames_keep (TScale (c', k)) (if section_eq_dec c' c then vone else vzero)
              fr _ Hf Hu1) as (Hu2 & Hs2 & _ & Hb2).
  auto.
Qed.

Lemma navigation_camera_course s now i c p0 fr :
  Forall (fun te => is_frame (snd te)) fr ->
  undisturbed TCameraPosition s ->
  ends_by TCameraPosition (now + 1500) (tweens s) ->
  ends_by TTargetPosition (now + 1500) (tweens s) ->
  let sA := run fr (navigated now i c p0 s) in
  undisturbed TCameraPosition sA /\
  settling TCameraPosition (pose_position p0) sA /\
  ends_by TCameraPosition (now + 1500) (tweens sA) /\
  settling TTargetPosition (pose_lookAt p0) sA /\
  ends_by TTargetPosition (now + 1500) (tweens sA).
Proof.
  intros Hf Hu He1 He2. cbv zeta.
  destruct (navigated_camera now i c p0 s) as [H1 H2].
  destruct (H1 He1) as [Hs1 Hb1]. destruct (H2 He2) as [Hs2 Hb2].
  assert (Hu1 : undisturbed TCameraPosition (navigated now i c p0 s)) by exact Hu.
  destruct (frames_keep TCameraPosition (pose_position p0) fr _ Hf Hu1)
    as (Hu3 & Hs3 & _ & Hb3).
  destruct (frames_keep TTargetPosition (pose_lookAt p0) fr
              (navigated now i c p0 s) Hf I) as (_ & Hs4 & _ & Hb4).
  auto 10.
Qed.

(** A tick at or after the bound, then any ticks and frames: the target
    rests at its value. *)
Lemma tick_then_frames p v b T fr s :
  undisturbed p s -> settling p v s -> ends_by p b (tweens s) -> (b <= T)%Z ->
  Forall (fun te => is_frame (snd te)) fr ->
  read p (run ((T, Tick) :: fr) s) = v.
Proof.
  intros Hu Hs He Hb Hf. cbn [run step state_of].
  pose proof (gsap_tick_settled p v b T s (undisturbed_valid p s Hu) Hs He Hb) as Hd.
  destruct (frame_step_keeps p v T Tick s I Hu) as (Hu1 & _).
  cbn [step state_of] in Hu1.
  destruct (frames_keep p v fr _ Hf Hu1) as (_ & _ & Hd2 & _).
  apply Hd2. exact Hd.
Qed.

Lemma read_scale r s o : obj_at r (objects s) = Some o -> read (TScale r) s = scale o.
Proof. intros H. simpl. now rewrite H. Qed.

Lemma vone_not_vzero : vone <> vzero.
Proof. intros H. inversion H. lra. Qed.

(** ** One active section *)

(** C2 (amended) — The interaction ray cast is given exactly the primitive
    list of the current section, so its outcome depends on nothing else,
    and right after a hover resolve (the one every frame and every touch
    runs) the hovered primitive, if there is one, is of that list.
    Visibility follows
    with a delay: after a navigation to section [c], issued when no tween
    is in flight, and once the engine has ticked at or after the end of the
    last staggered show tween, every primitive of [c] has scale 1 and every
    primitive of every other section has scale 0 — among the primitives
    whose scale only the visibility tweens drive (those without a [delay]
    tag).  Before that tick the other sections are still shrinking. *)
Theorem active_section_picking_and_visibility :
  (forall s c rc rc' isClick now,
      js_index sectionNames (currentSection s) = Some c ->
      rc (get_section c (objects s)) = rc' (get_section c (objects s)) ->
      checkIntersections rc isClick now s = checkIntersections rc' isClick now s) /\
  (forall s c rc now,
      js_index sectionNames (currentSection s) = Some c ->
      let s' := state_of (checkIntersections rc false now s) in
      hoveredObject s' = None \/
      exists n, hoveredObject s' = Some (c, n) /\
                (n < length (get_section c (objects s)))%nat) /\
  (forall s i c now fr T fr',
      js_index sectionNames i = Some c ->
      i <> app_currentSection s ->
      tweens s = [] ->
      Forall (fun te => is_frame (snd te)) fr ->
      Forall (fun te => is_frame (snd te)) fr' ->
      (now + 500 + 50 * Z.of_nat (length (get_section c (objects s))) <= T)%Z ->
      let s' := run ((now, Navigate i) :: fr ++ (T, Tick) :: fr') s in
      currentSection s' = i /\
      forall c' k o,
        nth_error (get_section c' (objects s')) k = Some o ->
        delay (data o) = None ->
        scale o = if section_eq_dec c' c then vone else vzero).
Proof.
  split; [|split].
  - intros s c rc rc' isClick now Hc Hrc. unfold checkIntersections.
    rewrite Hc, Hrc. reflexivity.
  - intros s c rc now Hc. cbv zeta. unfold checkIntersections. rewrite Hc.
    destruct (rc (get_section c (objects s))) as [n|];
      [|left; apply clearHover_hovered].
    destruct (n <? length (get_section c (objects s)))%nat eqn:El;
      [|left; apply clearHover_hovered].
    apply Nat.ltb_lt in El. right. exists n. split; [|exact El].
    cbn [state_of]. unfold handleObjectHover.
    destruct (hoveredObject s) as [h|] eqn:Eh; [|reflexivity].
    destruct (objref_eq_dec h (c, n)) as [->|_]; [exact Eh|reflexivity].
  - intros s i c now fr T fr' Hc Hne Ht Hf Hf' HT. cbv zeta.
    assert (Hv : valid_index i).
    { apply js_index_in_range in Hc. unfold valid_index. simpl in Hc. lia. }
    destruct (sectionPositions_valid i Hv) as (p0 & Hp0).
    assert (Hrun : run ((now, Navigate i) :: fr ++ (T, Tick) :: fr') s =
                   run ((T, Tick) :: fr') (run fr (navigated now i c p0 s))).
    { rewrite (run_navigate now i c p0 _ s Hc Hp0 Hne). apply run_app. }
    assert (Hall : Forall (fun te => nav_or_frame (snd te))
                     ((now, Navigate i) :: fr ++ (T, Tick) :: fr')).
    { constructor; [exact I|]. apply Forall_app. split;
        [now apply is_frame_nav_or_frame|].
      constructor; [exact I|now apply is_frame_nav_or_frame]. }
    pose proof (run_tag_kept _ s Hall) as Hrel.
    split.
    + rewrite Hrun.
      assert (Hf2 : Forall (fun te => is_frame (snd te)) ((T, Tick) :: fr'))
        by (constructor; [exact I|exact Hf']).
      destruct (frames_keep_indices _ (run fr (navigated now i c p0 s)) Hf2) as (_ & -> & _).
      destruct (frames_keep_indices _ (navigated now i c p0 s) Hf) as (_ & -> & _).
      reflexivity.
    + intros c' k o Ho Hd.
      specialize (Hrel (c', k)). unfold obj_at in Hrel at 2. cbn [fst snd] in Hrel.
      destruct (obj_at (c', k) (objects s)) as [o0|] eqn:E0;
        [|unfold obj_at in Hrel; cbn [fst snd] in Hrel; congruence].
      destruct Hrel as (o' & Eo' & Htag). unfold obj_at in Eo'. cbn [fst snd] in Eo'.
      rewrite Ho in Eo'. inversion Eo'; subst o'. unfold tag_kept in Htag.
      assert (Hu : undisturbed (TScale (c', k)) s).
      { exists o0. split; [exact E0|congruence]. }
      assert (He : ends_by (TScale (c', k)) (now + 500) (tweens s))
        by (rewrite Ht; constructor).
      destruct (navigation_scale_course s now i c p0 fr c' k Hf Hu He)
        as (Hu1 & Hs1 & Hb1).
      assert (Hk : (k < length (get_section c' (objects s)))%nat)
        by (apply nth_error_Some; unfold obj_at in E0; cbn [fst snd] in E0; congruence).
      assert (Hb : (now + 500 + (if section_eq_dec c' c then 50 * Z.of_nat k else 0) <= T)%Z).
      { destruct (section_eq_dec c' c) as [->|_]; lia. }
      pose proof (tick_then_frames _ _ _ T fr' _ Hu1 Hs1 Hb1 Hb Hf') as Hr.
      rewrite <- Hrun in Hr. rewrite <- Hr. symmetry. now apply read_scale.
Qed.

Lemma active_section_picking_and_visibility_witness :
  let s' := run ((0, Navigate 1) :: [] ++ (1000, Tick) :: [])%Z initial_state in
  currentSection s' = 1%Z /\
  forall c' k o,
    nth_error (get_section c' (objects s')) k = Some o ->
    delay (data o) = None ->
    scale o = if section_eq_dec c' About then vone else vzero.
Proof.
  destruct active_section_picking_and_visibility as (_ & _ & H).
  apply (H initial_state 1%Z About 0%Z [] 1000%Z []).
  - reflexivity.
  - discriminate.
  - reflexivity.
  - constructor.
  - constructor.
  - simpl. lia.
Defined.

(** A rendered frame sets the scale of a [delay]-tagged Contact primitive
    to the pulse value, whichever section is current; the value is never
    below 0.8. *)
Lemma frame_ring_pulse now e rc s k o d :
  obj_at (Contact, k) (objects s) = Some o ->
  delay (data o) = Some d ->
  exists o',
    obj_at (Contact, k) (objects (state_of (step now (Frame e rc) s))) = Some o' /\
    scale o' = mkVec3 (1 + sin (e * 2 - d) * 0.2) (1 + sin (e * 2 - d) * 0.2)
                      (1 + sin (e * 2 - d) * 0.2) /\
    0.8 <= vx (scale o').
Proof.
  intros Ho Hd. cbn [step]. unfold animate.
  set (s3 := cameraUpdate
               (set_objects (update e (objects (animateRipples now s)))
                            (animateRipples now s))).
  assert (H3 : obj_at (Contact, k) (objects s3) = Some (updateContact e o)).
  { change (objects s3) with (update e (objects s)).
    rewrite obj_at_update, Ho. reflexivity. }
  pose proof (checkIntersections_hover_rel rc now s3 (Contact, k)) as Hr.
  rewrite H3 in Hr. destruct Hr as (o' & Eo' & Hs & _).
  exists o'. split; [exact Eo'|]. rewrite Hs. unfold updateContact. rewrite Hd.
  cbn [scale set_scale vx]. split; [reflexivity|].
  pose proof (SIN_bound (e * 2 - d)) as [Hlo _]. lra.
Qed.

Lemma contact_ring_initial :
  exists o,
    obj_at (Contact, 0%nat) (objects initial_state) = Some o /\
    delay (data o) = Some (INR 0 * 0.2).
Proof. eexists. split; reflexivity. Qed.

(** C2 as stated fails.  Right after a navigation from Hero to About the
    current section is About while the Hero torus still has scale (1,1,1):
    its hide tween has only been queued.  And it fails at rest too: after
    that navigation, an engine tick one second later and one rendered
    frame, the first Contact ring, a primitive of a section that is not
    current, has a scale of at least 0.8, because the per-frame pulse
    writes it whichever section is current. *)
Lemma inactive_section_not_hidden :
  (let s := state_of (step 0 (Navigate 1) initial_state) in
   currentSection s = 1%Z /\
   exists o,
     nth_error (get_section Hero (objects s)) 0 = Some o /\
     scale o = vone /\ scale o <> vzero) /\
  (let s := run [(0, Navigate 1); (1000, Tick); (1016, Frame 1 (fun _ => None))]%Z
                initial_state in
   currentSection s = 1%Z /\
   exists o,
     obj_at (Contact, 0%nat) (objects s) = Some o /\
     0.8 <= vx (scale o) /\ scale o <> vzero).
Proof.
  split.
  - cbv zeta. cbn [step].
    rewrite (navigateToSection_valid 0 1 About
               (mkPose (mkVec3 (-8) 2 12) (mkVec3 (-8) 0 0)) initial_state
               eq_refl eq_refl) by discriminate.
    cbn [state_of currentSection navigated objects]. split; [reflexivity|].
    eexists. split; [apply hero_torus|]. split; [reflexivity|apply vone_not_vzero].
  - cbv zeta.
    set (tr1 := [(0, Navigate 1); (1000, Tick)]%Z).
    assert (Hsplit : run [(0, Navigate 1); (1000, Tick); (1016, Frame 1 (fun _ => None))]%Z
                         initial_state
                     = state_of (step 1016 (Frame 1 (fun _ => None)) (run tr1 initial_state))).
    { change [(0, Navigate 1); (1000, Tick); (1016, Frame 1 (fun _ => None))]%Z
        with (tr1 ++ [(1016, Frame 1 (fun _ => None))]%Z).
      rewrite run_app. reflexivity. }
    rewrite Hsplit.
    assert (Hnf : Forall (fun te => nav_or_frame (snd te)) tr1)
      by (repeat constructor).
    pose proof (run_tag_kept tr1 initial_state Hnf (Contact, 0%nat)) as Hrel.
    destruct contact_ring_initial as (o0 & E0 & Hd0). rewrite E0 in Hrel.
    destruct Hrel as (o1 & E1 & Ht). unfold tag_kept in Ht. rewrite Hd0 in Ht.
    destruct (frame_ring_pulse 1016 1 (fun _ => None) (run tr1 initial_state)
                0 o1 _ E1 Ht) as (o' & Eo' & _ & Hge).
    split.
    + destruct (frame_facts 1016 1 (fun _ => None) (run tr1 initial_state))
        as (_ & _ & _ & _ & _ & Hc & _).
      rewrite Hc. unfold tr1.
      assert (Hne : 1%Z <> app_currentSection initial_state) by discriminate.
      rewrite (run_navigate 0 1 About
                 (mkPose (mkVec3 (-8) 2 12) (mkVec3 (-8) 0 0)) _ initial_state
                 eq_refl eq_refl Hne).
      rewrite run_tick. cbn [run].
      destruct (gsap_tick_frame 1000
                  (navigated 0 1 About (mkPose (mkVec3 (-8) 2 12) (mkVec3 (-8) 0 0))
                             initial_state)) as (_ & _ & Hc' & _).
      rewrite Hc'. reflexivity.
    + exists o'. split; [exact Eo'|]. split; [exact Hge|].
      intros Hz. rewrite Hz in Hge. simpl in Hge. lra.
Qed.

(** ** Before the first navigation: what is visible *)

Lemma length_about_constructed : length createAboutSection = 7%nat.
Proof. reflexivity. Qed.

Lemma length_skills_constructed : length createSkillsSection = 19%nat.
Proof. reflexivity. Qed.

Lemma length_contact_constructed : length createContactSection = 6%nat.
Proof. reflexivity. Qed.

(** The [delay] tag is carried by the five rings of the Contact section,
    ring [n] with the value [n * 0.2], and by no other primitive. *)
Lemma contact_rings_tagged n o :
  nth_error createContactSection n = Some o ->
  ((n < 5)%nat -> delay (data o) = Some (INR n * 0.2)) /\
  (delay (data o) <> None -> (n < 5)%nat).
Proof.
  intros H. unfold createContactSection in H.
  destruct (Nat.lt_ge_cases n 5) as [Hn|Hn].
  - rewrite nth_error_app1 in H by (rewrite length_map, length_seq; exact Hn).
    rewrite nth_error_map in H.
    rewrite (nth_error_nth' _ O) in H by (rewrite length_seq; exact Hn).
    rewrite seq_nth in H by exact Hn. simpl in H. inversion H; subst; simpl.
    split; [intros _; reflexivity|intros _; exact Hn].
  - rewrite nth_error_app2 in H by (rewrite length_map, length_seq; exact Hn).
    rewrite length_map, length_seq in H.
    destruct (n - 5)%nat as [|j]; cbn in H.
    + inversion H; subst; simpl. split; [lia|intros F; now contradiction F].
    + destruct j; discriminate.
Qed.

Lemma delay_tagged_iff c n o :
  nth_error (get_section c createAllSections) n = Some o ->
  (delay (data o) <> None <-> c = Contact /\ (n < 5)%nat).
Proof.
  intros H. destruct c; cbn [get_section createAllSections hero about projects skills contact] in H.
  - apply nth_error_In, hero_constructed in H. destruct H as [_ Hd].
    split; [intros F; now contradiction F|intros [F _]; discriminate].
  - apply nth_error_In, about_constructed in H. destruct H as [_ Hd].
    split; [intros F; now contradiction F|intros [F _]; discriminate].
  - apply nth_error_In, projects_constructed in H. destruct H as [_ Hd].
    split; [intros F; now contradiction F|intros [F _]; discriminate].
  - apply nth_error_In, skills_constructed in H. destruct H as [_ Hd].
    split; [intros F; now contradiction F|intros [F _]; discriminate].
  - destruct (contact_rings_tagged n o H) as [H1 H2]. split.
    + intros Hd. split; [reflexivity|exact (H2 Hd)].
    + intros [_ Hn]. rewrite (H1 Hn). discriminate.
Qed.

Lemma passive_step_tag_kept now e s :
  passive e -> objs_rel tag_kept (objects s) (objects (state_of (step now e s))).
Proof.
  intros He. destruct e; try contradiction.
  - cbn [step state_of]. apply objs_rel_refl. reflexivity.
  - apply gsap_tick_tag_kept.
  - destruct (frame_facts now elapsedTime rc s) as (_ & Ho & _).
    apply (objs_rel_impl anim_rel); [exact anim_rel_tag_kept|exact Ho].
Qed.

Lemma passive_run_tag_kept tr :
  forall s,
    Forall (fun te => passive (snd te)) tr ->
    objs_rel tag_kept (objects s) (objects (run tr s)).
Proof.
  induction tr as [|[now e] tr IH]; intros s Hp; [apply objs_rel_refl; reflexivity|].
  inversion Hp as [|? ? He Htr]; subst. cbn [snd] in He. rewrite run_cons.
  eapply objs_rel_trans;
    [exact tag_kept_trans|apply passive_step_tag_kept, He|apply IH, Htr].
Qed.

Lemma passive_run_keeps_scene tr :
  forall s,
    Forall (fun te => passive (snd te)) tr ->
    tweens s = [] ->
    (forall r o, obj_at r (objects s) = Some o -> delay (data o) = None -> scale o = vone) ->
    tweens (run tr s) = [] /\
    forall r o, obj_at r (objects (run tr s)) = Some o ->
                delay (data o) = None -> scale o = vone.
Proof.
  induction tr as [|[now e] tr IH]; intros s Hp Ht Hs; [simpl; auto|].
  inversion Hp as [|? ? He Htr]; subst. simpl in He.
  destruct (passive_step_keeps_scene now e s He Ht Hs) as [Ht' Hs'].
  cbn [run]. now apply IH.
Qed.

(** C10 (amended) — Immediately after construction the scene has its 49
    primitives (10, 7, 7, 19 and 6 in the five sections), every one of them
    has scale (1,1,1) and no tween exists: the page starts with all
    sections visible at once.  As long as no navigation is requested (only
    engine ticks, rendered frames and pointer moves occur) no tween is
    created and every primitive other than the five Contact rings is still
    there with scale (1,1,1).  The five Contact rings, the primitives with
    a [delay] tag, are the exception: every rendered frame, from the first
    one on, sets the scale of ring [n] to the uniform value
    [1 + sin(2*T - n*0.2) * 0.2]. *)
Theorem initial_scene_all_visible :
  (length (hero createAllSections) = 10%nat /\ length (about createAllSections) = 7%nat /\
   length (projects createAllSections) = 7%nat /\
   length (skills createAllSections) = 19%nat /\
   length (contact createAllSections) = 6%nat) /\
  (forall c n o,
      nth_error (get_section c createAllSections) n = Some o ->
      scale o = vone /\ (delay (data o) <> None <-> c = Contact /\ (n < 5)%nat)) /\
  objects initial_state = createAllSections /\
  tweens initial_state = [] /\
  (forall tr,
      Forall (fun te => passive (snd te)) tr ->
      tweens (run tr initial_state) = [] /\
      (forall c n o0,
          nth_error (get_section c createAllSections) n = Some o0 ->
          exists o,
            nth_error (get_section c (objects (run tr initial_state))) n = Some o /\
            (~ (c = Contact /\ (n < 5)%nat) -> scale o = vone)) /\
      (forall now e rc n,
          (n < 5)%nat ->
          exists o,
            nth_error (contact (objects (run (tr ++ [(now, Frame e rc)]) initial_state))) n
            = Some o /\
            scale o = mkVec3 (1 + sin (e * 2 - INR n * 0.2) * 0.2)
                             (1 + sin (e * 2 - INR n * 0.2) * 0.2)
                             (1 + sin (e * 2 - INR n * 0.2) * 0.2))).
Proof.
  split; [repeat split; reflexivity|].
  split; [intros c n o H; split; [exact (constructed_scale c n o H)|
                                  exact (delay_tagged_iff c n o H)]|].
  split; [reflexivity|]. split; [reflexivity|].
  intros tr Hp.
  destruct (passive_run_keeps_scene tr initial_state Hp eq_refl) as [Ht Hs].
  { intros [c n] o E _. exact (constructed_scale c n o E). }
  pose proof (passive_run_tag_kept tr initial_state Hp) as Hrel.
  change (objects initial_state) with createAllSections in Hrel.
  split; [exact Ht|]. split.
  - intros c n o0 E0. specialize (Hrel (c, n)). unfold obj_at in Hrel at 1.
    cbn [fst snd] in Hrel. rewrite E0 in Hrel. destruct Hrel as (o & Eo & Htag).
    exists o. split; [exact Eo|]. intros Hno.
    apply (Hs (c, n) o Eo). unfold tag_kept in Htag. rewrite Htag.
    destruct (delay (data o0)) as [d|] eqn:Ed; [|reflexivity].
    exfalso. apply Hno. apply (delay_tagged_iff c n o0 E0). rewrite Ed. discriminate.
  - intros now e rc n Hn.
    destruct (nth_error createContactSection n) as [o0|] eqn:E0.
    2:{ apply nth_error_None in E0. rewrite length_contact_constructed in E0. lia. }
    destruct (contact_rings_tagged n o0 E0) as [Hd _]. specialize (Hd Hn).
    specialize (Hrel (Contact, n)). unfold obj_at in Hrel at 1.
    cbn [fst snd get_section createAllSections contact] in Hrel. rewrite E0 in Hrel.
    destruct Hrel as (o1 & E1 & Htag). unfold tag_kept in Htag. rewrite Hd in Htag.
    destruct (frame_ring_pulse now e rc (run tr initial_state) n o1 _ E1 Htag)
      as (o' & Eo' & Hsc & _).
    exists o'. rewrite run_app. split; [exact Eo'|exact Hsc].
Qed.

Lemma initial_scene_all_visible_witness :
  exists o,
    nth_error
      (get_section About
         (objects (run [(0, Frame 0 (fun _ => None)); (16, Tick)]%Z initial_state))) 1
    = Some o /\
    scale o = vone.
Proof.
  destruct initial_scene_all_visible as (_ & _ & _ & _ & H).
  destruct (H [(0, Frame 0 (fun _ => None)); (16, Tick)]%Z) as (_ & H2 & _);
    [repeat constructor|].
  destruct (H2 About 1%nat _ eq_refl) as (o & E & Hs).
  exists o. split; [exact E|]. apply Hs. intros [F _]. discriminate.
Defined.

Lemma contact_ring_one_initial :
  exists o,
    obj_at (Contact, 1%nat) (objects initial_state) = Some o /\
    delay (data o) = Some (INR 1 * 0.2).
Proof. eexists. split; reflexivity. Qed.

(** C10 as stated fails for the Contact rings.  The first rendered frame,
    at scene time 0, which the initialisation runs before any navigation
    can be requested, sets the scale of the second Contact ring to
    [1 + sin(0*2 - 0.2) * 0.2], which is less than 1: before the first
    navigation request not every primitive has scale (1,1,1). *)
Lemma contact_ring_rescaled_by_first_frame :
  let s := run [(0, Frame 0 (fun _ => None))]%Z initial_state in
  exists o,
    obj_at (Contact, 1%nat) (objects s) = Some o /\
    vx (scale o) = 1 + sin (0 * 2 - INR 1 * 0.2) * 0.2 /\
    vx (scale o) < 1 /\
    scale o <> vone.
Proof.
  cbv zeta.
  change (run [(0, Frame 0 (fun _ => None))]%Z initial_state)
    with (state_of (step 0 (Frame 0 (fun _ => None)) initial_state)).
  destruct contact_ring_one_initial as (o0 & E0 & Hd0).
  destruct (frame_ring_pulse 0 0 (fun _ => None) initial_state 1 o0 _ E0 Hd0)
    as (o' & Eo' & Hsc & _).
  assert (Hneg : sin (0 * 2 - INR 1 * 0.2) < 0).
  { change (INR 1) with 1. replace (0 * 2 - 1 * 0.2) with (Ropp 0.2) by lra.
    rewrite sin_neg.
    assert (Hpos : 0 < sin 0.2) by (apply sin_gt_0; [lra|pose proof PI2_1; lra]).
    lra. }
  assert (Hx : vx (scale o') = 1 + sin (0 * 2 - INR 1 * 0.2) * 0.2)
    by (rewrite Hsc; reflexivity).
  exists o'. split; [exact Eo'|]. split; [exact Hx|]. split; [lra|].
  intros F. rewrite F in Hx. cbn [vx vone] in Hx. lra.
Qed.

(** ** The round trip Hero, Projects, Hero *)

(** C3 (amended) — Start from any state in which Hero is the current
    section, the scene is the constructed one (the primitives as built,
    wherever the animation has brought them), the pointer is at the centre,
    and no tween still pending ends later than the tweens of the return
    navigation will (scale tweens of Hero and Projects primitives by
    [t1 + 500], camera tweens by [t1 + 1500]).  Navigate to Projects at
    [t0] and back to Hero at [t1], at least 300 ms later (the stagger of
    the last Projects show tween), with any engine ticks and rendered
    frames in between; once the engine has ticked at some
    [T >= t1 + 1500], and whatever ticks and frames follow, the camera
    position and look-at target equal the stored Hero pose, every Hero
    primitive has scale 1 and every Projects primitive has scale 0. *)
Theorem hero_projects_hero_settles
    (s : state) (t0 t1 T : Z) (fr1 fr2 fr3 : list (Z * event)) :
  app_currentSection s = 0%Z ->
  objs_rel tag_kept createAllSections (objects s) ->
  mousePosX s = 0 -> mousePosY s = 0 ->
  (forall c k, c = Hero \/ c = Projects ->
               ends_by (TScale (c, k)) (t1 + 500) (tweens s)) ->
  ends_by TCameraPosition (t1 + 1500) (tweens s) ->
  ends_by TTargetPosition (t1 + 1500) (tweens s) ->
  Forall (fun te => is_frame (snd te)) fr1 ->
  Forall (fun te => is_frame (snd te)) fr2 ->
  Forall (fun te => is_frame (snd te)) fr3 ->
  (t0 + 300 <= t1)%Z -> (t1 + 1500 <= T)%Z ->
  let s' :=
    run ((t0, Navigate 2) :: fr1 ++ (t1, Navigate 0) :: fr2 ++ (T, Tick) :: fr3) s in
  app_currentSection s' = 0%Z /\ currentSection s' = 0%Z /\
  js_index sectionPositions 0 = Some (mkPose (camera_position s') (targetPosition s')) /\
  length (hero (objects s')) = 10%nat /\
  (forall o, In o (hero (objects s')) -> scale o = vone) /\
  length (projects (objects s')) = 7%nat /\
  (forall o, In o (projects (objects s')) -> scale o = vzero).
Proof.
  intros Ha H0 Hx Hy Hsc Hcp Htp Hf1 Hf2 Hf3 H01 H1T. cbv zeta.
  set (s1 := navigated t0 2 Projects projectsPose s).
  set (sA := run fr1 s1).
  set (s2 := navigated t1 0 Hero heroPose sA).
  set (sB := run fr2 s2).
  assert (HA : app_currentSection sA = 2%Z).
  { unfold sA. destruct (frames_keep_indices fr1 s1 Hf1) as (-> & _). reflexivity. }
  assert (Hrun : run ((t0, Navigate 2) :: fr1 ++ (t1, Navigate 0) :: fr2 ++ (T, Tick) :: fr3)
                     s = run ((T, Tick) :: fr3) sB).
  { assert (Hne1 : 2%Z <> app_currentSection s) by (rewrite Ha; discriminate).
    assert (Hne2 : 0%Z <> app_currentSection sA) by (rewrite HA; discriminate).
    rewrite (run_navigate t0 2 Projects projectsPose _ s eq_refl eq_refl Hne1).
    rewrite run_app.
    rewrite (run_navigate t1 0 Hero heroPose _ sA eq_refl eq_refl Hne2).
    rewrite run_app. reflexivity. }
  assert (Hall : Forall (fun te => nav_or_frame (snd te))
                   ((t0, Navigate 2) :: fr1 ++ (t1, Navigate 0) :: fr2 ++ (T, Tick) :: fr3)).
  { constructor; [exact I|]. apply Forall_app. split; [now apply is_frame_nav_or_frame|].
    constructor; [exact I|]. apply Forall_app. split; [now apply is_frame_nav_or_frame|].
    constructor; [exact I|now apply is_frame_nav_or_frame]. }
  pose proof (run_tag_kept _ s Hall) as Hrel.
  rewrite Hrun in Hrel. rewrite Hrun.
  assert (HLh : length (get_section Hero (objects s)) = 10%nat).
  { rewrite (objs_rel_length tag_kept _ _ Hero H0). exact length_hero_constructed. }
  assert (HLp : length (get_section Projects (objects s)) = 7%nat).
  { rewrite (objs_rel_length tag_kept _ _ Projects H0). exact length_projects_constructed. }
  assert (HfT : Forall (fun te => is_frame (snd te)) ((T, Tick) :: fr3))
    by (constructor; [exact I|exact Hf3]).
  (* scales *)
  assert (Hscale : forall c' k o,
             (c' = Hero \/ c' = Projects) ->
             nth_error (get_section c' (objects (run ((T, Tick) :: fr3) sB))) k = Some o ->
             scale o = if section_eq_dec c' Hero then vone else vzero).
  { intros c' k o Hc' Ho.
    specialize (Hrel (c', k)). unfold obj_at in Hrel. cbn [fst snd] in Hrel.
    rewrite Ho in Hrel.
    destruct (nth_error (get_section c' (objects s)) k) as [o0|] eqn:E0;
      [|discriminate].
    destruct Hrel as (o' & Eo' & _). inversion Eo'; subst o'.
    assert (Hd0 : delay (data o0) = None).
    { pose proof (H0 (c', k)) as Hc0. unfold obj_at in Hc0. cbn [fst snd] in Hc0.
      rewrite E0 in Hc0.
      destruct (nth_error (get_section c' createAllSections) k) as [oc|] eqn:Ec;
        [|discriminate].
      destruct Hc0 as (o1 & E1 & Htag). inversion E1; subst o1.
      unfold tag_kept in Htag. rewrite Htag.
      apply nth_error_In in Ec. destruct Hc' as [-> | ->]; simpl in Ec.
      - now apply hero_constructed.
      - now apply projects_constructed. }
    assert (Hk : (k < length (get_section c' (objects s)))%nat)
      by (apply nth_error_Some; congruence).
    assert (Hu1 : undisturbed (TScale (c', k)) s1) by (exists o0; auto).
    assert (Hb1 : ends_by (TScale (c', k)) (t1 + 500) (tweens s1)).
    { unfold s1. cbn [tweens navigated].
      apply ends_by_app. split.
      - apply ends_by_app. split; [|apply ends_by_hides; lia].
        apply ends_by_app. split; [apply Hsc; exact Hc'|].
        apply ends_by_none. reflexivity.
      - apply ends_by_shows. intros ->. rewrite HLp in Hk. lia. }
    destruct (frames_keep (TScale (c', k)) vone fr1 s1 Hf1 Hu1) as (HuA & _ & _ & HkA).
    fold sA in HuA, HkA.
    pose proof (HkA _ Hb1) as HbA'.
    destruct (navigation_scale_course sA t1 0 Hero heroPose fr2 c' k Hf2 HuA HbA')
      as (HuB & HsB & HbB).
    fold s2 sB in HuB, HsB, HbB.
    assert (Hb : (t1 + 500 + (if section_eq_dec c' Hero then 50 * Z.of_nat k else 0) <= T)%Z).
    { destruct (section_eq_dec c' Hero) as [->|_]; [|lia]. rewrite HLh in Hk. lia. }
    pose proof (tick_then_frames _ _ _ T fr3 sB HuB HsB HbB Hb Hf3) as Hr.
    rewrite <- Hr. symmetry. apply read_scale. exact Ho. }
  (* camera *)
  assert (Hcam : camera_position (run ((T, Tick) :: fr3) sB) = pose_position heroPose /\
                 targetPosition (run ((T, Tick) :: fr3) sB) = pose_lookAt heroPose).
  { assert (Hu1 : undisturbed TCameraPosition s1) by (split; assumption).
    assert (Hc1 : ends_by TCameraPosition (t1 + 1500) (tweens s1)).
    { unfold s1. cbn [tweens navigated].
      apply ends_by_app. split.
      - apply ends_by_app. split; [|apply ends_by_hides; lia].
        apply ends_by_app. split; [exact Hcp|apply ends_by_camera; lia].
      - apply ends_by_none. apply last_on_shows_other. discriminate. }
    assert (Hc1' : ends_by TTargetPosition (t1 + 1500) (tweens s1)).
    { unfold s1. cbn [tweens navigated].
      apply ends_by_app. split.
      - apply ends_by_app. split; [|apply ends_by_hides; lia].
        apply ends_by_app. split; [exact Htp|apply ends_by_camera; lia].
      - apply ends_by_none. apply last_on_shows_other. discriminate. }
    destruct (frames_keep TCameraPosition vone fr1 s1 Hf1 Hu1) as (HuA & _ & _ & HkA).
    destruct (frames_keep TTargetPosition vone fr1 s1 Hf1 I) as (_ & _ & _ & HkA').
    fold sA in HuA, HkA, HkA'.
    destruct (navigation_camera_course sA t1 0 Hero heroPose fr2 Hf2 HuA
                (HkA _ Hc1) (HkA' _ Hc1'))
      as (HuB & HsB & HbB & HsB' & HbB').
    fold s2 sB in HuB, HsB, HbB, HsB', HbB'.
    split.
    - exact (tick_then_frames TCameraPosition _ _ T fr3 sB HuB HsB HbB H1T Hf3).
    - exact (tick_then_frames TTargetPosition _ _ T fr3 sB I HsB' HbB' H1T Hf3). }
  destruct Hcam as [Hcp' Htp'].
  destruct (frames_keep_indices _ sB HfT) as (Ha' & Hc & _).
  destruct (frames_keep_indices fr2 s2 Hf2) as (Ha2 & Hc2 & _). fold sB in Ha2, Hc2.
  split; [now rewrite Ha', Ha2|]. split; [now rewrite Hc, Hc2|].
  split; [rewrite Hcp', Htp'; reflexivity|].
  pose proof (objs_rel_length _ _ _ Hero Hrel) as HLh'. cbn [get_section] in HLh'.
  pose proof (objs_rel_length _ _ _ Projects Hrel) as HLp'. cbn [get_section] in HLp'.
  cbn [get_section] in HLh, HLp.
  split; [rewrite HLh'; exact HLh|].
  split.
  { intros o Hin. apply In_nth_error in Hin. destruct Hin as (k & Hk).
    apply (Hscale Hero k o); [now left|exact Hk]. }
  split; [rewrite HLp'; exact HLp|].
  intros o Hin. apply In_nth_error in Hin. destruct Hin as (k & Hk).
  apply (Hscale Projects k o); [now right|exact Hk].
Qed.

Lemma hero_projects_hero_settles_witness :
  let s' :=
    run ((0, Navigate 2) :: [(16, Tick)] ++ (300, Navigate 0) :: [] ++ (1800, Tick) :: [])%Z
        initial_state in
  app_currentSection s' = 0%Z /\ currentSection s' = 0%Z /\
  js_index sectionPositions 0 = Some (mkPose (camera_position s') (targetPosition s')) /\
  length (hero (objects s')) = 10%nat /\
  (forall o, In o (hero (objects s')) -> scale o = vone) /\
  length (projects (objects s')) = 7%nat /\
  (forall o, In o (projects (objects s')) -> scale o = vzero).
Proof.
  apply (hero_projects_hero_settles initial_state 0 300 1800 [(16, Tick)]%Z [] []).
  - reflexivity.
  - change (objects initial_state) with createAllSections.
    apply objs_rel_refl. reflexivity.
  - reflexivity.
  - reflexivity.
  - intros c k _. exact (Forall_nil _).
  - exact (Forall_nil _).
  - exact (Forall_nil _).
  - repeat constructor.
  - constructor.
  - constructor.
  - lia.
  - lia.
Defined.

(** Two navigations at the same instant, Projects then Hero, followed by
    engine ticks at 600 ms and 2000 ms, from any state in Hero with no tween
    in flight: the seventh Projects primitive ends at scale 1. *)
Lemma rapid_round_trip_general (s : state) :
  app_currentSection s = 0%Z -> tweens s = [] ->
  undisturbed (TScale (Projects, 6%nat)) s ->
  let s' := run [(0, Navigate 2); (0, Navigate 0); (600, Tick); (2000, Tick)]%Z s in
  app_currentSection s' = 0%Z /\ currentSection s' = 0%Z /\
  last_on (TScale (Projects, 6%nat)) (tweens s') = None /\
  exists o, obj_at (Projects, 6%nat) (objects s') = Some o /\ scale o = vone.
Proof.
  intros Ha Ht Hu0. cbv zeta.
  set (s1 := navigated 0 2 Projects projectsPose s).
  set (s2 := navigated 0 0 Hero heroPose s1).
  set (p := TScale (Projects, 6%nat)).
  assert (Hrun : run [(0, Navigate 2); (0, Navigate 0); (600, Tick); (2000, Tick)]%Z s
                 = gsap_tick 2000 (gsap_tick 600 s2)).
  { assert (Hne1 : 2%Z <> app_currentSection s) by (rewrite Ha; discriminate).
    assert (Hne2 : 0%Z <> app_currentSection s1) by discriminate.
    rewrite (run_navigate 0 2 Projects projectsPose _ s eq_refl eq_refl Hne1).
    rewrite (run_navigate 0 0 Hero heroPose _ s1 eq_refl eq_refl Hne2).
    rewrite !run_tick. reflexivity. }
  rewrite Hrun.
  assert (Hu2 : undisturbed p s2) by exact Hu0.
  assert (Hv0 : obj_at (Projects, 6%nat) (objects s) <> None).
  { destruct Hu0 as (o & -> & _). discriminate. }
  assert (Hk : (6 < length (get_section Projects (objects s)))%nat)
    by (apply nth_error_Some; exact Hv0).
  assert (He0 : ends_by (TScale (Projects, 6%nat)) (0 + 500) (tweens s))
    by (rewrite Ht; constructor).
  destruct (navigated_scale 0 2 Projects projectsPose s Projects 6 Hv0 He0) as [_ He1].
  fold s1 in He1.
  destruct (section_eq_dec Projects Projects) as [_|F]; [|contradiction].
  assert (He2 : ends_by p 800 (tweens s2)).
  { unfold s2. cbn [tweens navigated].
    apply ends_by_app. split; [|apply ends_by_shows; discriminate].
    apply ends_by_app. split; [|apply ends_by_hides; lia].
    apply ends_by_app. split; [|apply ends_by_none; reflexivity].
    eapply ends_by_weaken; [|exact He1]. simpl. lia. }
  set (f := fun w => negb (done 600 w)).
  assert (Hlast : last_on p (filter f (tweens s2)) = Some (showTween 0 6 (Projects, 6%nat))).
  { unfold s2. cbn [tweens navigated]. rewrite !filter_app, last_on_app.
    rewrite (last_on_none p (filter f (mapi (showTween 0) (refs_of Hero (objects s1)) 0))).
    2:{ intros u Hin. apply filter_In in Hin. destruct Hin as [Hin _].
        destruct (in_shows _ _ _ _ Hin) as (j & _ & ->). discriminate. }
    rewrite last_on_app.
    rewrite (last_on_none p (filter f (map (hideTween 0) (all_refs (objects s1))))).
    2:{ intros u Hin. apply filter_In in Hin. destruct Hin as [Hin Hfu].
        apply in_map_iff in Hin. destruct Hin as (r & <- & _). discriminate. }
    rewrite last_on_app.
    rewrite (last_on_none p (filter f (cameraTweens 0 heroPose))).
    2:{ intros u Hin. apply filter_In in Hin. destruct Hin as [Hin _].
        destruct Hin as [<-|[<-|[]]]; discriminate. }
    unfold s1. cbn [tweens navigated]. rewrite !filter_app, last_on_app.
    rewrite (last_on_filter p f _ (showTween 0 6 (Projects, 6%nat)));
      [reflexivity| |reflexivity].
    apply last_on_shows_same. exact Hk. }
  set (s3 := gsap_tick 600 s2).
  assert (Hl3 : exists w', last_on p (tweens s3) = Some w' /\
                           erase w' = erase (showTween 0 6 (Projects, 6%nat))).
  { assert (H : last_on p (map erase (tweens s3)) =
                Some (erase (showTween 0 6 (Projects, 6%nat)))).
    { unfold s3. rewrite gsap_tick_tweens, kept_erase, last_on_erase.
      fold f. now rewrite Hlast. }
    rewrite last_on_erase in H.
    destruct (last_on p (tweens s3)) as [w'|]; [|discriminate].
    exists w'. split; [reflexivity|]. simpl in H. congruence. }
  destruct Hl3 as (w' & Hl3 & Ew).
  destruct (erase_to _ _ Ew) as [Hto Hend].
  assert (He3 : ends_by p 800 (tweens s3)).
  { unfold s3. rewrite gsap_tick_tweens. now apply renderAll_ends_by. }
  assert (Hs3 : settling p vone s3).
  { unfold settling. rewrite Hl3. split; [exact Hto|]. rewrite Hend.
    replace (tw_end (showTween 0 6 (Projects, 6%nat))) with 800%Z by reflexivity.
    exact He3. }
  assert (Hu3 : undisturbed p s3).
  { destruct (gsap_tick_frame 600 s2) as (_ & _ & _ & Hx & Hy & _).
    apply (tag_kept_undisturbed p s2);
      [apply gsap_tick_tag_kept|exact Hx|exact Hy|exact Hu2]. }
  assert (H800 : (800 <= 2000)%Z) by lia.
  destruct (gsap_tick_settled p vone 800 2000 s3 (undisturbed_valid _ _ Hu3) Hs3 He3 H800)
    as [Hnone Hread].
  assert (Hu4 : undisturbed p (gsap_tick 2000 s3)).
  { destruct (gsap_tick_frame 2000 s3) as (_ & _ & _ & Hx & Hy & _).
    apply (tag_kept_undisturbed p s3);
      [apply gsap_tick_tag_kept|exact Hx|exact Hy|exact Hu3]. }
  destruct (gsap_tick_frame 2000 s3) as (Ha4 & _ & Hc4 & _).
  destruct (gsap_tick_frame 600 s2) as (Ha3 & _ & Hc3 & _). fold s3 in Ha3, Hc3.
  split; [rewrite Ha4, Ha3; reflexivity|]. split; [rewrite Hc4, Hc3; reflexivity|].
  split; [exact Hnone|].
  destruct Hu4 as (o & Eo & _). exists o.
  split; [exact Eo|]. rewrite <- Hread. symmetry. exact (read_scale _ _ _ Eo).
Qed.

(** C3 as stated fails when the two navigations follow each other
    directly.  Navigate to Projects and back to Hero at the same instant,
    let the engine tick at 600 ms and at 2000 ms: Hero is the current
    section, no tween drives the last Projects primitive (the network
    lines) any more, and it has scale (1,1,1).  Its show tween from the
    first navigation, staggered by 300 ms, ends at 800 ms, after the hide
    tween of the second navigation (500 ms), and nothing cancels it. *)
Lemma rapid_round_trip_leaves_projects_visible :
  let s' :=
    run [(0, Navigate 2); (0, Navigate 0); (600, Tick); (2000, Tick)]%Z initial_state in
  app_currentSection s' = 0%Z /\ currentSection s' = 0%Z /\
  last_on (TScale (Projects, 6%nat)) (tweens s') = None /\
  exists o,
    obj_at (Projects, 6%nat) (objects s') = Some o /\
    scale o = vone /\ scale o <> vzero.
Proof.
  assert (Hu : undisturbed (TScale (Projects, 6%nat)) initial_state).
  { eexists. split; reflexivity. }
  destruct (rapid_round_trip_general initial_state eq_refl eq_refl Hu)
    as (H1 & H2 & H3 & o & H4 & H5).
  cbv zeta. split; [exact H1|]. split; [exact H2|]. split; [exact H3|].
  exists o. split; [exact H4|]. split; [exact H5|].
  rewrite H5. apply vone_not_vzero.
Qed.

(** * Further properties of the sources *)

(** ** Membership and animation tags are fixed after construction *)

Lemma tags_kept_refl o : tags_kept o o.
Proof. reflexivity. Qed.

Lemma tags_kept_trans a b c : tags_kept a b -> tags_kept b c -> tags_kept a c.
Proof. unfold tags_kept. congruence. Qed.

Lemma tags_kept_data o o' : data o' = data o -> tags_kept o o'.
Proof. unfold tags_kept. now intros ->. Qed.

Lemma tags_kept_fields o o' :
  tags_kept o o' ->
  angle (data o') = angle (data o) /\ radius (data o') = radius (data o) /\
  orbit (data o') = orbit (data o) /\ speed (data o') = speed (data o) /\
  floatOffset (data o') = floatOffset (data o) /\ hoverY (data o') = hoverY (data o) /\
  delay (data o') = delay (data o) /\ initialScale (data o') = initialScale (data o).
Proof.
  unfold tags_kept. intros H.
  pose proof (f_equal angle H). pose proof (f_equal radius H).
  pose proof (f_equal orbit H). pose proof (f_equal speed H).
  pose proof (f_equal floatOffset H). pose proof (f_equal hoverY H).
  pose proof (f_equal delay H). pose proof (f_equal initialScale H).
  repeat split; assumption.
Qed.

Lemma update_tags_kept e t : objs_rel tags_kept t (update e t).
Proof.
  intros r. rewrite obj_at_update. destruct (obj_at r t) as [o|]; [|reflexivity].
  simpl. eexists. split; [reflexivity|]. apply tags_kept_data, updateAt_data.
Qed.

Lemma clearHover_tags_kept s : objs_rel tags_kept (objects s) (objects (clearHover s)).
Proof.
  unfold clearHover.
  destruct (hoveredObject s) as [h|]; [|apply objs_rel_refl, tags_kept_refl].
  simpl. apply objs_rel_upd; [exact tags_kept_refl|].
  intros o. destruct (mat o); [|reflexivity].
  destruct (originalEmissiveIntensity (data o)); reflexivity.
Qed.

Lemma enterHover_tags_kept r s : objs_rel tags_kept (objects s) (objects (enterHover r s)).
Proof.
  eapply objs_rel_trans; [exact tags_kept_trans|apply clearHover_tags_kept|].
  unfold enterHover. simpl. apply objs_rel_upd; [exact tags_kept_refl|].
  intros o. destruct (mat o) as [m|]; [|reflexivity].
  destruct (emissiveIntensity m); reflexivity.
Qed.

Lemma handleObjectHover_tags_kept r s :
  objs_rel tags_kept (objects s) (objects (handleObjectHover r s)).
Proof.
  unfold handleObjectHover.
  destruct (hoveredObject s) as [h|]; [|apply enterHover_tags_kept].
  destruct (objref_eq_dec h r);
    [apply objs_rel_refl, tags_kept_refl|apply enterHover_tags_kept].
Qed.

Lemma handleObjectClick_tags_kept now r s :
  objs_rel tags_kept (objects s) (objects (handleObjectClick now r s)).
Proof.
  unfold handleObjectClick.
  destruct (obj_at r (objects s)) as [o|]; [|apply objs_rel_refl, tags_kept_refl].
  simpl. apply objs_rel_upd; [exact tags_kept_refl|]. intros o'. reflexivity.
Qed.

Lemma checkIntersections_tags_kept rc b now s :
  objs_rel tags_kept (objects s) (objects (state_of (checkIntersections rc b now s))).
Proof.
  unfold checkIntersections.
  destruct (js_index sectionNames (currentSection s)) as [c|];
    [|apply objs_rel_refl, tags_kept_refl].
  destruct (rc (get_section c (objects s))) as [n|]; [|apply clearHover_tags_kept].
  destruct (n <? length (get_section c (objects s)))%nat; [|apply clearHover_tags_kept].
  destruct b; simpl;
    [apply handleObjectClick_tags_kept|apply handleObjectHover_tags_kept].
Qed.

Lemma restore_tags_kept due :
  forall t,
    objs_rel tags_kept t
      (fold_left (fun (t : objectTable) (p : pulse) =>
                    upd_obj (pl_object p) (set_scale (pl_originalScale p)) t) due t).
Proof.
  induction due as [|p r IH]; intros t; [apply objs_rel_refl, tags_kept_refl|].
  simpl. eapply objs_rel_trans; [exact tags_kept_trans| |apply IH].
  apply objs_rel_upd; [exact tags_kept_refl|]. intros o. reflexivity.
Qed.

Lemma runPulses_tags_kept now s : objs_rel tags_kept (objects s) (objects (runPulses now s)).
Proof. unfold runPulses. simpl. apply restore_tags_kept. Qed.

Lemma write_tags_kept p v s : objs_rel tags_kept (objects s) (objects (write p v s)).
Proof.
  destruct p; simpl; try (apply objs_rel_refl, tags_kept_refl).
  apply objs_rel_upd; [exact tags_kept_refl|]. intros o. reflexivity.
Qed.

Lemma renderAll_tags_kept now ws :
  forall s, objs_rel tags_kept (objects s) (objects (fst (renderAll now ws s))).
Proof.
  induction ws as [|w r IH]; intros s; [apply objs_rel_refl, tags_kept_refl|].
  rewrite renderAll_fst_cons.
  destruct (render1 now w (read (tw_target w) s)) as [[v k]|]; [|apply IH].
  eapply objs_rel_trans; [exact tags_kept_trans|apply write_tags_kept|apply IH].
Qed.

Lemma gsap_tick_tags_kept now s :
  objs_rel tags_kept (objects s) (objects (gsap_tick now s)).
Proof.
  pose proof (renderAll_tags_kept now (tweens s) s) as H.
  unfold gsap_tick. destruct (renderAll now (tweens s) s) as [s' ws]. exact H.
Qed.

Lemma wheelStep_objects now d s : objects (state_of (wheelStep now d s)) = objects s.
Proof.
  unfold wheelStep.
  destruct (Rltb 0 d && (app_currentSection s <? 4)%Z);
    [apply navigateToSection_objects|].
  destruct (Rltb d 0 && (0 <? app_currentSection s)%Z);
    [apply navigateToSection_objects|reflexivity].
Qed.

Lemma runScrollTimeout_objects now s :
  objects (state_of (runScrollTimeout now s)) = objects s.
Proof.
  unfold runScrollTimeout. destruct (scrollTimeout s) as [[due d]|]; [|reflexivity].
  destruct (due <=? now)%Z; [|reflexivity].
  now rewrite wheelStep_objects.
Qed.

Lemma step_tags_kept now e s :
  objs_rel tags_kept (objects s) (objects (state_of (step now e s))).
Proof.
  destruct e as [i|d| |w x y|w rc touches|rc| | |e rc]; cbn [step state_of].
  - rewrite navigateToSection_objects. apply objs_rel_refl, tags_kept_refl.
  - apply objs_rel_refl, tags_kept_refl.
  - rewrite runScrollTimeout_objects. apply objs_rel_refl, tags_kept_refl.
  - apply objs_rel_refl, tags_kept_refl.
  - unfold onTouchStart. destruct touches as [|[x y] rest];
      [apply objs_rel_refl, tags_kept_refl|].
    apply (checkIntersections_tags_kept rc false now
             (set_mouse (normalizeX w x) (normalizeY w y) s)).
  - apply checkIntersections_tags_kept.
  - apply runPulses_tags_kept.
  - apply gsap_tick_tags_kept.
  - unfold animate.
    set (s3 := cameraUpdate
                 (set_objects (update e (objects (animateRipples now s)))
                              (animateRipples now s))).
    eapply objs_rel_trans;
      [exact tags_kept_trans| |apply (checkIntersections_tags_kept rc false now s3)].
    change (objects s3) with (update e (objects s)). apply update_tags_kept.
Qed.

Lemma run_tags_kept_all tr :
  forall s, objs_rel tags_kept (objects s) (objects (run tr s)).
Proof.
  induction tr as [|[now e] r IH]; intros s; [apply objs_rel_refl, tags_kept_refl|].
  rewrite run_cons.
  eapply objs_rel_trans; [exact tags_kept_trans|apply step_tags_kept|apply IH].
Qed.

(** X1.  Whatever happens after construction, the primitives stay where
    they are: every section list keeps its length, every reference keeps
    denoting a primitive, and that primitive keeps its animation tags
    (phase angle, radius, ring, speed, float offset, base height, pulse
    delay, initial scale). *)
Theorem scene_membership_fixed (tr : list (Z * event)) (s : state) :
  (forall c,
      length (get_section c (objects (run tr s))) = length (get_section c (objects s))) /\
  (forall r o,
      obj_at r (objects s) = Some o ->
      exists o',
        obj_at r (objects (run tr s)) = Some o' /\
        angle (data o') = angle (data o) /\ radius (data o') = radius (data o) /\
        orbit (data o') = orbit (data o) /\ speed (data o') = speed (data o) /\
        floatOffset (data o') = floatOffset (data o) /\
        hoverY (data o') = hoverY (data o) /\
        delay (data o') = delay (data o) /\
        initialScale (data o') = initialScale (data o)).
Proof.
  pose proof (run_tags_kept_all tr s) as H. split.
  - intros c. apply (objs_rel_length tags_kept). exact H.
  - intros r o Eo. specialize (H r). rewrite Eo in H.
    destruct H as (o' & Eo' & Hk). exists o'. split; [exact Eo'|].
    apply tags_kept_fields. exact Hk.
Qed.

Lemma scene_membership_fixed_witness :
  exists o',
    obj_at (Hero, 0%nat)
      (objects (run [(0, Click (fun _ => Some 0%nat)); (16, Tick); (150, PulseTimeout)]%Z
                    initial_state)) = Some o' /\
    angle (data o') = None.
Proof.
  destruct (proj2 (scene_membership_fixed
                     [(0, Click (fun _ => Some 0%nat)); (16, Tick); (150, PulseTimeout)]%Z
                     initial_state)
                  (Hero, 0%nat) _ hero_torus) as (o' & E & Ha & _).
  exists o'. split; [exact E|exact Ha].
Defined.

(** ** Valid navigation keeps the two section indices in step *)

Lemma navigateToSection_fields now i s :
  i <> app_currentSection s ->
  let s' := state_of (navigateToSection now i s) in
  app_currentSection s' = i /\ currentSection s' = i /\
  contentSections s' =
  mapi (fun index _ => (Z.of_nat index =? i)%Z) (contentSections s) 0.
Proof.
  intros Hi. unfold navigateToSection.
  destruct (Z.eqb_spec i (app_currentSection s)) as [E|_]; [contradiction|].
  unfold updateActiveSection, moveToSection.
  destruct (js_index sectionPositions i), (js_index sectionNames i); repeat split.
Qed.

Lemma navigateToSection_in_sync now i s :
  valid_index i -> in_sync s ->
  threw (navigateToSection now i s) = false /\
  in_sync (state_of (navigateToSection now i s)).
Proof.
  intros Hi Hs. destruct (Z.eq_dec i (app_currentSection s)) as [->|Hne].
  - rewrite navigateToSection_same. split; [reflexivity|exact Hs].
  - destruct (sectionNames_valid i Hi) as (c & Ec).
    destruct (sectionPositions_valid i Hi) as (p & Ep).
    rewrite (navigateToSection_valid now i c p s Ec Ep Hne).
    split; [reflexivity|]. split; [exact Hi|reflexivity].
Qed.

Lemma wheelStep_in_sync now d s :
  in_sync s ->
  threw (wheelStep now d s) = false /\ in_sync (state_of (wheelStep now d s)).
Proof.
  intros Hs. pose proof Hs as [Hv _]. unfold valid_index in Hv. unfold wheelStep.
  destruct (Rltb 0 d && (app_currentSection s <? 4)%Z) eqn:E1.
  - apply andb_true_iff in E1. destruct E1 as [_ E1]. apply Z.ltb_lt in E1.
    apply navigateToSection_in_sync; [unfold valid_index; lia|exact Hs].
  - destruct (Rltb d 0 && (0 <? app_currentSection s)%Z) eqn:E2.
    + apply andb_true_iff in E2. destruct E2 as [_ E2]. apply Z.ltb_lt in E2.
      apply navigateToSection_in_sync; [unfold valid_index; lia|exact Hs].
    + split; [reflexivity|exact Hs].
Qed.

Lemma checkIntersections_in_sync rc b now s :
  in_sync s ->
  threw (checkIntersections rc b now s) = false /\
  in_sync (state_of (checkIntersections rc b now s)).
Proof.
  intros [Hv Hc]. split.
  - unfold checkIntersections.
    destruct (sectionNames_valid (currentSection s)) as (c & ->);
      [rewrite Hc; exact Hv|].
    destruct (rc (get_section c (objects s))) as [n|]; [|reflexivity].
    destruct (n <? length (get_section c (objects s)))%nat; [|reflexivity].
    destruct b; reflexivity.
  - destruct (checkIntersections_core rc b now s)
      as (Ha & _ & _ & _ & _ & _ & _ & _ & Hcs & _).
    unfold in_sync. rewrite Ha, Hcs. split; assumption.
Qed.

Lemma step_in_sync now e s :
  match e with Navigate i => valid_index i | _ => True end ->
  in_sync s ->
  threw (step now e s) = false /\ in_sync (state_of (step now e s)).
Proof.
  intros He Hs.
  destruct e as [i|d| |w x y|w rc touches|rc| | |e rc]; cbn [step].
  - apply navigateToSection_in_sync; assumption.
  - split; [reflexivity|exact Hs].
  - unfold runScrollTimeout. destruct (scrollTimeout s) as [[due d]|];
      [|split; [reflexivity|exact Hs]].
    destruct (due <=? now)%Z; [|split; [reflexivity|exact Hs]].
    apply wheelStep_in_sync. exact Hs.
  - split; [reflexivity|exact Hs].
  - unfold onTouchStart. destruct touches as [|[x y] rest];
      [split; [reflexivity|exact Hs]|].
    apply checkIntersections_in_sync. exact Hs.
  - apply checkIntersections_in_sync. exact Hs.
  - split; [reflexivity|exact Hs].
  - split; [reflexivity|].
    destruct (gsap_tick_frame now s) as (Ha & _ & Hc & _).
    destruct Hs as [Hv Hcs]. unfold in_sync. cbn [state_of].
    rewrite Ha, Hc. split; assumption.
  - unfold animate. apply checkIntersections_in_sync. exact Hs.
Qed.

(** X2.  From a state whose two section indices agree and lie in 0..4, a
    run whose navigation requests all name one of the five sections raises
    no exception, whatever else happens (wheel, pointer, clicks, timers,
    ticks, frames), and ends with the indices again equal and in 0..4. *)
Theorem valid_navigation_never_raises (tr : list (Z * event)) :
  forall s : state,
    in_sync s -> valid_requests tr ->
    uncaught tr s = O /\ in_sync (run tr s).
Proof.
  induction tr as [|[now e] r IH]; intros s Hs Hv; [split; [reflexivity|exact Hs]|].
  apply Forall_cons_iff in Hv. destruct Hv as [He Hr]. cbn [snd] in He.
  destruct (step_in_sync now e s He Hs) as [Ht Hs'].
  destruct (IH _ Hs' Hr) as [Hu Hf].
  rewrite run_cons. split; [|exact Hf].
  cbn [uncaught]. rewrite Ht, Hu. reflexivity.
Qed.

Lemma initial_in_sync : in_sync initial_state.
Proof. split; [unfold valid_index; cbn; lia|reflexivity]. Qed.

Lemma valid_navigation_never_raises_witness :
  uncaught [(0, Wheel 120); (100, ScrollTimeout); (120, Navigate 4);
            (130, Click (fun _ => Some 0%nat)); (140, Frame 1 (fun _ => None))]%Z
           initial_state = O.
Proof.
  refine (proj1 (valid_navigation_never_raises _ initial_state initial_in_sync _)).
  repeat (apply Forall_cons; [cbn; try exact I; unfold valid_index; lia|]).
  apply Forall_nil.
Defined.

(** ** The page markup mirrors the current section *)

Lemma navigateToSection_markup now i s :
  markup_step s (state_of (navigateToSection now i s)).
Proof.
  destruct (Z.eq_dec i (app_currentSection s)) as [->|Hne].
  - rewrite navigateToSection_same. left. split; reflexivity.
  - destruct (navigateToSection_fields now i s Hne) as (Ha & _ & Hm).
    right. rewrite Ha. exact Hm.
Qed.

Lemma wheelStep_markup now d s : markup_step s (state_of (wheelStep now d s)).
Proof.
  unfold wheelStep.
  destruct (Rltb 0 d && (app_currentSection s <? 4)%Z);
    [apply navigateToSection_markup|].
  destruct (Rltb d 0 && (0 <? app_currentSection s)%Z);
    [apply navigateToSection_markup|left; split; reflexivity].
Qed.

Lemma step_markup now e s : markup_step s (state_of (step now e s)).
Proof.
  destruct e as [i|d| |w x y|w rc touches|rc| | |e rc]; cbn [step].
  - apply navigateToSection_markup.
  - left. split; reflexivity.
  - unfold runScrollTimeout. destruct (scrollTimeout s) as [[due d]|];
      [|left; split; reflexivity].
    destruct (due <=? now)%Z; [|left; split; reflexivity].
    apply (wheelStep_markup now d (set_scrollTimeout None s)).
  - left. split; reflexivity.
  - unfold onTouchStart. destruct touches as [|[x y] rest];
      [left; split; reflexivity|].
    destruct (checkIntersections_core rc false now
                (set_mouse (normalizeX w x) (normalizeY w y) s)) as (Ha & Hm & _).
    left. split; assumption.
  - destruct (checkIntersections_core rc true now s) as (Ha & Hm & _).
    left. split; assumption.
  - left. split; reflexivity.
  - destruct (gsap_tick_frame now s) as (Ha & Hm & _). left. split; assumption.
  - destruct (frame_facts now e rc s) as (_ & _ & _ & _ & _ & _ & Ha & Hm & _).
    left. split; assumption.
Qed.

Lemma markup_step_mirrors s s' :
  markup_step s s' -> markup_mirrors s ->
  markup_mirrors s' /\ length (contentSections s') = length (contentSections s).
Proof.
  intros [[Ha Hm]|Hm] H.
  - unfold markup_mirrors. rewrite Ha, Hm. split; [exact H|reflexivity].
  - split; [|rewrite Hm; apply length_mapi].
    intros k b. rewrite Hm, nth_error_mapi.
    destruct (nth_error (contentSections s) k); cbn; [|discriminate].
    intros E. injection E as <-. reflexivity.
Qed.

Lemma markup_mirrors_active s :
  markup_mirrors s ->
  (0 <= app_currentSection s < Z.of_nat (length (contentSections s)))%Z ->
  js_index (contentSections s) (app_currentSection s) = Some true.
Proof.
  intros Hs Hr. unfold js_index.
  destruct (Z.ltb_spec (app_currentSection s) 0) as [?|_]; [lia|].
  destruct (nth_error (contentSections s) (Z.to_nat (app_currentSection s)))
    as [b|] eqn:E.
  - rewrite (Hs _ _ E). rewrite Z2Nat.id by lia. now rewrite Z.eqb_refl.
  - apply nth_error_None in E. lia.
Qed.

Lemma run_markup_mirrors tr :
  forall s,
    markup_mirrors s ->
    length (contentSections (run tr s)) = length (contentSections s) /\
    markup_mirrors (run tr s).
Proof.
  induction tr as [|[now e] r IH]; intros s Hs; [split; [reflexivity|exact Hs]|].
  rewrite run_cons.
  destruct (markup_step_mirrors _ _ (step_markup now e s) Hs) as [Hs' Hl].
  destruct (IH _ Hs') as (IL & IM).
  split; [rewrite IL; exact Hl|exact IM].
Qed.

(** X3.  Along every run, also one with out-of-range navigation requests,
    the markup keeps mirroring the coordinator's index: the number of
    content sections never changes, a content section is flagged active
    exactly when its position is the current index, and so the content
    section of an in-range current index is the one flagged active. *)
Theorem markup_mirrors_current_section (tr : list (Z * event)) :
  forall s : state,
    markup_mirrors s ->
    let s' := run tr s in
    length (contentSections s') = length (contentSections s) /\
    markup_mirrors s' /\
    ((0 <= app_currentSection s' < Z.of_nat (length (contentSections s')))%Z ->
     js_index (contentSections s') (app_currentSection s') = Some true).
Proof.
  intros s Hs. cbv zeta.
  destruct (run_markup_mirrors tr s Hs) as [HL HM].
  split; [exact HL|]. split; [exact HM|].
  apply markup_mirrors_active. exact HM.
Qed.

Lemma initial_markup_mirrors : markup_mirrors initial_state.
Proof.
  intros k b. change (contentSections initial_state) with initialMarkup.
  change (app_currentSection initial_state) with 0%Z. unfold initialMarkup.
  do 5 (destruct k as [|k]; [cbn; now intros [= <-]|]).
  cbn. destruct k; discriminate.
Qed.

Lemma markup_mirrors_current_section_witness :
  let s' := run [(0, Navigate 3); (16, Tick)]%Z initial_state in
  length (contentSections s') = length (contentSections initial_state) /\
  markup_mirrors s'.
Proof.
  destruct (markup_mirrors_current_section [(0, Navigate 3); (16, Tick)]%Z
              initial_state initial_markup_mirrors) as (H1 & H2 & _).
  split; [exact H1|exact H2].
Defined.

(** ** Nothing but the engine removes a tween *)

Lemma navigateToSection_tweens now i s :
  exists extra, tweens (state_of (navigateToSection now i s)) = tweens s ++ extra.
Proof.
  unfold navigateToSection.
  destruct (i =? app_currentSection s)%Z; [exists []; cbn; now rewrite app_nil_r|].
  unfold updateActiveSection, moveToSection, gsap_to.
  destruct (js_index sectionPositions i), (js_index sectionNames i); cbn;
    rewrite <- ?app_assoc; eexists; reflexivity.
Qed.

Lemma wheelStep_tweens now d s :
  exists extra, tweens (state_of (wheelStep now d s)) = tweens s ++ extra.
Proof.
  unfold wheelStep.
  destruct (Rltb 0 d && (app_currentSection s <? 4)%Z);
    [apply navigateToSection_tweens|].
  destruct (Rltb d 0 && (0 <? app_currentSection s)%Z);
    [apply navigateToSection_tweens|exists []; cbn; now rewrite app_nil_r].
Qed.

Lemma step_tweens_appended now e s :
  not_tick e ->
  exists extra, tweens (state_of (step now e s)) = tweens s ++ extra.
Proof.
  intros He.
  destruct e as [i|d| |w x y|w rc touches|rc| | |e rc]; cbn [step];
    try contradiction.
  - apply navigateToSection_tweens.
  - exists []. cbn. now rewrite app_nil_r.
  - unfold runScrollTimeout. destruct (scrollTimeout s) as [[due d]|];
      [|exists []; cbn; now rewrite app_nil_r].
    destruct (due <=? now)%Z; [|exists []; cbn; now rewrite app_nil_r].
    apply (wheelStep_tweens now d (set_scrollTimeout None s)).
  - exists []. cbn. now rewrite app_nil_r.
  - unfold onTouchStart. destruct touches as [|[x y] rest];
      [exists []; cbn; now rewrite app_nil_r|].
    destruct (checkIntersections_core rc false now
                (set_mouse (normalizeX w x) (normalizeY w y) s))
      as (_ & _ & _ & _ & _ & _ & _ & _ & _ & _ & _ & Ht).
    exists []. rewrite Ht. cbn. now rewrite app_nil_r.
  - destruct (checkIntersections_core rc true now s)
      as (_ & _ & _ & _ & _ & _ & _ & _ & _ & _ & _ & Ht).
    exists []. rewrite Ht. now rewrite app_nil_r.
  - exists []. cbn. now rewrite app_nil_r.
  - destruct (frame_facts now e rc s) as (Ht & _).
    exists []. cbn [step] in Ht. rewrite Ht. now rewrite app_nil_r.
Qed.

(** X4.  The application never cancels an animation: along a run without
    engine ticks the tweens already issued all stay, in order, and new ones
    are only appended; a navigation to another valid section appends two
    camera tweens, one hide tween per primitive of the scene and one show
    tween per primitive of the target section. *)
Theorem tweens_only_appended (tr : list (Z * event)) :
  forall s : state,
    Forall (fun te => not_tick (snd te)) tr ->
    (exists extra, tweens (run tr s) = tweens s ++ extra) /\
    (forall now i c,
        js_index sectionNames i = Some c -> i <> app_currentSection (run tr s) ->
        length (tweens (state_of (step now (Navigate i) (run tr s)))) =
        (length (tweens (run tr s)) + 2 + length (all_refs (objects s))
         + length (get_section c (objects s)))%nat).
Proof.
  intros s Htr. split.
  - revert s Htr. induction tr as [|[now e] r IH]; intros s Htr.
    + exists []. cbn. now rewrite app_nil_r.
    + apply Forall_cons_iff in Htr. destruct Htr as [He Hr]. cbn [snd] in He.
      rewrite run_cons.
      destruct (step_tweens_appended now e s He) as (x1 & E1).
      destruct (IH (state_of (step now e s)) Hr) as (x2 & E2).
      exists (x1 ++ x2). rewrite E2, E1. now rewrite app_assoc.
  - intros now i c Ec Hne.
    pose proof (js_index_in_range _ _ _ Ec) as Hr.
    destruct (sectionPositions_valid i) as (p & Ep);
      [unfold valid_index; cbn in Hr; lia|].
    cbn [step]. rewrite (navigateToSection_valid now i c p _ Ec Ep Hne).
    cbn [state_of navigated tweens].
    rewrite !length_app, length_map, length_mapi, length_refs_of.
    pose proof (run_tags_kept_all tr s) as Hk.
    assert (HL : forall c', length (get_section c' (objects (run tr s))) =
                            length (get_section c' (objects s)))
      by (intros c'; apply (objs_rel_length tags_kept); exact Hk).
    unfold all_refs. cbn [sectionNames flat_map]. rewrite !length_app, !length_refs_of.
    rewrite !HL. cbn [cameraTweens length]. lia.
Qed.

Lemma tweens_only_appended_witness :
  exists extra,
    tweens (run [(0, Navigate 1); (10, Navigate 2); (20, Frame 1 (fun _ => None))]%Z
                initial_state) = tweens initial_state ++ extra.
Proof.
  refine (proj1 (tweens_only_appended _ initial_state _)).
  repeat constructor.
Defined.

(** ** The pointer cursor follows the hover state *)

Lemma hover_kept_matches s s' : hover_kept s s' -> cursor_matches s -> cursor_matches s'.
Proof. unfold cursor_matches. intros [-> ->]. auto. Qed.

Lemma write_cursor p v s : cursor_pointer (write p v s) = cursor_pointer s.
Proof. destruct p; reflexivity. Qed.

Lemma renderAll_cursor now ws :
  forall s, cursor_pointer (fst (renderAll now ws s)) = cursor_pointer s.
Proof.
  induction ws as [|w r IH]; intros s; [reflexivity|].
  rewrite renderAll_fst_cons.
  destruct (render1 now w (read (tw_target w) s)) as [[v k]|]; [|apply IH].
  rewrite IH. apply write_cursor.
Qed.

Lemma gsap_tick_hover_kept now s : hover_kept s (gsap_tick now s).
Proof.
  split; [|apply gsap_tick_frame].
  pose proof (renderAll_cursor now (tweens s) s) as H.
  unfold gsap_tick. destruct (renderAll now (tweens s) s) as [s' ws]. exact H.
Qed.

Lemma navigateToSection_hover_kept now i s :
  hover_kept s (state_of (navigateToSection now i s)).
Proof.
  unfold navigateToSection.
  destruct (i =? app_currentSection s)%Z; [split; reflexivity|].
  unfold updateActiveSection, moveToSection.
  destruct (js_index sectionPositions i), (js_index sectionNames i); split; reflexivity.
Qed.

Lemma wheelStep_hover_kept now d s : hover_kept s (state_of (wheelStep now d s)).
Proof.
  unfold wheelStep.
  destruct (Rltb 0 d && (app_currentSection s <? 4)%Z);
    [apply navigateToSection_hover_kept|].
  destruct (Rltb d 0 && (0 <? app_currentSection s)%Z);
    [apply navigateToSection_hover_kept|split; reflexivity].
Qed.

Lemma clearHover_matches s : cursor_matches s -> cursor_matches (clearHover s).
Proof.
  unfold clearHover. destruct (hoveredObject s) eqn:E; [reflexivity|].
  unfold cursor_matches. now rewrite E.
Qed.

Lemma handleObjectHover_matches r s :
  cursor_matches s -> cursor_matches (handleObjectHover r s).
Proof.
  intros H. unfold handleObjectHover.
  destruct (hoveredObject s) as [h|] eqn:E; [|reflexivity].
  destruct (objref_eq_dec h r); [exact H|reflexivity].
Qed.

Lemma handleObjectClick_hover_kept now r s : hover_kept s (handleObjectClick now r s).
Proof.
  unfold handleObjectClick. destruct (obj_at r (objects s)); split; reflexivity.
Qed.

Lemma checkIntersections_matches rc b now s :
  cursor_matches s -> cursor_matches (state_of (checkIntersections rc b now s)).
Proof.
  intros H. unfold checkIntersections.
  destruct (js_index sectionNames (currentSection s)) as [c|]; [|exact H].
  destruct (rc (get_section c (objects s))) as [n|]; [|now apply clearHover_matches].
  destruct (n <? length (get_section c (objects s)))%nat;
    [|now apply clearHover_matches].
  destruct b; cbn [state_of].
  - exact (hover_kept_matches _ _ (handleObjectClick_hover_kept now (c, n) s) H).
  - now apply handleObjectHover_matches.
Qed.

Lemma step_cursor_matches now e s :
  cursor_matches s -> cursor_matches (state_of (step now e s)).
Proof.
  intros H.
  destruct e as [i|d| |w x y|w rc touches|rc| | |e rc]; cbn [step].
  - exact (hover_kept_matches _ _ (navigateToSection_hover_kept now i s) H).
  - exact H.
  - unfold runScrollTimeout. destruct (scrollTimeout s) as [[due d]|]; [|exact H].
    destruct (due <=? now)%Z; [|exact H].
    exact (hover_kept_matches _ _
             (wheelStep_hover_kept now d (set_scrollTimeout None s)) H).
  - exact H.
  - unfold onTouchStart. destruct touches as [|[x y] rest]; [exact H|].
    apply checkIntersections_matches. exact H.
  - apply checkIntersections_matches. exact H.
  - exact H.
  - exact (hover_kept_matches _ _ (gsap_tick_hover_kept now s) H).
  - unfold animate. apply checkIntersections_matches. exact H.
Qed.

(** X5.  The pointer cursor is shown exactly while a primitive is hovered:
    if that holds of a state, it holds after every run from it. *)
Theorem cursor_pointer_iff_hovering (tr : list (Z * event)) :
  forall s : state,
    cursor_matches s ->
    (cursor_pointer (run tr s) = true <-> hoveredObject (run tr s) <> None).
Proof.
  assert (Hrun : forall s, cursor_matches s -> cursor_matches (run tr s)).
  { induction tr as [|[now e] r IH]; intros s Hs; [exact Hs|].
    rewrite run_cons. apply IH, step_cursor_matches, Hs. }
  intros s Hs. specialize (Hrun s Hs). unfold cursor_matches in Hrun.
  rewrite Hrun. destruct (hoveredObject (run tr s)); split; congruence.
Qed.

Lemma cursor_pointer_iff_hovering_witness :
  cursor_pointer (run [(0, Frame 0 (fun _ => Some 0%nat))]%Z initial_state) = true <->
  hoveredObject (run [(0, Frame 0 (fun _ => Some 0%nat))]%Z initial_state) <> None.
Proof.
  apply (cursor_pointer_iff_hovering _ initial_state). reflexivity.
Defined.

(** ** The per-frame animator: what is absolute and what accumulates *)

Section LastUpdateWins.

Variables T T' : R.

Lemma updateHero_last n o : updateHero T n (updateHero T' n o) = updateHero T n o.
Proof.
  unfold updateHero. destruct (n =? 0)%nat; [destruct o; reflexivity|].
  destruct (n <=? 8)%nat; destruct o; reflexivity.
Qed.

Lemma updateProjects_last o : updateProjects T (updateProjects T' o) = updateProjects T o.
Proof.
  unfold updateProjects. destruct o as [p r sc m d]; simpl.
  destruct (hoverY d) eqn:E; simpl; rewrite E; reflexivity.
Qed.

Lemma updateSkills_last o : updateSkills T (updateSkills T' o) = updateSkills T o.
Proof.
  unfold updateSkills. destruct o as [p r sc m d]; simpl.
  destruct (orbit d) eqn:E; simpl; rewrite E; reflexivity.
Qed.

Lemma updateContact_last o : updateContact T (updateContact T' o) = updateContact T o.
Proof.
  unfold updateContact. destruct o as [p r sc m d]; simpl.
  destruct (delay d) eqn:E; simpl; rewrite E; reflexivity.
Qed.

End LastUpdateWins.

(** X6.  In the Hero, Projects, Skills and Contact sections the animator
    assigns absolute values: an update at time [T] gives the same
    primitives whatever update, at whatever time, ran before it.  A pause
    or a skipped frame leaves no trace in these sections. *)
Theorem last_update_wins (t : objectTable) (T T' : R) :
  hero (update T (update T' t)) = hero (update T t) /\
  projects (update T (update T' t)) = projects (update T t) /\
  skills (update T (update T' t)) = skills (update T t) /\
  contact (update T (update T' t)) = contact (update T t).
Proof.
  repeat split; simpl.
  - rewrite mapi_mapi. apply mapi_ext_in. intros; apply updateHero_last.
  - rewrite map_map. apply map_ext. intros; apply updateProjects_last.
  - rewrite map_map. apply map_ext. intros; apply updateSkills_last.
  - rewrite map_map. apply map_ext. intros; apply updateContact_last.
Qed.

Lemma about_float_step T t n o off :
  nth_error (about t) n = Some o ->
  floatOffset (data o) = Some off ->
  exists o',
    nth_error (about (update T t)) n = Some o' /\
    floatOffset (data o') = Some off /\
    vx (position o') = vx (position o) /\
    vy (position o') = vy (position o) + sin (T * 2 + off) * 0.002 /\
    vz (position o') = vz (position o).
Proof.
  intros Hn Hf. exists (updateAbout T o). split.
  - simpl. now rewrite nth_error_map, Hn.
  - unfold updateAbout. rewrite Hf. repeat split. exact Hf.
Qed.

(** X7.  The float-tagged primitives of the About section are the one
    place where the animator works incrementally: every frame adds
    [sin(2*T + offset) * 0.002] to the height the frame before it left, so
    after the frames at times [Ts] the height is the initial height with
    the increments added one after the other, in frame order (x and z
    untouched); and the update run twice at the same time gives the About
    primitives of a single run only if adding the increment a second time
    leaves the height where the first addition put it. *)
Theorem about_float_accumulates (Ts : list R) :
  forall (t : objectTable) (n : nat) (o : object) (off : R),
    nth_error (about t) n = Some o ->
    floatOffset (data o) = Some off ->
    (exists o',
        nth_error (about (updates Ts t)) n = Some o' /\
        floatOffset (data o') = Some off /\
        vx (position o') = vx (position o) /\
        vy (position o') = floated off Ts (vy (position o)) /\
        vz (position o') = vz (position o)) /\
    (forall T,
        about (update T (update T t)) = about (update T t) ->
        vy (position o) + sin (T * 2 + off) * 0.002 + sin (T * 2 + off) * 0.002 =
        vy (position o) + sin (T * 2 + off) * 0.002).
Proof.
  assert (Twice : forall t n o off T,
             nth_error (about t) n = Some o -> floatOffset (data o) = Some off ->
             about (update T (update T t)) = about (update T t) ->
             vy (position o) + sin (T * 2 + off) * 0.002 + sin (T * 2 + off) * 0.002 =
             vy (position o) + sin (T * 2 + off) * 0.002).
  { intros t n o off T Hn Hf E.
    destruct (about_float_step T t n o off Hn Hf) as (o1 & H1 & F1 & _ & Y1 & _).
    destruct (about_float_step T (update T t) n o1 off H1 F1)
      as (o2 & H2 & _ & _ & Y2 & _).
    rewrite E, H1 in H2. injection H2 as <-.
    rewrite <- Y1. symmetry. exact Y2. }
  induction Ts as [|T Ts IH]; intros t n o off Hn Hf; split.
  - exists o. cbn. repeat split; assumption.
  - intros T. now apply (Twice t n).
  - destruct (about_float_step T t n o off Hn Hf) as (o1 & H1 & F1 & X1 & Y1 & Z1).
    destruct (proj1 (IH (update T t) n o1 off H1 F1)) as (o' & H' & F' & X' & Y' & Z').
    exists o'. cbn [updates floated fold_left].
    split; [exact H'|]. split; [exact F'|]. split; [congruence|].
    split; [|congruence].
    rewrite Y', Y1. reflexivity.
  - intros T0. now apply (Twice t n).
Qed.

Lemma about_cube_constructed :
  nth_error (about createAllSections) 2 =
  Some (set_data (mkUserData None None None None (Some (INR 1 * 0.5)) None None None None)
          (set_position (mkVec3 (-8) 0 0) (newObject lineMaterial))).
Proof. reflexivity. Qed.

Lemma about_float_accumulates_witness :
  exists o',
    nth_error (about (updates [1; 1] createAllSections)) 2 = Some o' /\
    vy (position o') = floated (INR 1 * 0.5) [1; 1] 0.
Proof.
  destruct (proj1 (about_float_accumulates [1; 1] createAllSections 2 _ (INR 1 * 0.5)
                     about_cube_constructed eq_refl))
    as (o' & H & _ & _ & Y & _).
  exists o'. split; [exact H|exact Y].
Defined.

Lemma within_radius_cos (a r : R) : Rabs (cos a * r) <= Rabs r.
Proof.
  rewrite Rabs_mult. rewrite <- (Rmult_1_l (Rabs r)) at 2.
  apply Rmult_le_compat_r; [apply Rabs_pos|].
  apply Rabs_le, COS_bound.
Qed.

Lemma within_radius_sin (a r : R) : Rabs (sin a * r) <= Rabs r.
Proof.
  rewrite Rabs_mult. rewrite <- (Rmult_1_l (Rabs r)) at 2.
  apply Rmult_le_compat_r; [apply Rabs_pos|].
  apply Rabs_le, SIN_bound.
Qed.

(** X8.  An orbiting primitive never leaves the reach of its stored
    radius: after every update the x and the z of a Hero sphere (indices
    1..8) and of a Skills orb are at most the radius in absolute value,
    being a cosine and a sine times that radius; the height of a Hero
    sphere stays within 0.5 of zero and the height of a Skills orb is left
    as it was. *)
Theorem orbit_within_radius (t : objectTable) (T : R) :
  (forall n o o',
      nth_error (hero t) n = Some o -> (1 <= n <= 8)%nat ->
      nth_error (hero (update T t)) n = Some o' ->
      Rabs (vx (position o')) <= Rabs (num (radius (data o))) /\
      Rabs (vz (position o')) <= Rabs (num (radius (data o))) /\
      -0.5 <= vy (position o') <= 0.5) /\
  (forall n o o',
      nth_error (skills t) n = Some o -> orbit (data o) <> None ->
      nth_error (skills (update T t)) n = Some o' ->
      Rabs (vx (position o')) <= Rabs (num (radius (data o))) /\
      Rabs (vz (position o')) <= Rabs (num (radius (data o))) /\
      vy (position o') = vy (position o)).
Proof.
  split.
  - intros n o o' Hn Hr H'. simpl in H'. rewrite nth_error_mapi, Hn in H'.
    cbn in H'. injection H' as <-. unfold updateHero.
    destruct (n =? 0)%nat eqn:E0; [apply Nat.eqb_eq in E0; lia|].
    destruct (n <=? 8)%nat eqn:E8; [|apply Nat.leb_gt in E8; lia].
    cbn. split; [apply within_radius_cos|]. split; [apply within_radius_sin|].
    pose proof (SIN_bound (T * 0.5 + INR n)). lra.
  - intros n o o' Hn Ho H'. simpl in H'. rewrite nth_error_map, Hn in H'.
    cbn in H'. injection H' as <-. unfold updateSkills.
    destruct (orbit (data o)); [|contradiction].
    cbn. split; [apply within_radius_cos|]. split; [apply within_radius_sin|reflexivity].
Qed.

Lemma orbit_within_radius_witness :
  exists o o',
    nth_error (hero createAllSections) 1 = Some o /\
    nth_error (hero (update 2 createAllSections)) 1 = Some o' /\
    Rabs (vx (position o')) <= Rabs (num (radius (data o))) /\
    Rabs (vz (position o')) <= Rabs (num (radius (data o))) /\
    -0.5 <= vy (position o') <= 0.5.
Proof.
  eexists. eexists. split; [reflexivity|]. split; [reflexivity|].
  refine (proj1 (orbit_within_radius createAllSections 2)
            1%nat _ _ eq_refl _ eq_refl).
  lia.
Defined.

(** X9.  The cards of the Projects section bob around their base height:
    an update writes the height [hoverY + sin(2*T) * 0.1], within 0.1 of
    the base height stored at construction, and nothing else; a primitive
    without a base height (the frames and the connecting network) is not
    touched at all. *)
Theorem project_card_bob (t : objectTable) (T : R) (n : nat) (o : object) :
  nth_error (projects t) n = Some o ->
  exists o',
    nth_error (projects (update T t)) n = Some o' /\
    rotation o' = rotation o /\ scale o' = scale o /\
    mat o' = mat o /\ data o' = data o /\
    vx (position o') = vx (position o) /\ vz (position o') = vz (position o) /\
    (forall y0, hoverY (data o) = Some y0 ->
                vy (position o') = y0 + sin (T * 2) * 0.1 /\
                y0 - 0.1 <= vy (position o') <= y0 + 0.1) /\
    (hoverY (data o) = None -> o' = o).
Proof.
  intros Hn. exists (updateProjects T o). split.
  - simpl. now rewrite nth_error_map, Hn.
  - unfold updateProjects. destruct (hoverY (data o)) as [y|].
    + cbn. do 6 (split; [reflexivity|]). split; [|discriminate].
      intros y0 [= <-]. pose proof (SIN_bound (T * 2)). lra.
    + do 6 (split; [reflexivity|]). split; [discriminate|reflexivity].
Qed.

Lemma project_card_bob_witness :
  exists o',
    nth_error (projects (update 3 createAllSections)) 0 = Some o' /\
    scale o' = vone.
Proof.
  destruct (project_card_bob createAllSections 3 0 _ eq_refl)
    as (o' & H & _ & Hs & _).
  exists o'. split; [exact H|exact Hs].
Defined.

(** X10.  In the Contact section an update sets the scale of a ring (a
    primitive with a [delay] tag) to the uniform value
    [1 + sin(2*T - delay) * 0.2], between 0.8 and 1.2, whatever the scale
    was, and leaves its position and rotation; the envelope keeps its
    scale, gets the height [-3 + sin(2*T) * 0.1], within 0.1 of -3, and a
    rotation about the vertical axis of at most 0.2. *)
Theorem contact_pulse_bounded (t : objectTable) (T : R) (n : nat) (o : object) :
  nth_error (contact t) n = Some o ->
  exists o',
    nth_error (contact (update T t)) n = Some o' /\
    mat o' = mat o /\ data o' = data o /\
    (forall d, delay (data o) = Some d ->
               position o' = position o /\ rotation o' = rotation o /\
               scale o' = mkVec3 (1 + sin (T * 2 - d) * 0.2)
                                 (1 + sin (T * 2 - d) * 0.2)
                                 (1 + sin (T * 2 - d) * 0.2) /\
               0.8 <= vx (scale o') <= 1.2) /\
    (delay (data o) = None ->
     scale o' = scale o /\
     vx (position o') = vx (position o) /\ vz (position o') = vz (position o) /\
     -3.1 <= vy (position o') <= -2.9 /\
     vx (rotation o') = vx (rotation o) /\ vz (rotation o') = vz (rotation o) /\
     -0.2 <= vy (rotation o') <= 0.2).
Proof.
  intros Hn. exists (updateContact T o). split.
  - simpl. now rewrite nth_error_map, Hn.
  - unfold updateContact. destruct (delay (data o)) as [d0|].
    + cbn. do 2 (split; [reflexivity|]). split; [|discriminate].
      intros d [= <-]. do 3 (split; [reflexivity|]).
      pose proof (SIN_bound (T * 2 - d0)). lra.
    + cbn. do 2 (split; [reflexivity|]). split; [discriminate|].
      intros _. pose proof (SIN_bound (T * 2)). pose proof (SIN_bound T).
      do 3 (split; [reflexivity|]). split; [lra|].
      do 2 (split; [reflexivity|]). lra.
Qed.

Lemma contact_pulse_bounded_witness :
  exists o',
    nth_error (contact (update 3 createAllSections)) 5 = Some o' /\
    -3.1 <= vy (position o') <= -2.9.
Proof.
  destruct (contact_pulse_bounded createAllSections 3 5 _ eq_refl)
    as (o' & H & _ & _ & _ & He).
  exists o'. split; [exact H|]. apply He. reflexivity.
Defined.

(** ** The click pulse *)

Lemma last_pulse_app r a b :
  last_pulse r (a ++ b) =
  match last_pulse r b with Some v => Some v | None => last_pulse r a end.
Proof.
  induction a as [|p a IH]; simpl; [now destruct (last_pulse r b)|].
  rewrite IH. now destruct (last_pulse r b).
Qed.

Lemma last_pulse_none r f ps :
  Forall (fun p => pl_object p <> r) ps -> last_pulse r (filter f ps) = None.
Proof.
  induction 1 as [|p ps Hp _ IH]; [reflexivity|].
  simpl. destruct (f p); [|exact IH]. simpl. rewrite IH.
  destruct (objref_eq_dec (pl_object p) r); [contradiction|reflexivity].
Qed.

Lemma restore_obj_at ps :
  forall t r,
    obj_at r (fold_left (fun (t : objectTable) (p : pulse) =>
                           upd_obj (pl_object p) (set_scale (pl_originalScale p)) t) ps t) =
    option_map (fun o => match last_pulse r ps with
                         | Some v => set_scale v o
                         | None => o
                         end) (obj_at r t).
Proof.
  induction ps as [|p ps IH]; intros t r; simpl.
  - now destruct (obj_at r t).
  - rewrite IH, obj_at_upd_obj.
    destruct (last_pulse r ps), (objref_eq_dec (pl_object p) r), (obj_at r t);
      reflexivity.
Qed.

Lemma runPulses_obj_at now s r :
  obj_at r (objects (runPulses now s)) =
  option_map (fun o => match last_pulse r (filter (fun p => (pl_due p <=? now)%Z) (pulses s)) with
                       | Some v => set_scale v o
                       | None => o
                       end) (obj_at r (objects s)).
Proof. unfold runPulses. cbn [objects set_pulses set_objects]. apply restore_obj_at. Qed.

Lemma click_hit now rc c n o s :
  js_index sectionNames (currentSection s) = Some c ->
  rc (get_section c (objects s)) = Some n ->
  nth_error (get_section c (objects s)) n = Some o ->
  step now (Click rc) s = Ok (handleObjectClick now (c, n) s).
Proof.
  intros Hc Hrc Hn. cbn [step]. unfold checkIntersections. rewrite Hc, Hrc.
  assert (L : (n < length (get_section c (objects s)))%nat)
    by (apply nth_error_Some; congruence).
  apply Nat.ltb_lt in L. now rewrite L.
Qed.

Lemma handleObjectClick_facts now r o s :
  obj_at r (objects s) = Some o ->
  objects (handleObjectClick now r s) =
  upd_obj r (fun o => set_scale (multiplyScalar 1.2 (scale o)) o) (objects s) /\
  pulses (handleObjectClick now r s) = pulses s ++ [mkPulse (now + 150)%Z r (scale o)].
Proof. intros H. unfold handleObjectClick. rewrite H. split; reflexivity. Qed.

Lemma write_pulses p v s : pulses (write p v s) = pulses s.
Proof. destruct p; reflexivity. Qed.

Lemma renderAll_pulses now ws :
  forall s, pulses (fst (renderAll now ws s)) = pulses s.
Proof.
  induction ws as [|w r IH]; intros s; [reflexivity|].
  rewrite renderAll_fst_cons.
  destruct (render1 now w (read (tw_target w) s)) as [[v k]|]; [|apply IH].
  rewrite IH. apply write_pulses.
Qed.

Lemma gsap_tick_pulses now s : pulses (gsap_tick now s) = pulses s.
Proof.
  pose proof (renderAll_pulses now (tweens s) s) as H.
  unfold gsap_tick. destruct (renderAll now (tweens s) s) as [s' ws]. exact H.
Qed.

Lemma navigateToSection_pulses now i s :
  pulses (state_of (navigateToSection now i s)) = pulses s.
Proof.
  unfold navigateToSection.
  destruct (i =? app_currentSection s)%Z; [reflexivity|].
  unfold updateActiveSection, moveToSection.
  destruct (js_index sectionPositions i), (js_index sectionNames i); reflexivity.
Qed.

Lemma wheelStep_pulses now d s : pulses (state_of (wheelStep now d s)) = pulses s.
Proof.
  unfold wheelStep.
  destruct (Rltb 0 d && (app_currentSection s <? 4)%Z);
    [apply navigateToSection_pulses|].
  destruct (Rltb d 0 && (0 <? app_currentSection s)%Z);
    [apply navigateToSection_pulses|reflexivity].
Qed.

Lemma clearHover_pulses s : pulses (clearHover s) = pulses s.
Proof. unfold clearHover. destruct (hoveredObject s); reflexivity. Qed.

Lemma handleObjectHover_pulses r s : pulses (handleObjectHover r s) = pulses s.
Proof.
  unfold handleObjectHover, enterHover.
  destruct (hoveredObject s) as [h|] eqn:E.
  - destruct (objref_eq_dec h r); [reflexivity|]. cbn. apply clearHover_pulses.
  - cbn. apply clearHover_pulses.
Qed.

Lemma checkIntersections_hover_pulses rc now s :
  pulses (state_of (checkIntersections rc false now s)) = pulses s.
Proof.
  unfold checkIntersections.
  destruct (js_index sectionNames (currentSection s)) as [c|]; [|reflexivity].
  destruct (rc (get_section c (objects s))) as [n|]; [|apply clearHover_pulses].
  destruct (n <? length (get_section c (objects s)))%nat;
    [apply handleObjectHover_pulses|apply clearHover_pulses].
Qed.

Lemma step_pulses_quiet now e s :
  quiet e -> pulses (state_of (step now e s)) = pulses s.
Proof.
  intros He.
  destruct e as [i|d| |w x y|w rc touches|rc| | |e rc]; cbn [step];
    try contradiction.
  - apply navigateToSection_pulses.
  - reflexivity.
  - unfold runScrollTimeout. destruct (scrollTimeout s) as [[due d]|]; [|reflexivity].
    destruct (due <=? now)%Z; [|reflexivity].
    apply (wheelStep_pulses now d (set_scrollTimeout None s)).
  - reflexivity.
  - unfold onTouchStart. destruct touches as [|[x y] rest]; [reflexivity|].
    apply (checkIntersections_hover_pulses rc now
             (set_mouse (normalizeX w x) (normalizeY w y) s)).
  - apply gsap_tick_pulses.
  - unfold animate. rewrite checkIntersections_hover_pulses. reflexivity.
Qed.

Lemma run_pulses_quiet tr :
  forall s, Forall (fun te => quiet (snd te)) tr -> pulses (run tr s) = pulses s.
Proof.
  induction tr as [|[now e] r IH]; intros s H; [reflexivity|].
  apply Forall_cons_iff in H. destruct H as [He Hr]. cbn [snd] in He.
  rewrite run_cons, IH by exact Hr. apply step_pulses_quiet, He.
Qed.

Lemma run_obj_at_some tr s r o :
  obj_at r (objects s) = Some o -> exists o', obj_at r (objects (run tr s)) = Some o'.
Proof.
  intros H. pose proof (run_tags_kept_all tr s r) as K. rewrite H in K.
  destruct K as (o' & E & _). eauto.
Qed.

(** X11.  A click on a primitive multiplies its scale by 1.2 and arms a
    150 ms timer holding the scale read at the click.  Before the timer is
    due the primitive stays enlarged (when no older pulse on it is
    pending); once the timer runs, the primitive has exactly the scale it
    had at the click, whatever ticks, frames, pointer moves or navigations
    happened in between. *)
Theorem click_pulse_roundtrip
    (s : state) (rc : raycaster) (c : section) (n : nat) (o : object) (now : Z) :
  js_index sectionNames (currentSection s) = Some c ->
  rc (get_section c (objects s)) = Some n ->
  nth_error (get_section c (objects s)) n = Some o ->
  let s1 := state_of (step now (Click rc) s) in
  (exists o1,
      obj_at (c, n) (objects s1) = Some o1 /\
      scale o1 = multiplyScalar 1.2 (scale o)) /\
  (forall T,
      (T < now + 150)%Z ->
      Forall (fun p => pl_object p <> (c, n)) (pulses s) ->
      exists o1,
        obj_at (c, n) (objects (state_of (step T PulseTimeout s1))) = Some o1 /\
        scale o1 = multiplyScalar 1.2 (scale o)) /\
  (forall tr T,
      Forall (fun te => quiet (snd te)) tr ->
      (now + 150 <= T)%Z ->
      exists o2,
        obj_at (c, n) (objects (state_of (step T PulseTimeout (run tr s1)))) = Some o2 /\
        scale o2 = scale o).
Proof.
  intros Hc Hrc Hn. cbv zeta. rewrite (click_hit now rc c n o s Hc Hrc Hn).
  cbn [state_of].
  assert (Ho : obj_at (c, n) (objects s) = Some o) by exact Hn.
  destruct (handleObjectClick_facts now (c, n) o s Ho) as [Eobj Epl].
  assert (E1 : obj_at (c, n) (objects (handleObjectClick now (c, n) s)) =
               Some (set_scale (multiplyScalar 1.2 (scale o)) o)).
  { rewrite Eobj, obj_at_upd_obj, Ho.
    destruct (objref_eq_dec (c, n) (c, n)); [reflexivity|contradiction]. }
  split; [eexists; split; [exact E1|reflexivity]|]. split.
  - intros T HT Hp. cbn [step state_of]. rewrite runPulses_obj_at, E1, Epl.
    rewrite filter_app, last_pulse_app. cbn [filter pl_due].
    destruct (Z.leb_spec (now + 150) T) as [?|_]; [lia|].
    cbn [last_pulse]. rewrite (last_pulse_none _ _ _ Hp).
    eexists. split; reflexivity.
  - intros tr T Hq HT. cbn [step state_of]. rewrite runPulses_obj_at.
    rewrite (run_pulses_quiet tr _ Hq), Epl.
    destruct (run_obj_at_some tr _ _ _ E1) as (o' & E'). rewrite E'.
    rewrite filter_app, last_pulse_app. cbn [filter pl_due].
    destruct (Z.leb_spec (now + 150) T) as [_|?]; [|lia].
    cbn [last_pulse pl_object pl_originalScale].
    destruct (objref_eq_dec (c, n) (c, n)); [|contradiction].
    eexists. split; reflexivity.
Qed.

Lemma click_pulse_roundtrip_witness :
  exists o2,
    obj_at (Hero, 0%nat)
      (objects (state_of (step 150 PulseTimeout
                  (run [(16, Tick)]%Z
                     (state_of (step 0 (Click (fun _ => Some 0%nat)) initial_state))))))
    = Some o2 /\
    scale o2 = vone.
Proof.
  refine (proj2 (proj2 (click_pulse_roundtrip initial_state (fun _ => Some 0%nat)
                          Hero 0 _ 0 eq_refl eq_refl hero_torus))
                [(16, Tick)]%Z 150%Z _ _).
  - repeat constructor.
  - lia.
Defined.

(** X12.  A second click on the same primitive before the first timer has
    run reads the enlarged scale as the scale to go back to.  When both
    timers have run the primitive is left at 1.2 times the scale it had
    before the first click, and neither timer is pending any more. *)
Theorem double_click_sticks
    (s : state) (rc1 rc2 : raycaster) (c : section) (n : nat) (o : object)
    (t1 t2 T : Z) :
  js_index sectionNames (currentSection s) = Some c ->
  nth_error (get_section c (objects s)) n = Some o ->
  rc1 (get_section c (objects s)) = Some n ->
  rc2 (get_section c (objects (state_of (step t1 (Click rc1) s)))) = Some n ->
  (t1 <= t2 < t1 + 150)%Z -> (t2 + 150 <= T)%Z ->
  let s3 := run [(t1, Click rc1); (t2, Click rc2); (T, PulseTimeout)] s in
  (exists o3,
      obj_at (c, n) (objects s3) = Some o3 /\
      scale o3 = multiplyScalar 1.2 (scale o)) /\
  pulses s3 = filter (fun p => negb (pl_due p <=? T)%Z) (pulses s).
Proof.
  intros Hc Hn Hrc1 Hrc2 Ht HT. cbv zeta.
  rewrite (click_hit t1 rc1 c n o s Hc Hrc1 Hn) in Hrc2. cbn [state_of] in Hrc2.
  rewrite !run_cons. rewrite (click_hit t1 rc1 c n o s Hc Hrc1 Hn). cbn [state_of].
  assert (Ho : obj_at (c, n) (objects s) = Some o) by exact Hn.
  destruct (handleObjectClick_facts t1 (c, n) o s Ho) as [Eobj Epl].
  set (s1 := handleObjectClick t1 (c, n) s) in *.
  assert (E1 : obj_at (c, n) (objects s1) =
               Some (set_scale (multiplyScalar 1.2 (scale o)) o)).
  { rewrite Eobj, obj_at_upd_obj, Ho.
    destruct (objref_eq_dec (c, n) (c, n)); [reflexivity|contradiction]. }
  assert (Hc1 : js_index sectionNames (currentSection s1) = Some c).
  { destruct (handleObjectClick_core t1 (c, n) s)
      as (_ & _ & _ & _ & _ & _ & _ & _ & Hcs & _).
    fold s1 in Hcs. now rewrite Hcs. }
  rewrite (click_hit t2 rc2 c n _ s1 Hc1 Hrc2 E1). cbn [state_of].
  destruct (handleObjectClick_facts t2 (c, n) _ s1 E1) as [Eobj2 Epl2].
  set (s2 := handleObjectClick t2 (c, n) s1) in *.
  assert (E2 : exists o2, obj_at (c, n) (objects s2) = Some o2).
  { rewrite Eobj2, obj_at_upd_obj, E1.
    destruct (objref_eq_dec (c, n) (c, n)); [eexists; reflexivity|contradiction]. }
  destruct E2 as (o2 & E2).
  cbn [run step state_of]. split.
  - rewrite runPulses_obj_at, E2, Epl2, Epl.
    rewrite <- app_assoc. rewrite filter_app, last_pulse_app.
    cbn [app filter pl_due].
    destruct (Z.leb_spec (t1 + 150) T) as [_|?]; [|lia].
    destruct (Z.leb_spec (t2 + 150) T) as [_|?]; [|lia].
    cbn [last_pulse pl_object pl_originalScale scale set_scale].
    destruct (objref_eq_dec (c, n) (c, n)); [|contradiction].
    eexists. split; reflexivity.
  - unfold runPulses. cbn [pulses set_pulses set_objects]. rewrite Epl2, Epl.
    rewrite <- app_assoc. rewrite filter_app. cbn [app filter pl_due].
    destruct (Z.leb_spec (t1 + 150) T) as [_|?]; [|lia].
    destruct (Z.leb_spec (t2 + 150) T) as [_|?]; [|lia].
    cbn. apply app_nil_r.
Qed.

Lemma double_click_sticks_witness :
  exists o3,
    obj_at (Hero, 0%nat)
      (objects (run [(0, Click (fun _ => Some 0%nat)); (50, Click (fun _ => Some 0%nat));
                     (200, PulseTimeout)]%Z initial_state)) = Some o3 /\
    scale o3 = multiplyScalar 1.2 vone.
Proof.
  refine (proj1 (double_click_sticks initial_state (fun _ => Some 0%nat)
                   (fun _ => Some 0%nat) Hero 0 _ 0 50 200
                   eq_refl hero_torus eq_refl eq_refl _ _)); lia.
Defined.

(** ** Camera parallax over several frames *)

Lemma frame_camera now e rc s :
  let s' := state_of (step now (Frame e rc) s) in
  camera_position s' = camera_position (cameraUpdate s) /\
  camera_lookingAt s' = Some (targetPosition s) /\
  targetPosition s' = targetPosition s /\
  mousePosX s' = mousePosX s /\ mousePosY s' = mousePosY s.
Proof.
  cbn [step]. unfold animate.
  set (s3 := cameraUpdate
               (set_objects (update e (objects (animateRipples now s)))
                            (animateRipples now s))).
  destruct (checkIntersections_core rc false now s3)
    as (_ & _ & _ & Hcp & Hla & Htp & Hmx & Hmy & _).
  cbv zeta. rewrite Hcp, Hla, Htp, Hmx, Hmy. repeat split.
Qed.

Lemma cameraUpdate_nudge s :
  vx (camera_position (cameraUpdate s)) = nudge (mousePosX s) (vx (camera_position s)) /\
  vy (camera_position (cameraUpdate s)) = nudge (mousePosY s) (vy (camera_position s)) /\
  vz (camera_position (cameraUpdate s)) = vz (camera_position s).
Proof. repeat split. Qed.

Lemma nudge_up m x : 0 <= m -> x <= nudge m x.
Proof. intros H. unfold nudge, parallaxStrength. lra. Qed.

Lemma nudge_down m x : m <= 0 -> nudge m x <= x.
Proof. intros H. unfold nudge, parallaxStrength. lra. Qed.

Lemma nudges_up m n x : 0 <= m -> x <= Nat.iter n (nudge m) x.
Proof.
  intros H. induction n as [|n IH]; [apply Rle_refl|].
  cbn [Nat.iter nat_rect]. eapply Rle_trans; [exact IH|]. now apply nudge_up.
Qed.

Lemma nudges_down m n x : m <= 0 -> Nat.iter n (nudge m) x <= x.
Proof.
  intros H. induction n as [|n IH]; [apply Rle_refl|].
  cbn [Nat.iter nat_rect]. eapply Rle_trans; [|exact IH]. now apply nudge_down.
Qed.

(** X13.  The parallax nudge is relative to the camera's current position,
    so it adds up: over [n] rendered frames with the pointer at normalised
    coordinates [(mx, my)] the camera's x is its old x nudged [n] times
    with [mx], each nudge being [x + (x + mx * 0.01 - x) * 0.05] on the x
    the nudge before it left, and its y likewise with [my]; the camera
    never moves against the pointer (not to the left while [mx >= 0], not
    to the right while [mx <= 0], and the same vertically); its depth, the
    stored pointer and the target are untouched, and after each frame the
    camera looks at the controller's target position. *)
Theorem parallax_accumulates (tr : list (Z * event)) :
  forall s : state,
    frames_only tr ->
    let s' := run tr s in
    vx (camera_position s') =
      Nat.iter (length tr) (nudge (mousePosX s)) (vx (camera_position s)) /\
    vy (camera_position s') =
      Nat.iter (length tr) (nudge (mousePosY s)) (vy (camera_position s)) /\
    vz (camera_position s') = vz (camera_position s) /\
    mousePosX s' = mousePosX s /\ mousePosY s' = mousePosY s /\
    targetPosition s' = targetPosition s /\
    (0 <= mousePosX s -> vx (camera_position s) <= vx (camera_position s')) /\
    (mousePosX s <= 0 -> vx (camera_position s') <= vx (camera_position s)) /\
    (0 <= mousePosY s -> vy (camera_position s) <= vy (camera_position s')) /\
    (mousePosY s <= 0 -> vy (camera_position s') <= vy (camera_position s)) /\
    (tr <> [] -> camera_lookingAt s' = Some (targetPosition s)).
Proof.
  assert (Core : forall tr s, frames_only tr ->
            vx (camera_position (run tr s)) =
              Nat.iter (length tr) (nudge (mousePosX s)) (vx (camera_position s)) /\
            vy (camera_position (run tr s)) =
              Nat.iter (length tr) (nudge (mousePosY s)) (vy (camera_position s)) /\
            vz (camera_position (run tr s)) = vz (camera_position s) /\
            mousePosX (run tr s) = mousePosX s /\ mousePosY (run tr s) = mousePosY s /\
            targetPosition (run tr s) = targetPosition s /\
            (tr <> [] -> camera_lookingAt (run tr s) = Some (targetPosition s))).
  { clear tr. induction tr as [|[now ev] r IH]; intros s H.
    - cbn [run length Nat.iter nat_rect]. repeat split. intros F. now contradiction F.
    - apply Forall_cons_iff in H. destruct H as [He Hr]. cbn [snd] in He.
      destruct ev as [| | | | | | | |e rc]; try contradiction.
      rewrite run_cons.
      destruct (frame_camera now e rc s) as (Hcp & Hla & Htp & Hmx & Hmy).
      destruct (cameraUpdate_nudge s) as (Dx & Dy & Dz).
      destruct (IH (state_of (step now (Frame e rc) s)) Hr)
        as (Ix & Iy & Iz & Imx & Imy & Itp & Ila).
      change (length ((now, Frame e rc) :: r)) with (S (length r)).
      rewrite !Nat.iter_succ_r.
      rewrite Ix, Iy, Iz, Imx, Imy, Itp, Hmx, Hmy, Htp, Hcp, Dx, Dy, Dz.
      repeat split.
      intros _. destruct r as [|x r].
      + cbn [run]. exact Hla.
      + rewrite Ila by discriminate. now rewrite Htp. }
  intros s H. cbv zeta.
  destruct (Core tr s H) as (Ix & Iy & Iz & Imx & Imy & Itp & Ila).
  split; [exact Ix|]. split; [exact Iy|]. split; [exact Iz|].
  split; [exact Imx|]. split; [exact Imy|]. split; [exact Itp|].
  split; [intros Hm; rewrite Ix; now apply nudges_up|].
  split; [intros Hm; rewrite Ix; now apply nudges_down|].
  split; [intros Hm; rewrite Iy; now apply nudges_up|].
  split; [intros Hm; rewrite Iy; now apply nudges_down|].
  exact Ila.
Qed.

Lemma parallax_accumulates_witness :
  let s0 := state_of (step 0 (MouseMove (mkViewport 800 600) 800 300) initial_state) in
  let s' := run [(16, Frame 0 (fun _ => None)); (32, Frame 0 (fun _ => None))]%Z s0 in
  vx (camera_position s') = Nat.iter 2 (nudge (mousePosX s0)) (vx (camera_position s0)).
Proof.
  refine (proj1 (parallax_accumulates _ _ _)). repeat constructor.
Defined.

(** ** The course of a ripple *)

(** X14.  While a ripple is younger than one second, its frame callback
    sets its scale to [(1 + 3p, 1 + 3p, 1)] and its opacity to [1 - p] for
    the progress [p = elapsed / 1000]: the ring grows from 1 towards 4
    times its size and fades from 1 towards 0, stays where it was placed,
    and stays scheduled for the next frame. *)
Theorem ripple_course
    (s : state) (k : nat) (rp : ripple) (T : Z) (e : R) (rc : raycaster) :
  nth_error (ripples s) k = Some rp ->
  rp_scheduled rp = true ->
  (rp_startTime rp <= T < rp_startTime rp + 1000)%Z ->
  exists rp',
    nth_error (ripples (state_of (step T (Frame e rc) s))) k = Some rp' /\
    let p := IZR (T - rp_startTime rp) / 1000 in
    0 <= p < 1 /\
    rp_scale rp' = mkVec3 (1 + p * 3) (1 + p * 3) 1 /\
    rp_opacity rp' = 1 - p /\
    1 <= vx (rp_scale rp') < 4 /\ 0 < rp_opacity rp' <= 1 /\
    rp_position rp' = rp_position rp /\ rp_startTime rp' = rp_startTime rp /\
    rp_inScene rp' = rp_inScene rp /\ rp_scheduled rp' = true.
Proof.
  intros Hk Hs HT. rewrite (step_ripple_nth T (Frame e rc) s k rp Hk).
  eexists. split; [reflexivity|]. cbv zeta. cbn [ripple_step]. rewrite Hs.
  assert (H0 : 0 <= IZR (T - rp_startTime rp)) by (apply IZR_le; lia).
  assert (H1 : IZR (T - rp_startTime rp) < 1000) by (apply IZR_lt; lia).
  assert (Hp : 0 <= IZR (T - rp_startTime rp) / 1000 < 1) by (split; lra).
  unfold animateRipple.
  destruct (Rlt_dec (IZR (T - rp_startTime rp) / 1000) 1) as [_|F];
    [|now contradiction F].
  cbn. repeat split; lra.
Qed.

Lemma ripple_course_witness :
  exists rp',
    nth_error
      (ripples (state_of (step 500 (Frame 1 (fun _ => None))
                  (set_ripples [mkRipple vzero vone 1 0 true false false true]
                               initial_state)))) 0 = Some rp' /\
    rp_opacity rp' = 1 - IZR (500 - 0) / 1000.
Proof.
  destruct (ripple_course
              (set_ripples [mkRipple vzero vone 1 0 true false false true] initial_state)
              0 _ 500 1 (fun _ => None) eq_refl eq_refl)
    as (rp' & H & _ & _ & Ho & _).
  - cbn. lia.
  - exists rp'. split; [exact H|exact Ho].
Defined.

(** ** A burst of wheel events *)

Lemma wheel_then_check t d tc s :
  (tc < t + 100)%Z ->
  step tc ScrollTimeout (onWheel t d s) = Ok (onWheel t d s).
Proof. intros H. cbn [step]. now apply (runScrollTimeout_early tc (t + 100) d). Qed.

(** X15.  However long a burst of wheel events is, as long as the timer
    callback never runs at or after the deadline of the wheel event before
    it (each event arrives less than 100 ms after the previous one), no
    navigation happens and nothing is raised: the only change is the
    pending timer, which is the one of the last event. *)
Theorem wheel_burst_debounced (b : list (Z * R * Z)) :
  forall (s : state) (t : Z) (d : R) (tc : Z),
    Forall (fun x => (snd x < fst (fst x) + 100)%Z) (b ++ [(t, d, tc)]) ->
    run (burst (b ++ [(t, d, tc)])) s = set_scrollTimeout (Some ((t + 100)%Z, d)) s /\
    uncaught (burst (b ++ [(t, d, tc)])) s = O.
Proof.
  induction b as [|[[t0 d0] tc0] b IH]; intros s t d tc H.
  - apply Forall_cons_iff in H. destruct H as [H _]. cbn [fst snd] in H.
    cbn [app burst flat_map fst snd]. rewrite !run_cons. cbn [uncaught].
    cbn [step state_of threw]. fold (step tc ScrollTimeout (onWheel t d s)).
    rewrite (wheel_then_check t d tc s H). split; reflexivity.
  - change (((t0, d0, tc0) :: b) ++ [(t, d, tc)])
      with ((t0, d0, tc0) :: (b ++ [(t, d, tc)])) in *.
    apply Forall_cons_iff in H. destruct H as [H0 H]. cbn [fst snd] in H0.
    change (burst ((t0, d0, tc0) :: b ++ [(t, d, tc)]))
      with ((t0, Wheel d0) :: (tc0, ScrollTimeout) :: burst (b ++ [(t, d, tc)])).
    rewrite !run_cons. cbn [uncaught].
    cbn [step state_of threw]. fold (step tc0 ScrollTimeout (onWheel t0 d0 s)).
    rewrite (wheel_then_check t0 d0 tc0 s H0). cbn [state_of threw].
    destruct (IH (onWheel t0 d0 s) t d tc H) as [IR IU].
    rewrite IR, IU. split; reflexivity.
Qed.

Lemma wheel_burst_debounced_witness :
  run (burst ([(0%Z, 120, 50%Z); (60%Z, 120, 100%Z)] ++ [(120%Z, -120, 200%Z)]))
      initial_state =
  set_scrollTimeout (Some ((120 + 100)%Z, -120)) initial_state.
Proof.
  refine (proj1 (wheel_burst_debounced _ initial_state 120%Z (-120) 200%Z _)).
  repeat (apply Forall_cons; [cbn; lia|]). apply Forall_nil.
Defined.

(** ** Navigation to an index that is no section *)

Lemma checkIntersections_no_section rc b now s :
  js_index sectionNames (currentSection s) = None ->
  checkIntersections rc b now s = Thrown s.
Proof. intros H. unfold checkIntersections. now rewrite H. Qed.

(** X16.  A navigation request for any index outside 0..4 (other than the
    index already current) is not ignored: the handler raises, after both
    section indices took the value and every primitive got a hide tween,
    and without moving the camera.  From then on a repeated request for
    the same index returns silently, every rendered frame and every click
    raises in the hover resolve, and a request for one of the five
    sections goes through and puts both indices back in range. *)
Theorem out_of_range_navigation (s : state) (i now : Z) :
  ~ valid_index i -> i <> app_currentSection s ->
  let r := navigateToSection now i s in
  threw r = true /\
  app_currentSection (state_of r) = i /\ currentSection (state_of r) = i /\
  camera_position (state_of r) = camera_position s /\
  targetPosition (state_of r) = targetPosition s /\
  objects (state_of r) = objects s /\
  tweens (state_of r) = tweens s ++ map (hideTween now) (all_refs (objects s)) /\
  (forall now', navigateToSection now' i (state_of r) = Ok (state_of r)) /\
  (forall now' e rc, threw (step now' (Frame e rc) (state_of r)) = true) /\
  (forall now' rc, threw (step now' (Click rc) (state_of r)) = true) /\
  (forall now' j,
      valid_index j ->
      threw (navigateToSection now' j (state_of r)) = false /\
      in_sync (state_of (navigateToSection now' j (state_of r)))).
Proof.
  intros Hv Hne. cbv zeta. rewrite (navigateToSection_out_of_range now i s Hv Hne).
  cbn [threw state_of].
  set (s' := mkState i _ _ _ _ _ _ _ _ i _ _ _ _ _ _ _).
  assert (Hr : (i < 0 \/ Z.of_nat (length sectionNames) <= i)%Z)
    by (unfold valid_index in Hv; cbn; lia).
  assert (Hn : js_index sectionNames (currentSection s') = None)
    by (apply js_index_out_of_range; exact Hr).
  do 7 (split; [reflexivity|]).
  split; [intros now'; apply (navigateToSection_same now' s')|].
  split; [|split].
  - intros now' e rc. cbn [step]. unfold animate.
    rewrite checkIntersections_no_section; [reflexivity|exact Hn].
  - intros now' rc. cbn [step].
    rewrite checkIntersections_no_section; [reflexivity|exact Hn].
  - intros now' j Hj.
    assert (Hji : j <> app_currentSection s') by (cbn; intros ->; contradiction).
    destruct (sectionNames_valid j Hj) as (c & Ec).
    destruct (sectionPositions_valid j Hj) as (p & Ep).
    rewrite (navigateToSection_valid now' j c p s' Ec Ep Hji).
    split; [reflexivity|]. split; [exact Hj|reflexivity].
Qed.

Lemma out_of_range_navigation_witness :
  let r := navigateToSection 0 (-1) initial_state in
  threw r = true /\ app_currentSection (state_of r) = (-1)%Z.
Proof.
  destruct (out_of_range_navigation initial_state (-1) 0) as (H1 & H2 & _).
  - unfold valid_index. lia.
  - discriminate.
  - split; [exact H1|exact H2].
Defined.

(** ** Event listeners and the two [dispose] methods *)

Lemma eventTarget_eqb_refl a : eventTarget_eqb a a = true.
Proof. destruct a; cbn; try reflexivity. apply Nat.eqb_refl. Qed.

Lemma eventType_eqb_eq a b : eventType_eqb a b = true <-> a = b.
Proof. destruct a, b; cbn; split; congruence. Qed.

Lemma same_listener_refl l : same_listener l l = true.
Proof.
  unfold same_listener.
  rewrite eventTarget_eqb_refl, (proj2 (eventType_eqb_eq _ _) eq_refl), Nat.eqb_refl.
  now destruct (l_capture l).
Qed.

Lemma same_listener_serial a b :
  same_listener a b = true -> cb_serial (l_callback a) = cb_serial (l_callback b).
Proof.
  unfold same_listener. intros H.
  apply andb_true_iff in H. destruct H as [H _].
  apply andb_true_iff in H. destruct H as [_ H]. now apply Nat.eqb_eq.
Qed.

Lemma same_listener_type a b : same_listener a b = true -> l_type a = l_type b.
Proof.
  unfold same_listener. intros H.
  apply andb_true_iff in H. destruct H as [H _].
  apply andb_true_iff in H. destruct H as [H _].
  apply andb_true_iff in H. destruct H as [_ H]. now apply eventType_eqb_eq.
Qed.

Lemma filter_keep {A : Type} (f : A -> bool) (l : list A) :
  Forall (fun x => f x = true) l -> filter f l = l.
Proof. induction 1 as [|x l Hx _ IH]; [reflexivity|]. cbn. now rewrite Hx, IH. Qed.

Lemma remove_absent tg ty f cap ls n :
  Forall (fun l => same_listener (mkListener tg ty f cap) l = false) ls ->
  removeEventListener tg ty f cap (mkHost ls n) = mkHost ls n.
Proof.
  intros H. unfold removeEventListener. cbn [listeners nextSerial].
  rewrite filter_keep; [reflexivity|].
  eapply Forall_impl; [|exact H]. cbn. now intros l ->.
Qed.

Lemma add_absent tg ty f cap ls n :
  Forall (fun l => same_listener (mkListener tg ty f cap) l = false) ls ->
  addEventListener tg ty f cap (mkHost ls n) = mkHost (ls ++ [mkListener tg ty f cap]) n.
Proof.
  intros H. unfold addEventListener. cbn [listeners nextSerial].
  destruct (existsb (same_listener (mkListener tg ty f cap)) ls) eqn:E; [|reflexivity].
  apply existsb_exists in E. destruct E as (x & Hin & Hx).
  rewrite Forall_forall in H. rewrite (H x Hin) in Hx. discriminate.
Qed.

Lemma older_not_same tg ty c cap ls n m :
  (n <= m)%nat ->
  Forall (fun l => (cb_serial (l_callback l) < n)%nat) ls ->
  Forall (fun l => same_listener (mkListener tg ty (mkCallback m c) cap) l = false) ls.
Proof.
  intros Hnm H. eapply Forall_impl; [|exact H]. cbn. intros l Hl.
  destruct (same_listener (mkListener tg ty (mkCallback m c) cap) l) eqn:E; [|reflexivity].
  apply same_listener_serial in E. cbn in E. lia.
Qed.

Lemma older_snoc tg ty c cap ls n :
  Forall (fun l => (cb_serial (l_callback l) < n)%nat) ls ->
  Forall (fun l => (cb_serial (l_callback l) < S n)%nat)
         (ls ++ [mkListener tg ty (mkCallback n c) cap]).
Proof.
  intros H. apply Forall_app. split.
  - eapply Forall_impl; [|exact H]. cbn. intros; lia.
  - constructor; [cbn; lia|constructor].
Qed.

Lemma older_weaken ls n m :
  (n <= m)%nat ->
  Forall (fun l : listener => (cb_serial (l_callback l) < n)%nat) ls ->
  Forall (fun l : listener => (cb_serial (l_callback l) < m)%nat) ls.
Proof. intros Hnm H. eapply Forall_impl; [|exact H]. cbn. intros; lia. Qed.

(** Making a function and registering it appends one listener. *)
Lemma register_fresh c tg ty cap ls n :
  Forall (fun l => (cb_serial (l_callback l) < n)%nat) ls ->
  addEventListener tg ty (mkCallback n c) cap (mkHost ls (S n)) =
  mkHost (ls ++ [mkListener tg ty (mkCallback n c) cap]) (S n).
Proof. intros H. apply add_absent. now apply (older_not_same _ _ _ _ _ n). Qed.

(** Making a function and unregistering it removes nothing. *)
Lemma unregister_fresh c tg ty cap ls n :
  Forall (fun l => (cb_serial (l_callback l) < n)%nat) ls ->
  removeEventListener tg ty (mkCallback n c) cap (mkHost ls (S n)) = mkHost ls (S n).
Proof. intros H. apply remove_absent. now apply (older_not_same _ _ _ _ _ n). Qed.

Lemma interaction_setup_spec ls n :
  Forall (fun l => (cb_serial (l_callback l) < n)%nat) ls ->
  InteractionManager.setupEventListeners (mkHost ls n) =
  mkHost (ls ++ [mkListener Window EvMouseMove (mkCallback n Bound_onMouseMove) false;
                 mkListener Window EvClick (mkCallback (S n) Bound_onClick) false;
                 mkListener Window EvTouchStart (mkCallback (S (S n)) Bound_onTouchStart)
                            false])
         (S (S (S n))).
Proof.
  intros H. unfold InteractionManager.setupEventListeners, newFunction.
  cbn [listeners nextSerial].
  rewrite (register_fresh _ _ _ _ _ _ H).
  pose proof (older_snoc Window EvMouseMove Bound_onMouseMove false ls n H) as H1.
  rewrite (register_fresh _ _ _ _ _ _ H1).
  pose proof (older_snoc Window EvClick Bound_onClick false _ _ H1) as H2.
  rewrite (register_fresh _ _ _ _ _ _ H2).
  now rewrite <- !app_assoc.
Qed.

Lemma interaction_dispose_spec ls n :
  Forall (fun l => (cb_serial (l_callback l) < n)%nat) ls ->
  InteractionManager.dispose (mkHost ls n) = mkHost ls (S (S (S n))).
Proof.
  intros H. unfold InteractionManager.dispose, newFunction.
  cbn [listeners nextSerial].
  rewrite (unregister_fresh _ _ _ _ _ _ H).
  rewrite (unregister_fresh _ _ _ _ _ _ (older_weaken _ _ _ (Nat.le_succ_diag_r n) H)).
  rewrite (unregister_fresh _ _ _ _ _ (S (S n))); [reflexivity|].
  apply (older_weaken ls n); [lia|exact H].
Qed.

(** X17.  [InteractionManager.dispose] removes no listener.  The three
    window listeners registered by [setupEventListeners] are functions made
    by [bind] at registration; [dispose] hands [removeEventListener] three
    new functions made by [bind], which match nothing.  After [dispose] the
    mouse-move, click and touch-start listeners are all still registered,
    and so is every other listener of the page. *)
Theorem interaction_dispose_removes_nothing (h : host) :
  well_formed h ->
  let h1 := InteractionManager.setupEventListeners h in
  listeners h1 =
  listeners h ++
    [mkListener Window EvMouseMove (mkCallback (nextSerial h) Bound_onMouseMove) false;
     mkListener Window EvClick (mkCallback (S (nextSerial h)) Bound_onClick) false;
     mkListener Window EvTouchStart (mkCallback (S (S (nextSerial h))) Bound_onTouchStart)
                false] /\
  well_formed h1 /\
  listeners (InteractionManager.dispose h1) = listeners h1 /\
  listeners (InteractionManager.dispose h) = listeners h.
Proof.
  destruct h as [ls n]. unfold well_formed. cbn [listeners nextSerial]. intros H.
  cbv zeta. rewrite (interaction_setup_spec ls n H). cbn [listeners nextSerial].
  assert (H3 : Forall (fun l => (cb_serial (l_callback l) < S (S (S n)))%nat)
                 (ls ++ [mkListener Window EvMouseMove (mkCallback n Bound_onMouseMove) false;
                         mkListener Window EvClick (mkCallback (S n) Bound_onClick) false;
                         mkListener Window EvTouchStart
                           (mkCallback (S (S n)) Bound_onTouchStart) false])).
  { apply Forall_app. split; [apply (older_weaken ls n); [lia|exact H]|].
    repeat constructor; cbn; lia. }
  split; [reflexivity|]. split; [exact H3|]. split.
  - now rewrite (interaction_dispose_spec _ _ H3).
  - now rewrite (interaction_dispose_spec _ _ H).
Qed.

Lemma interaction_dispose_removes_nothing_witness :
  listeners (InteractionManager.dispose
               (InteractionManager.setupEventListeners (mkHost [] 0))) =
  listeners (InteractionManager.setupEventListeners (mkHost [] 0)).
Proof.
  refine (proj1 (proj2 (proj2 (interaction_dispose_removes_nothing (mkHost [] 0) _)))).
  constructor.
Defined.

Lemma nav_loop ks :
  forall ls n,
    Forall (fun l => (cb_serial (l_callback l) < n)%nat) ls ->
    exists extra,
      fold_left (fun h k =>
                   let (f, h) := newFunction (NavLinkHandler k) h in
                   addEventListener (NavLink k) EvClick f false h)
                ks (mkHost ls n) =
      mkHost (ls ++ extra) (n + length ks) /\
      Forall (fun l => l_type l <> EvResize) extra /\
      length extra = length ks /\
      Forall (fun l => (cb_serial (l_callback l) < n + length ks)%nat) (ls ++ extra).
Proof.
  induction ks as [|k ks IH]; intros ls n H.
  - exists []. cbn. rewrite app_nil_r, Nat.add_0_r. repeat split; [constructor|exact H].
  - cbn [fold_left]. unfold newFunction at 2. cbn [listeners nextSerial].
    rewrite (register_fresh _ _ _ _ _ _ H).
    destruct (IH _ _ (older_snoc (NavLink k) EvClick (NavLinkHandler k) false ls n H))
      as (extra & E & Ht & Hl & Hs).
    exists (mkListener (NavLink k) EvClick (mkCallback n (NavLinkHandler k)) false :: extra).
    rewrite E. cbn [length]. rewrite <- app_assoc in *. cbn [app] in *.
    replace (n + S (length ks))%nat with (S n + length ks)%nat by lia.
    repeat split.
    + constructor; [cbn; discriminate|exact Ht].
    + now rewrite Hl.
    + exact Hs.
Qed.

Lemma not_same_by_serial tg ty f cap ls :
  Forall (fun l => cb_serial (l_callback l) <> cb_serial f) ls ->
  Forall (fun l => same_listener (mkListener tg ty f cap) l = false) ls.
Proof.
  intros H. eapply Forall_impl; [|exact H]. cbn. intros l Hl.
  destruct (same_listener (mkListener tg ty f cap) l) eqn:E; [|reflexivity].
  apply same_listener_serial in E. cbn in E. congruence.
Qed.

(** [Portfolio3D.setupEventListeners] and [Portfolio3D.dispose] on a page
    where the bound resize function is older than the next function to be
    made and is not registered yet. *)
Lemma portfolio_listeners ls m a k navLinks cta :
  Forall (fun l => (cb_serial (l_callback l) < m)%nat) ls ->
  Forall (fun l => cb_serial (l_callback l) <> k) ls ->
  (k < m)%nat ->
  let b := Portfolio3D.mkBound a (mkCallback k Bound_onWindowResize) in
  let resize := mkListener Window EvResize (mkCallback k Bound_onWindowResize) false in
  exists extra m',
    Portfolio3D.setupEventListeners b navLinks cta (mkHost ls m) =
    mkHost (ls ++ resize :: extra) m' /\
    Portfolio3D.dispose b (mkHost (ls ++ resize :: extra) m') = mkHost (ls ++ extra) m' /\
    Forall (fun l => l_type l <> EvResize) extra /\
    length extra = (navLinks + (if cta then 1 else 0) + 2)%nat /\
    Forall (fun l => (cb_serial (l_callback l) < m')%nat) (ls ++ extra).
Proof.
  intros H Hk Hkm. cbv zeta.
  set (resize := mkListener Window EvResize (mkCallback k Bound_onWindowResize) false).
  unfold Portfolio3D.setupEventListeners. cbn [Portfolio3D.onWindowResize].
  rewrite (add_absent _ _ _ _ _ _
             (not_same_by_serial Window EvResize (mkCallback k Bound_onWindowResize)
                                 false ls Hk)).
  fold resize.
  assert (H1 : Forall (fun l => (cb_serial (l_callback l) < m)%nat) (ls ++ [resize])).
  { apply Forall_app. split; [exact H|]. constructor; [exact Hkm|constructor]. }
  destruct (nav_loop (seq 0 navLinks) _ _ H1) as (navs & E & Ht & Hl & Hs).
  rewrite E. rewrite length_seq in *. clear E.
  set (m1 := (m + navLinks)%nat) in *.
  assert (Hcta : exists ctas,
             (if cta then
                let (f, h) := newFunction CtaHandler (mkHost ((ls ++ [resize]) ++ navs) m1) in
                addEventListener CtaButton EvClick f false h
              else mkHost ((ls ++ [resize]) ++ navs) m1) =
             mkHost (((ls ++ [resize]) ++ navs) ++ ctas) (m1 + length ctas) /\
             Forall (fun l => l_type l <> EvResize) ctas /\
             length ctas = (if cta then 1 else 0)%nat /\
             Forall (fun l => (cb_serial (l_callback l) < m1 + length ctas)%nat)
                    (((ls ++ [resize]) ++ navs) ++ ctas)).
  { destruct cta.
    - exists [mkListener CtaButton EvClick (mkCallback m1 CtaHandler) false].
      unfold newFunction. cbn [listeners nextSerial length].
      rewrite (register_fresh _ _ _ _ _ _ Hs).
      replace (m1 + 1)%nat with (S m1) by lia.
      repeat split; [constructor; [cbn; discriminate|constructor]|].
      now apply older_snoc.
    - exists []. cbn [length]. rewrite app_nil_r, Nat.add_0_r.
      repeat split; [constructor|exact Hs]. }
  destruct Hcta as (ctas & E & Htc & Hlc & Hsc). rewrite E. clear E.
  unfold newFunction. cbn [listeners nextSerial].
  rewrite (register_fresh _ _ _ _ _ _ Hsc).
  pose proof (older_snoc Document EvMouseMove ParallaxHandler false _ _ Hsc) as Hs5.
  rewrite (register_fresh _ _ _ _ _ _ Hs5).
  pose proof (older_snoc Window EvWheel WheelHandler false _ _ Hs5) as Hs6.
  set (l5 := mkListener Document EvMouseMove (mkCallback (m1 + length ctas) ParallaxHandler)
                        false) in *.
  set (l6 := mkListener Window EvWheel (mkCallback (S (m1 + length ctas)) WheelHandler)
                        false) in *.
  exists (navs ++ ctas ++ [l5; l6]), (S (S (m1 + length ctas))).
  assert (Hx : Forall (fun l => l_type l <> EvResize) (navs ++ ctas ++ [l5; l6])).
  { apply Forall_app. split; [exact Ht|]. apply Forall_app. split; [exact Htc|].
    repeat constructor; cbn; discriminate. }
  assert (Eq : ((((ls ++ [resize]) ++ navs) ++ ctas) ++ [l5]) ++ [l6] =
               ls ++ resize :: navs ++ ctas ++ [l5; l6])
    by (rewrite <- !app_assoc; reflexivity).
  rewrite Eq in *. split; [reflexivity|]. split; [|split; [exact Hx|split]].
  - unfold Portfolio3D.dispose, removeEventListener.
    cbn [listeners nextSerial Portfolio3D.onWindowResize]. fold resize.
    rewrite filter_app. cbn [filter]. rewrite same_listener_refl. cbn [negb].
    rewrite !filter_keep; [reflexivity| |].
    + eapply Forall_impl; [|exact Hx]. cbn. intros l Hl'.
      destruct (same_listener resize l) eqn:Es; [|reflexivity].
      apply same_listener_type in Es. cbn in Es. congruence.
    + eapply Forall_impl; [|exact Hk]. cbn. intros l Hl'.
      destruct (same_listener resize l) eqn:Es; [|reflexivity].
      apply same_listener_serial in Es. cbn in Es. congruence.
  - rewrite !length_app, Hl, Hlc. cbn [length]. lia.
  - apply Forall_app in Hs6. destruct Hs6 as [Ha Hb].
    apply Forall_cons_iff in Hb. destruct Hb as [_ Hb].
    apply Forall_app. split; assumption.
Qed.

(** X18.  Of all the listeners the application registers, its teardown
    removes the resize listener and nothing else.  The constructor replaces
    [onWindowResize] by one bound function, which is the function
    registered and the function [Portfolio3D.dispose] removes.  The click
    listeners of the navigation links and of the call-to-action button, the
    document's mouse-move listener and the wheel listener are function
    expressions that nothing keeps, and the three listeners of the
    interaction manager survive its own [dispose]: after both [dispose]
    methods have run they are all still registered. *)
Theorem portfolio_dispose_removes_resize_only (h : host) (navLinks : nat) (cta : bool) :
  well_formed h ->
  let b := fst (Portfolio3D.constructor h) in
  let h1 := InteractionManager.setupEventListeners (snd (Portfolio3D.constructor h)) in
  let h2 := Portfolio3D.setupEventListeners b navLinks cta h1 in
  let h3 := InteractionManager.dispose (Portfolio3D.dispose b h2) in
  let resize := mkListener Window EvResize (Portfolio3D.onWindowResize b) false in
  exists extra,
    length (listeners h1) = (length (listeners h) + 3)%nat /\
    listeners h2 = listeners h1 ++ resize :: extra /\
    listeners h3 = listeners h1 ++ extra /\
    Forall (fun l => l_type l <> EvResize) extra /\
    length extra = (navLinks + (if cta then 1 else 0) + 2)%nat.
Proof.
  destruct h as [ls n]. unfold well_formed. cbn [listeners nextSerial]. intros H.
  unfold Portfolio3D.constructor, newFunction. cbn [listeners nextSerial fst snd].
  cbv zeta. cbn [Portfolio3D.onWindowResize].
  assert (H2 : Forall (fun l => (cb_serial (l_callback l) < S (S n))%nat) ls)
    by (apply (older_weaken ls n); [lia|exact H]).
  rewrite (interaction_setup_spec ls (S (S n)) H2).
  set (ims := [mkListener Window EvMouseMove (mkCallback (S (S n)) Bound_onMouseMove) false;
               mkListener Window EvClick (mkCallback (S (S (S n))) Bound_onClick) false;
               mkListener Window EvTouchStart
                 (mkCallback (S (S (S (S n)))) Bound_onTouchStart) false]).
  assert (H5 : Forall (fun l => (cb_serial (l_callback l) < S (S (S (S (S n)))))%nat)
                 (ls ++ ims)).
  { apply Forall_app. split; [apply (older_weaken ls n); [lia|exact H]|].
    repeat constructor; cbn; lia. }
  assert (Hk : Forall (fun l => cb_serial (l_callback l) <> S n) (ls ++ ims)).
  { apply Forall_app. split.
    - eapply Forall_impl; [|exact H]. cbn. intros; lia.
    - repeat constructor; cbn; lia. }
  destruct (portfolio_listeners (ls ++ ims) (S (S (S (S (S n)))))
              (mkCallback n Bound_animate) (S n) navLinks cta H5 Hk)
    as (extra & m' & E2 & E3 & Ht & Hl & Hs); [lia|].
  cbv zeta in E2, E3. rewrite E2, E3.
  rewrite (interaction_dispose_spec _ _ Hs). cbn [listeners].
  exists extra. split; [rewrite length_app; reflexivity|].
  split; [reflexivity|]. split; [reflexivity|]. split; [exact Ht|exact Hl].
Qed.

Lemma portfolio_dispose_removes_resize_only_witness :
  exists extra,
    listeners
      (InteractionManager.dispose
         (Portfolio3D.dispose (fst (Portfolio3D.constructor (mkHost [] 0)))
            (Portfolio3D.setupEventListeners
               (fst (Portfolio3D.constructor (mkHost [] 0))) 5 true
               (InteractionManager.setupEventListeners
                  (snd (Portfolio3D.constructor (mkHost [] 0))))))) =
    listeners (InteractionManager.setupEventListeners
                 (snd (Portfolio3D.constructor (mkHost [] 0)))) ++ extra /\
    length extra = (5 + 1 + 2)%nat.
Proof.
  destruct (portfolio_dispose_removes_resize_only (mkHost [] 0) 5 true)
    as (extra & _ & _ & H3 & _ & HL); [constructor|].
  exists extra. split; [exact H3|exact HL].
Defined.

(** ** The environment *)

Lemma star_range r : 0 <= r < 1 -> -1000 <= (r - 0.5) * 2000 <= 1000.
Proof. lra. Qed.

Lemma particle_range r : 0 <= r < 1 -> -50 <= (r - 0.5) * 100 <= 50.
Proof. lra. Qed.

Lemma starLoop_spec n :
  forall acc g,
    unit_draws g ->
    Forall (fun c => -1000 <= c <= 1000) acc ->
    length (fst (SceneManager.starLoop n acc g)) = (length acc + 3 * n)%nat /\
    Forall (fun c => -1000 <= c <= 1000) (fst (SceneManager.starLoop n acc g)) /\
    used (snd (SceneManager.starLoop n acc g)) = (used g + 3 * n)%nat /\
    draws (snd (SceneManager.starLoop n acc g)) = draws g.
Proof.
  induction n as [|n IH]; intros acc g Hu Ha.
  - cbn. rewrite !Nat.add_0_r. repeat split. exact Ha.
  - cbn [SceneManager.starLoop]. unfold SceneManager.starVertex, random.
    cbn [draws used].
    set (g3 := mkRng (draws g) (S (S (S (used g))))).
    assert (Hu3 : unit_draws g3) by exact Hu.
    assert (Ha3 : Forall (fun c => -1000 <= c <= 1000)
                    (acc ++ [(draws g (used g) - 0.5) * 2000;
                             (draws g (S (used g)) - 0.5) * 2000;
                             (draws g (S (S (used g))) - 0.5) * 2000])).
    { apply Forall_app. split; [exact Ha|].
      repeat (apply Forall_cons; [apply star_range, Hu|]). apply Forall_nil. }
    destruct (IH _ g3 Hu3 Ha3) as (IL & IF & IU & ID).
    rewrite IL, IU, ID. rewrite length_app. cbn [length used draws g3].
    repeat split; [lia|exact IF|lia].
Qed.

(** X19.  The star field has 10000 stars, three coordinates each, and
    every coordinate lies between -1000 and 1000: the stars fill a cube of
    side 2000 around the origin.  Building it takes 30000 draws from the random
    source. *)
Theorem starfield_in_cube (g : rng) :
  unit_draws g ->
  let s := fst (SceneManager.createStarfield g) in
  let g' := snd (SceneManager.createStarfield g) in
  length (SceneManager.positionAttribute s) = (3 * Z.to_nat 10000)%nat /\
  Forall (fun c => -1000 <= c <= 1000) (SceneManager.positionAttribute s) /\
  SceneManager.colorAttribute s = [] /\
  used g' = (used g + 3 * Z.to_nat 10000)%nat /\ draws g' = draws g.
Proof.
  intros Hu. cbv zeta. unfold SceneManager.createStarfield.
  pose proof (starLoop_spec (Z.to_nat 10000) [] g Hu (Forall_nil _)) as H.
  destruct (SceneManager.starLoop (Z.to_nat 10000) [] g) as [vs g1].
  cbn [fst snd SceneManager.positionAttribute SceneManager.colorAttribute length] in *.
  destruct H as (HL & HF & HU & HD). repeat split; assumption.
Qed.

Lemma starfield_in_cube_witness :
  Forall (fun c => -1000 <= c <= 1000)
         (SceneManager.positionAttribute
            (fst (SceneManager.createStarfield (mkRng (fun _ => 0.25) 0)))).
Proof.
  refine (proj1 (proj2 (starfield_in_cube (mkRng (fun _ => 0.25) 0) _))).
  intros k. cbn. lra.
Defined.

Lemma palette_snoc l c :
  palette_buffer l -> palette_buffer c -> palette_buffer (l ++ c).
Proof. induction 1; intros Hc; cbn; [exact Hc| | |]; constructor; auto. Qed.

Lemma palette_choice r :
  palette_buffer (if Rlt_dec r 0.33 then [0; 1; 1]
                  else if Rlt_dec r 0.66 then [1; 0; 1] else [0; 1; 0.5]).
Proof.
  destruct (Rlt_dec r 0.33); [|destruct (Rlt_dec r 0.66)]; repeat constructor.
Qed.

Lemma particleLoop_spec n :
  forall pos col g,
    unit_draws g ->
    Forall (fun c => -50 <= c <= 50) pos ->
    palette_buffer col ->
    let r := SceneManager.particleLoop n pos col g in
    length (fst (fst r)) = (length pos + 3 * n)%nat /\
    length (snd (fst r)) = (length col + 3 * n)%nat /\
    Forall (fun c => -50 <= c <= 50) (fst (fst r)) /\
    palette_buffer (snd (fst r)) /\
    used (snd r) = (used g + 4 * n)%nat /\
    draws (snd r) = draws g.
Proof.
  induction n as [|n IH]; intros pos col g Hu Hp Hc; cbv zeta.
  - cbn. rewrite !Nat.add_0_r. repeat split; assumption.
  - cbn [SceneManager.particleLoop]. unfold SceneManager.particle, random.
    cbn [draws used].
    set (g4 := mkRng (draws g) (S (S (S (S (used g)))))).
    set (c := if Rlt_dec (draws g (S (S (S (used g))))) 0.33 then [0; 1; 1]
              else if Rlt_dec (draws g (S (S (S (used g))))) 0.66 then [1; 0; 1]
                   else [0; 1; 0.5]).
    assert (Hu4 : unit_draws g4) by exact Hu.
    assert (Hp4 : Forall (fun c => -50 <= c <= 50)
                    (pos ++ [(draws g (used g) - 0.5) * 100;
                             (draws g (S (used g)) - 0.5) * 100;
                             (draws g (S (S (used g))) - 0.5) * 100])).
    { apply Forall_app. split; [exact Hp|].
      repeat (apply Forall_cons; [apply particle_range, Hu|]). apply Forall_nil. }
    assert (Hc4 : palette_buffer (col ++ c))
      by (apply palette_snoc; [exact Hc|apply palette_choice]).
    assert (Lc : length c = 3%nat).
    { unfold c. destruct (Rlt_dec _ 0.33); [|destruct (Rlt_dec _ 0.66)]; reflexivity. }
    destruct (IH _ _ g4 Hu4 Hp4 Hc4) as (IL & IK & IF & IP & IU & ID).
    rewrite IL, IK, IU, ID. rewrite !length_app, Lc. cbn [length used draws g4].
    repeat split; [lia|lia|exact IF|exact IP|lia].
Qed.

(** X20.  The particle system has 5000 particles: 15000 coordinates, each
    between -50 and 50, and a colour buffer of 5000 triples, each of which is
    cyan (0,1,1), magenta (1,0,1) or green (0,1,0.5).  Building it takes
    four draws per particle. *)
Theorem particles_in_cube_and_palette (g : rng) :
  unit_draws g ->
  let p := fst (SceneManager.createParticles g) in
  let g' := snd (SceneManager.createParticles g) in
  length (SceneManager.positionAttribute p) = (3 * Z.to_nat 5000)%nat /\
  length (SceneManager.colorAttribute p) = (3 * Z.to_nat 5000)%nat /\
  Forall (fun c => -50 <= c <= 50) (SceneManager.positionAttribute p) /\
  palette_buffer (SceneManager.colorAttribute p) /\
  used g' = (used g + 4 * Z.to_nat 5000)%nat /\ draws g' = draws g.
Proof.
  intros Hu. cbv zeta. unfold SceneManager.createParticles.
  pose proof (particleLoop_spec (Z.to_nat 5000) [] [] g Hu (Forall_nil _) palette_nil) as H.
  cbv zeta in H.
  destruct (SceneManager.particleLoop (Z.to_nat 5000) [] [] g) as [[pos col] g1].
  cbn [fst snd SceneManager.positionAttribute SceneManager.colorAttribute length] in *.
  exact H.
Qed.

Lemma particles_in_cube_and_palette_witness :
  palette_buffer
    (SceneManager.colorAttribute
       (fst (SceneManager.createParticles (mkRng (fun _ => 0.5) 0)))).
Proof.
  refine (proj1 (proj2 (proj2 (proj2
            (particles_in_cube_and_palette (mkRng (fun _ => 0.5) 0) _))))).
  intros k. cbn. lra.
Defined.

(** X21.  [SceneManager.update] assigns absolute rotations: the update at
    time [T] gives the same environment whatever update ran before it; it
    turns the star field to [T * 0.02] and the particle system to
    [T * 0.05] about the vertical axis, tilts the particle system by
    [sin(T * 0.1) * 0.1], at most 0.1 either way, and leaves the point
    buffers alone. *)
Theorem environment_rotation (m : SceneManager.t) (T T' : R) :
  SceneManager.update T (SceneManager.update T' m) = SceneManager.update T m /\
  (forall s,
      SceneManager.stars m = Some s ->
      exists s',
        SceneManager.stars (SceneManager.update T m) = Some s' /\
        SceneManager.positionAttribute s' = SceneManager.positionAttribute s /\
        SceneManager.points_rotation s' =
        mkVec3 (vx (SceneManager.points_rotation s)) (T * 0.02)
               (vz (SceneManager.points_rotation s))) /\
  (forall p,
      SceneManager.particleSystem m = Some p ->
      exists p',
        SceneManager.particleSystem (SceneManager.update T m) = Some p' /\
        SceneManager.positionAttribute p' = SceneManager.positionAttribute p /\
        SceneManager.colorAttribute p' = SceneManager.colorAttribute p /\
        vy (SceneManager.points_rotation p') = T * 0.05 /\
        vx (SceneManager.points_rotation p') = sin (T * 0.1) * 0.1 /\
        -0.1 <= vx (SceneManager.points_rotation p') <= 0.1 /\
        vz (SceneManager.points_rotation p') = vz (SceneManager.points_rotation p)).
Proof.
  split; [|split].
  - unfold SceneManager.update. destruct m as [[s|] [p|]]; reflexivity.
  - intros s Hs. unfold SceneManager.update. rewrite Hs. cbn.
    eexists. repeat split.
  - intros p Hp. unfold SceneManager.update. rewrite Hp. cbn.
    eexists. split; [reflexivity|]. cbn.
    pose proof (SIN_bound (T * 0.1)). repeat split; lra.
Qed.

Lemma environment_rotation_witness :
  exists p',
    SceneManager.particleSystem
      (SceneManager.update 7 (fst (SceneManager.constructor (mkRng (fun _ => 0.5) 0)))) =
    Some p' /\
    -0.1 <= vx (SceneManager.points_rotation p') <= 0.1.
Proof.
  destruct (proj2 (proj2 (environment_rotation
                            (fst (SceneManager.constructor (mkRng (fun _ => 0.5) 0))) 7 0))
                  (fst (SceneManager.createParticles
                          (snd (SceneManager.createStarfield (mkRng (fun _ => 0.5) 0))))))
    as (p' & H & _ & _ & _ & _ & Hb & _).
  - unfold SceneManager.constructor.
    destruct (SceneManager.createStarfield (mkRng (fun _ => 0.5) 0)) as [s g1].
    cbn [snd]. destruct (SceneManager.createParticles g1) as [p g2]. reflexivity.
  - exists p'. split; [exact H|exact Hb].
Defined.

(** ** The frame-rate monitor *)

Lemma Math_round_spec x : IZR (Math_round x) - / 2 <= x < IZR (Math_round x) + / 2.
Proof.
  unfold Math_round. destruct (base_Int_part (x + / 2)) as [H1 H2]. lra.
Qed.

Lemma Math_round_le x (n : Z) : x <= IZR n -> (Math_round x <= n)%Z.
Proof.
  intros H. destruct (Math_round_spec x) as [H1 _].
  assert (L : IZR (Math_round x) < IZR n + 1) by lra.
  rewrite <- plus_IZR in L. apply lt_IZR in L. lia.
Qed.

Lemma Math_round_ge x (n : Z) : IZR n <= x -> (n <= Math_round x)%Z.
Proof.
  intros H. destruct (Math_round_spec x) as [_ H2].
  assert (L : IZR n - 1 < IZR (Math_round x)) by lra.
  rewrite <- minus_IZR in L. apply lt_IZR in L. lia.
Qed.

Lemma Math_round_near x : Rabs (IZR (Math_round x) - x) <= / 2.
Proof.
  destruct (Math_round_spec x) as [H1 H2]. apply Rabs_le. lra.
Qed.

(** X22.  One frame of the enabled monitor.  Less than 1000 ms after the
    last report only the frame counter advances.  Otherwise the monitor
    reports: with [n] the frames counted, this one included, and [delta]
    the time since the last report, the frame rate shown is [n * 1000 /
    delta] rounded (so at most [n] and not negative), the frame time shown
    is [delta / n] rounded (and [n] is at least 1: no division by zero),
    the colour is green from 60, yellow from 30 and red below, the counter
    restarts at 0 and the report time becomes the current time.  Between
    two reports the counter counts the frames. *)
Theorem monitor_report (p : PerformanceMonitor.t) (now : R) :
  PerformanceMonitor.enabled p = true ->
  (0 <= PerformanceMonitor.frames p)%Z ->
  let p' := PerformanceMonitor.update now p in
  let n := (PerformanceMonitor.frames p + 1)%Z in
  let delta := now - PerformanceMonitor.prevTime p in
  (delta < 1000 ->
   p' = PerformanceMonitor.mk true n (PerformanceMonitor.prevTime p)
          (PerformanceMonitor.fps p) (PerformanceMonitor.ms p)
          (PerformanceMonitor.fpsElement p) (PerformanceMonitor.msElement p)
          (PerformanceMonitor.container_display p)) /\
  (1000 <= delta ->
   (1 <= n)%Z /\
   PerformanceMonitor.frames p' = 0%Z /\
   PerformanceMonitor.prevTime p' = now /\
   Rabs (IZR (PerformanceMonitor.fps p') - IZR n * 1000 / delta) <= / 2 /\
   (0 <= PerformanceMonitor.fps p' <= n)%Z /\
   Rabs (IZR (PerformanceMonitor.ms p') - delta / IZR n) <= / 2 /\
   PerformanceMonitor.fpsElement p' =
   Some (if (60 <=? PerformanceMonitor.fps p')%Z then PerformanceMonitor.Green
         else if (30 <=? PerformanceMonitor.fps p')%Z then PerformanceMonitor.Yellow
              else PerformanceMonitor.Red,
         PerformanceMonitor.fps p') /\
   PerformanceMonitor.msElement p' = Some (PerformanceMonitor.ms p')) /\
  (forall ts,
      Forall (fun t => t - PerformanceMonitor.prevTime p < 1000) ts ->
      PerformanceMonitor.frames (monitor_frames ts p) =
      (PerformanceMonitor.frames p + Z.of_nat (length ts))%Z /\
      PerformanceMonitor.prevTime (monitor_frames ts p) = PerformanceMonitor.prevTime p /\
      PerformanceMonitor.fps (monitor_frames ts p) = PerformanceMonitor.fps p).
Proof.
  intros He Hf. cbv zeta. split; [|split].
  - intros Hd. unfold PerformanceMonitor.update. rewrite He. cbn [negb].
    destruct (Rle_dec 1000 (now - PerformanceMonitor.prevTime p)) as [F|_]; [lra|].
    reflexivity.
  - intros Hd. unfold PerformanceMonitor.update. rewrite He. cbn [negb].
    destruct (Rle_dec 1000 (now - PerformanceMonitor.prevTime p)) as [_|F];
      [|contradiction].
    unfold PerformanceMonitor.updateDisplay.
    cbn [PerformanceMonitor.frames PerformanceMonitor.prevTime PerformanceMonitor.fps
         PerformanceMonitor.ms PerformanceMonitor.fpsElement PerformanceMonitor.msElement].
    set (n := (PerformanceMonitor.frames p + 1)%Z).
    set (delta := now - PerformanceMonitor.prevTime p) in *.
    assert (Hn : 1 <= IZR n) by (apply IZR_le; unfold n; lia).
    assert (Hi : 0 < / delta) by (apply Rinv_0_lt_compat; lra).
    assert (Hk : 1000 * / delta <= 1).
    { apply (Rmult_le_reg_r delta); [lra|].
      rewrite Rmult_assoc, Rinv_l by lra. lra. }
    assert (Hx : 0 <= IZR n * 1000 / delta <= IZR n).
    { unfold Rdiv. rewrite Rmult_assoc. split.
      - apply Rmult_le_pos; [lra|]. apply Rmult_le_pos; lra.
      - rewrite <- (Rmult_1_r (IZR n)) at 2. apply Rmult_le_compat_l; lra. }
    split; [unfold n; lia|]. split; [reflexivity|]. split; [reflexivity|].
    split; [apply Math_round_near|]. split.
    + split; [apply Math_round_ge; cbn; lra|apply Math_round_le; lra].
    + split; [apply Math_round_near|]. split; reflexivity.
  - intros ts. revert p He Hf.
    induction ts as [|t ts IH]; intros p He Hf H.
    + cbn. split; [lia|split; reflexivity].
    + apply Forall_cons_iff in H. destruct H as [Ht Hts].
      cbn [monitor_frames fold_left].
      assert (E : PerformanceMonitor.update t p =
                  PerformanceMonitor.mk true (PerformanceMonitor.frames p + 1)
                    (PerformanceMonitor.prevTime p) (PerformanceMonitor.fps p)
                    (PerformanceMonitor.ms p) (PerformanceMonitor.fpsElement p)
                    (PerformanceMonitor.msElement p)
                    (PerformanceMonitor.container_display p)).
      { unfold PerformanceMonitor.update. rewrite He. cbn [negb].
        destruct (Rle_dec 1000 (t - PerformanceMonitor.prevTime p)) as [F|_]; [lra|].
        reflexivity. }
      rewrite E. fold (monitor_frames ts).
      destruct (IH (PerformanceMonitor.mk true (PerformanceMonitor.frames p + 1)
                      (PerformanceMonitor.prevTime p) (PerformanceMonitor.fps p)
                      (PerformanceMonitor.ms p) (PerformanceMonitor.fpsElement p)
                      (PerformanceMonitor.msElement p)
                      (PerformanceMonitor.container_display p)))
        as (I1 & I2 & I3); [reflexivity|cbn; lia|exact Hts|].
      unfold monitor_frames in *. rewrite I1, I2, I3. cbn [length].
      cbn [PerformanceMonitor.frames PerformanceMonitor.prevTime PerformanceMonitor.fps].
      split; [lia|split; reflexivity].
Qed.

Lemma monitor_report_witness :
  PerformanceMonitor.frames (monitor_frames [16; 33; 50] (PerformanceMonitor.constructor 0))
    = (0 + Z.of_nat 3)%Z.
Proof.
  refine (proj1 (proj2 (proj2 (monitor_report (PerformanceMonitor.constructor 0) 0
                                 eq_refl _)) [16; 33; 50] _)).
  - cbn. lia.
  - repeat (apply Forall_cons; [cbn; lra|]). apply Forall_nil.
Defined.

Lemma monitor_disabled ts :
  forall p, PerformanceMonitor.enabled p = false -> monitor_frames ts p = p.
Proof.
  induction ts as [|t ts IH]; intros p He; [reflexivity|].
  cbn [monitor_frames fold_left]. unfold PerformanceMonitor.update at 2.
  rewrite He. cbn [negb]. apply IH, He.
Qed.

(** X23.  Pausing the monitor.  [toggle] flips [enabled] and shows the
    panel exactly when the monitor is enabled; toggling twice gives back
    the counters and an enabled, visible monitor.  While the monitor is
    disabled a frame changes nothing at all, so after switching it off and
    on again it resumes with the frame count and the report time it had:
    the next report spans the pause. *)
Theorem monitor_pause (p : PerformanceMonitor.t) (ts : list R) :
  PerformanceMonitor.enabled p = true ->
  let off := PerformanceMonitor.toggle p in
  let on := PerformanceMonitor.toggle (monitor_frames ts off) in
  PerformanceMonitor.enabled off = false /\ panel_visible off = false /\
  monitor_frames ts off = off /\
  PerformanceMonitor.enabled on = true /\ panel_visible on = true /\
  PerformanceMonitor.frames on = PerformanceMonitor.frames p /\
  PerformanceMonitor.prevTime on = PerformanceMonitor.prevTime p /\
  PerformanceMonitor.fps on = PerformanceMonitor.fps p /\
  PerformanceMonitor.ms on = PerformanceMonitor.ms p /\
  (forall now,
      1000 <= now - PerformanceMonitor.prevTime p ->
      PerformanceMonitor.prevTime (PerformanceMonitor.update now on) = now /\
      PerformanceMonitor.frames (PerformanceMonitor.update now on) = 0%Z).
Proof.
  intros He. cbv zeta.
  assert (Hoff : PerformanceMonitor.enabled (PerformanceMonitor.toggle p) = false)
    by (unfold PerformanceMonitor.toggle; cbn; now rewrite He).
  rewrite (monitor_disabled ts _ Hoff).
  unfold PerformanceMonitor.toggle, panel_visible. cbn. rewrite He. cbn.
  repeat split.
  - unfold PerformanceMonitor.update. cbn.
    destruct (Rle_dec 1000 (now - PerformanceMonitor.prevTime p)); [reflexivity|contradiction].
  - unfold PerformanceMonitor.update. cbn.
    destruct (Rle_dec 1000 (now - PerformanceMonitor.prevTime p)); [reflexivity|contradiction].
Qed.

Lemma monitor_pause_witness :
  monitor_frames [16; 2000] (PerformanceMonitor.toggle (PerformanceMonitor.constructor 0)) =
  PerformanceMonitor.toggle (PerformanceMonitor.constructor 0).
Proof.
  refine (proj1 (proj2 (proj2 (monitor_pause (PerformanceMonitor.constructor 0)
                                 [16; 2000] eq_refl)))).
Defined.

(** ** The camera arrives at the pose of every section *)

(** X24.  A navigation to any section other than the current one brings
    the camera to that section's stored pose: with the pointer at the
    centre and no camera tween pending beyond the new ones' end, after any
    ticks and frames and one engine tick at least 1.5 s after the request
    the camera position and the look-at target are exactly the stored
    position and look-at point, and further ticks and frames keep them
    there. *)
Theorem navigation_camera_arrives
    (s : state) (i : Z) (p0 : cameraPose) (now T : Z) (fr fr' : list (Z * event)) :
  js_index sectionPositions i = Some p0 ->
  i <> app_currentSection s ->
  mousePosX s = 0 -> mousePosY s = 0 ->
  ends_by TCameraPosition (now + 1500) (tweens s) ->
  ends_by TTargetPosition (now + 1500) (tweens s) ->
  Forall (fun te => is_frame (snd te)) fr ->
  Forall (fun te => is_frame (snd te)) fr' ->
  (now + 1500 <= T)%Z ->
  let s' := run ((now, Navigate i) :: fr ++ (T, Tick) :: fr') s in
  camera_position s' = pose_position p0 /\ targetPosition s' = pose_lookAt p0.
Proof.
  intros Ep Hne Hx Hy He1 He2 Hf Hf' HT. cbv zeta.
  pose proof (js_index_in_range _ _ _ Ep) as Hr.
  destruct (sectionNames_valid i) as (c & Ec); [unfold valid_index; cbn in Hr; lia|].
  rewrite (run_navigate now i c p0 _ s Ec Ep Hne), run_app.
  destruct (navigation_camera_course s now i c p0 fr Hf (conj Hx Hy) He1 He2)
    as (Hu & Hs1 & Hb1 & Hs2 & Hb2).
  split.
  - exact (tick_then_frames TCameraPosition _ _ T fr' _ Hu Hs1 Hb1 HT Hf').
  - exact (tick_then_frames TTargetPosition _ _ T fr' _ I Hs2 Hb2 HT Hf').
Qed.

Lemma navigation_camera_arrives_witness :
  let s' := run ((0, Navigate 3) :: [(16, Frame 0 (fun _ => None))] ++ (1500, Tick) :: [])%Z
                initial_state in
  camera_position s' = mkVec3 0 5 10 /\ targetPosition s' = mkVec3 0 3 0.
Proof.
  refine (navigation_camera_arrives initial_state 3 (mkPose (mkVec3 0 5 10) (mkVec3 0 3 0))
            0 1500 [(16, Frame 0 (fun _ => None))]%Z [] eq_refl _ eq_refl eq_refl
            _ _ _ _ _).
  - discriminate.
  - constructor.
  - constructor.
  - repeat constructor.
  - constructor.
  - lia.
Defined.

(** ** No stale highlight *)

Lemma look_kept_refl o : look_kept o o.
Proof. split; reflexivity. Qed.

Lemma look_kept_trans a b c : look_kept a b -> look_kept b c -> look_kept a c.
Proof. unfold look_kept. intros [? ?] [? ?]. split; congruence. Qed.

Lemma update_look_kept e t : objs_rel look_kept t (update e t).
Proof.
  intros r. rewrite obj_at_update. destruct (obj_at r t) as [o|]; [|reflexivity].
  simpl. eexists. split; [reflexivity|]. split.
  - apply updateAt_mat.
  - now rewrite updateAt_data.
Qed.

Lemma handleObjectClick_look_kept now r s :
  objs_rel look_kept (objects s) (objects (handleObjectClick now r s)).
Proof.
  unfold handleObjectClick.
  destruct (obj_at r (objects s)) as [o|]; [|apply objs_rel_refl, look_kept_refl].
  simpl. apply objs_rel_upd; [exact look_kept_refl|]. intros o'. split; reflexivity.
Qed.

Lemma restore_look_kept due :
  forall t,
    objs_rel look_kept t
      (fold_left (fun (t : objectTable) (p : pulse) =>
                    upd_obj (pl_object p) (set_scale (pl_originalScale p)) t) due t).
Proof.
  induction due as [|p r IH]; intros t; [apply objs_rel_refl, look_kept_refl|].
  simpl. eapply objs_rel_trans; [exact look_kept_trans| |apply IH].
  apply objs_rel_upd; [exact look_kept_refl|]. intros o. split; reflexivity.
Qed.

Lemma write_look_kept p v s : objs_rel look_kept (objects s) (objects (write p v s)).
Proof.
  destruct p; simpl; try (apply objs_rel_refl, look_kept_refl).
  apply objs_rel_upd; [exact look_kept_refl|]. intros o. split; reflexivity.
Qed.

Lemma renderAll_look_kept now ws :
  forall s, objs_rel look_kept (objects s) (objects (fst (renderAll now ws s))).
Proof.
  induction ws as [|w r IH]; intros s; [apply objs_rel_refl, look_kept_refl|].
  rewrite renderAll_fst_cons.
  destruct (render1 now w (read (tw_target w) s)) as [[v k]|]; [|apply IH].
  eapply objs_rel_trans; [exact look_kept_trans|apply write_look_kept|apply IH].
Qed.

Lemma gsap_tick_look_kept now s :
  objs_rel look_kept (objects s) (objects (gsap_tick now s)).
Proof.
  pose proof (renderAll_look_kept now (tweens s) s) as H.
  unfold gsap_tick. destruct (renderAll now (tweens s) s) as [s' ws]. exact H.
Qed.

(** An operation that keeps the hover state and the look of every
    primitive keeps the highlights right. *)
Lemma highlight_ok_kept t0 s s' :
  hoveredObject s' = hoveredObject s ->
  objs_rel look_kept (objects s) (objects s') ->
  highlight_ok t0 s -> highlight_ok t0 s'.
Proof.
  intros Hh Hrel H r o0 v o' E0 Em E'. rewrite Hh.
  specialize (Hrel r). destruct (obj_at r (objects s)) as [o|] eqn:Eo.
  - destruct Hrel as (o2 & E2 & Hm & Hd). rewrite E' in E2. injection E2 as <-.
    rewrite Hm, Hd. exact (H r o0 v o E0 Em Eo).
  - congruence.
Qed.

Lemma clearHover_highlight_ok t0 s :
  highlight_ok t0 s -> highlight_ok t0 (clearHover s) /\ hoveredObject (clearHover s) = None.
Proof.
  intros H. split; [|apply clearHover_hovered].
  unfold clearHover. destruct (hoveredObject s) as [h|] eqn:Eh; [|exact H].
  intros r o0 v o' E0 Em E'. cbn [hoveredObject set_hoveredObject].
  split; [discriminate|]. intros _.
  cbn [objects set_hoveredObject set_objects set_cursor_pointer] in E'.
  rewrite obj_at_upd_obj in E'.
  destruct (obj_at r (objects s)) as [o|] eqn:Eo;
    [|destruct (objref_eq_dec h r); discriminate].
  destruct (H r o0 v o E0 Em Eo) as [Hhov Hnot].
  destruct (objref_eq_dec h r) as [->|Hne]; cbn in E'; injection E' as <-.
  - destruct (Hhov Eh) as [Hm Hd]. rewrite Hm, Hd. reflexivity.
  - apply Hnot. rewrite Eh. congruence.
Qed.

Lemma enterHover_highlight_ok t0 r' s :
  highlight_ok t0 s -> highlight_ok t0 (enterHover r' s).
Proof.
  intros H. destruct (clearHover_highlight_ok t0 s H) as [H1 Hn].
  unfold enterHover. set (s1 := clearHover s) in *.
  intros r o0 v o' E0 Em E'.
  cbn [hoveredObject objects set_hoveredObject set_objects set_cursor_pointer] in *.
  rewrite obj_at_upd_obj in E'.
  destruct (obj_at r (objects s1)) as [o|] eqn:Eo;
    [|destruct (objref_eq_dec r' r); discriminate].
  destruct (H1 r o0 v o E0 Em Eo) as [_ Hnot].
  assert (Hm : mat o = Some (mkMaterial (Some v))) by (apply Hnot; rewrite Hn; discriminate).
  destruct (objref_eq_dec r' r) as [->|Hne]; cbn in E'; injection E' as <-.
  - split; [intros _|intros F; now contradiction F].
    rewrite Hm. cbn. rewrite or_zero_some. split; reflexivity.
  - split; [intros [= E]; now contradiction Hne|intros _; exact Hm].
Qed.

Lemma handleObjectHover_highlight_ok t0 r s :
  highlight_ok t0 s -> highlight_ok t0 (handleObjectHover r s).
Proof.
  intros H. unfold handleObjectHover.
  destruct (hoveredObject s) as [h|]; [|now apply enterHover_highlight_ok].
  destruct (objref_eq_dec h r); [exact H|now apply enterHover_highlight_ok].
Qed.

Lemma checkIntersections_highlight_ok t0 rc b now s :
  highlight_ok t0 s -> highlight_ok t0 (state_of (checkIntersections rc b now s)).
Proof.
  intros H. unfold checkIntersections.
  destruct (js_index sectionNames (currentSection s)) as [c|]; [|exact H].
  destruct (rc (get_section c (objects s))) as [n|];
    [|apply clearHover_highlight_ok, H].
  destruct (n <? length (get_section c (objects s)))%nat;
    [|apply clearHover_highlight_ok, H].
  destruct b; cbn [state_of].
  - apply (highlight_ok_kept t0 s); [|apply handleObjectClick_look_kept|exact H].
    apply handleObjectClick_hover_kept.
  - now apply handleObjectHover_highlight_ok.
Qed.

Lemma step_highlight_ok t0 now e s :
  highlight_ok t0 s -> highlight_ok t0 (state_of (step now e s)).
Proof.
  intros H.
  destruct e as [i|d| |w x y|w rc touches|rc| | |e rc]; cbn [step].
  - apply (highlight_ok_kept t0 s); [apply navigateToSection_hover_kept| |exact H].
    rewrite navigateToSection_objects. apply objs_rel_refl, look_kept_refl.
  - exact H.
  - apply (highlight_ok_kept t0 s); [| |exact H].
    + unfold runScrollTimeout. destruct (scrollTimeout s) as [[due d]|]; [|reflexivity].
      destruct (due <=? now)%Z; [|reflexivity].
      apply (wheelStep_hover_kept now d (set_scrollTimeout None s)).
    + rewrite runScrollTimeout_objects. apply objs_rel_refl, look_kept_refl.
  - exact H.
  - unfold onTouchStart. destruct touches as [|[x y] rest]; [exact H|].
    apply checkIntersections_highlight_ok. exact H.
  - apply checkIntersections_highlight_ok. exact H.
  - apply (highlight_ok_kept t0 s); [reflexivity| |exact H].
    unfold runPulses. cbn [state_of objects set_pulses set_objects].
    apply restore_look_kept.
  - apply (highlight_ok_kept t0 s);
      [apply gsap_tick_frame|apply gsap_tick_look_kept|exact H].
  - unfold animate. apply checkIntersections_highlight_ok.
    apply (highlight_ok_kept t0 s); [reflexivity| |exact H].
    apply update_look_kept.
Qed.

Lemma initial_highlight_ok : highlight_ok createAllSections initial_state.
Proof.
  intros r o0 v o E0 Em Eo.
  change (objects initial_state) with createAllSections in Eo.
  change (hoveredObject initial_state) with (@None objref).
  rewrite E0 in Eo. injection Eo as <-.
  split; [discriminate|intros _; exact Em].
Qed.

Lemma frame_hover_hit now e n s c :
  js_index sectionNames (currentSection s) = Some c ->
  (n < length (get_section c (objects s)))%nat ->
  hoveredObject (state_of (step now (Frame e (fun _ => Some n)) s)) = Some (c, n).
Proof.
  intros Hc Hn. cbn [step]. unfold animate.
  set (s3 := cameraUpdate
               (set_objects (update e (objects (animateRipples now s)))
                            (animateRipples now s))).
  assert (Hc3 : js_index sectionNames (currentSection s3) = Some c) by exact Hc.
  assert (Hl3 : length (get_section c (objects s3)) = length (get_section c (objects s))).
  { change (objects s3) with (update e (objects s)). apply length_update. }
  unfold checkIntersections. rewrite Hc3, Hl3.
  apply Nat.ltb_lt in Hn. rewrite Hn. cbn [state_of].
  unfold handleObjectHover.
  destruct (hoveredObject s3) as [h|] eqn:Eh; [|reflexivity].
  destruct (objref_eq_dec h (c, n)) as [->|]; [exact Eh|reflexivity].
Qed.

Lemma frame_hover_miss now e s c :
  js_index sectionNames (currentSection s) = Some c ->
  hoveredObject (state_of (step now (Frame e (fun _ => None)) s)) = None.
Proof.
  intros Hc. cbn [step]. unfold animate.
  set (s3 := cameraUpdate
               (set_objects (update e (objects (animateRipples now s)))
                            (animateRipples now s))).
  assert (Hc3 : js_index sectionNames (currentSection s3) = Some c) by exact Hc.
  unfold checkIntersections. rewrite Hc3. cbn [state_of].
  unfold clearHover. destruct (hoveredObject s3) eqn:Eh; [reflexivity|exact Eh].
Qed.

(** X25.  Hovering never leaves a stale highlight.  Take the primitives
    built with an emissive material.  If in some state the hovered one has
    intensity 1 and remembers the intensity it was built with, and the
    others have the intensity they were built with, then the same holds
    after every run: whatever the order of pointer moves, frames, touches,
    clicks, navigations, timers and ticks, at most the hovered primitive
    differs from how it was built. *)
Theorem hover_highlight_exclusive (t0 : objectTable) (s : state) (tr : list (Z * event)) :
  highlight_ok t0 s ->
  forall r o0 v o,
    obj_at r t0 = Some o0 -> mat o0 = Some (mkMaterial (Some v)) ->
    obj_at r (objects (run tr s)) = Some o ->
    (hoveredObject (run tr s) = Some r ->
     mat o = Some (mkMaterial (Some 1)) /\ originalEmissiveIntensity (data o) = Some v) /\
    (hoveredObject (run tr s) <> Some r -> mat o = Some (mkMaterial (Some v))).
Proof.
  intros H. change (highlight_ok t0 (run tr s)).
  revert s H. induction tr as [|[now e] tr IH]; intros s H; [exact H|].
  rewrite run_cons. apply IH, step_highlight_ok, H.
Qed.

Lemma hover_highlight_exclusive_witness :
  let over : raycaster := fun _ => Some 0%nat in
  let off : raycaster := fun _ => None in
  (exists o,
      obj_at (Hero, 0%nat) (objects (run [(0, Frame 0 over)]%Z initial_state)) = Some o /\
      hoveredObject (run [(0, Frame 0 over)]%Z initial_state) = Some (Hero, 0%nat) /\
      mat o = Some (mkMaterial (Some 1)) /\
      originalEmissiveIntensity (data o) = Some 0.3) /\
  (exists o,
      obj_at (Hero, 0%nat)
        (objects (run ([(0, Frame 0 over)] ++ [(16, Frame 0 off)])%Z initial_state)) = Some o /\
      hoveredObject (run ([(0, Frame 0 over)] ++ [(16, Frame 0 off)])%Z initial_state) = None /\
      mat o = Some (mkMaterial (Some 0.3))).
Proof.
  intros over off.
  assert (H1 : hoveredObject (run [(0, Frame 0 over)]%Z initial_state) = Some (Hero, 0%nat)).
  { change (run [(0, Frame 0 over)]%Z initial_state)
      with (state_of (step 0 (Frame 0 over) initial_state)).
    apply (frame_hover_hit 0 0 0 initial_state Hero eq_refl).
    change (objects initial_state) with createAllSections.
    change (get_section Hero createAllSections) with createHeroSection.
    rewrite length_hero_constructed. lia. }
  assert (H2 : hoveredObject
                 (run ([(0, Frame 0 over)] ++ [(16, Frame 0 off)])%Z initial_state) = None).
  { rewrite run_app.
    change (run [(16, Frame 0 off)]%Z ?s) with (state_of (step 16 (Frame 0 off) s)).
    apply (frame_hover_miss 16 0 _ Hero).
    assert (Hf : Forall (fun te : Z * event => is_frame (snd te)) [(0, Frame 0 over)]%Z)
      by (apply Forall_cons; [exact I|apply Forall_nil]).
    rewrite (proj1 (proj2 (frames_keep_indices _ initial_state Hf))).
    reflexivity. }
  split.
  - destruct (run_obj_at_some [(0, Frame 0 over)]%Z initial_state (Hero, 0%nat) _ hero_torus)
      as (o & Ho).
    exists o. split; [exact Ho|]. split; [exact H1|].
    exact (proj1 (hover_highlight_exclusive createAllSections initial_state
                    [(0, Frame 0 over)]%Z initial_highlight_ok (Hero, 0%nat) _ 0.3 o
                    hero_torus eq_refl Ho) H1).
  - destruct (run_obj_at_some ([(0, Frame 0 over)] ++ [(16, Frame 0 off)])%Z initial_state
                (Hero, 0%nat) _ hero_torus) as (o & Ho).
    exists o. split; [exact Ho|]. split; [exact H2|].
    refine (proj2 (hover_highlight_exclusive createAllSections initial_state
                     ([(0, Frame 0 over)] ++ [(16, Frame 0 off)])%Z initial_highlight_ok
                     (Hero, 0%nat) _ 0.3 o hero_torus eq_refl Ho) _).
    rewrite H2. discriminate.
Defined.

(** ** The scene is built where the animator expects it *)

Lemma hero_sphere_built n o :
  nth_error createHeroSection n = Some o -> (1 <= n <= 8)%nat ->
  position o = mkVec3 (cos (num (angle (data o))) * num (radius (data o))) 0
                      (sin (num (angle (data o))) * num (radius (data o))).
Proof.
  intros H Hn. unfold createHeroSection in H.
  destruct n as [|n]; [lia|]. cbn [app nth_error] in H.
  rewrite nth_error_app1 in H by (rewrite length_map, length_seq; lia).
  rewrite nth_error_map in H.
  rewrite (nth_error_nth' _ O) in H by (rewrite length_seq; lia).
  rewrite seq_nth in H by lia. simpl in H. inversion H; subst; simpl. reflexivity.
Qed.

Lemma skills_orb_built n o :
  nth_error createSkillsSection n = Some o -> orbit (data o) <> None ->
  vx (position o) = cos (num (angle (data o))) * num (radius (data o)) /\
  vz (position o) = sin (num (angle (data o))) * num (radius (data o)).
Proof.
  intros H Ho. apply nth_error_In in H. unfold createSkillsSection in H.
  apply in_app_or in H. destruct H as [H|[<-|[]]].
  - apply in_flat_map in H. destruct H as (k & _ & H).
    apply in_map_iff in H. destruct H as (i & <- & _). split; reflexivity.
  - simpl in Ho. contradiction.
Qed.

Lemma project_card_built n o y0 :
  nth_error createProjectsSection n = Some o -> hoverY (data o) = Some y0 ->
  vy (position o) = y0.
Proof.
  intros H Hy. unfold createProjectsSection, cardPositions in H. cbn [forEachi app] in H.
  do 7 (destruct n as [|n]; [cbn in H; injection H as <-; cbn in Hy |- *; congruence|]).
  cbn in H. destruct n; discriminate.
Qed.

(** X26.  The constructors and the animator agree.  The Hero spheres and
    the Skills orbs are built on the circle they orbit, at their stored
    phase, and each project card stores the height it is built at: an
    update at scene time 0 leaves the x and z of every Hero sphere, the
    whole position of every Skills orb and the whole position of every
    project card as built. *)
Theorem built_where_animated :
  (forall n o,
      nth_error createHeroSection n = Some o -> (1 <= n <= 8)%nat ->
      vx (position (updateHero 0 n o)) = vx (position o) /\
      vz (position (updateHero 0 n o)) = vz (position o)) /\
  (forall n o,
      nth_error createSkillsSection n = Some o -> orbit (data o) <> None ->
      position (updateSkills 0 o) = position o) /\
  (forall n o,
      nth_error createProjectsSection n = Some o ->
      position (updateProjects 0 o) = position o).
Proof.
  split; [|split].
  - intros n o H Hn. pose proof (hero_sphere_built n o H Hn) as Hp.
    unfold updateHero.
    destruct (n =? 0)%nat eqn:E0; [apply Nat.eqb_eq in E0; lia|].
    destruct (n <=? 8)%nat eqn:E8; [|apply Nat.leb_gt in E8; lia].
    cbn. rewrite Hp. cbn.
    replace (num (angle (data o)) + 0 * 0.5) with (num (angle (data o))) by lra.
    split; reflexivity.
  - intros n o H Ho. destruct (skills_orb_built n o H Ho) as [Hx Hz].
    unfold updateSkills. destruct (orbit (data o)); [|contradiction].
    cbn. replace (num (angle (data o)) + 0 * num (speed (data o)))
      with (num (angle (data o))) by lra.
    apply vec3_eq; cbn; congruence.
  - intros n o H. unfold updateProjects.
    destruct (hoverY (data o)) as [y0|] eqn:Ey; [|reflexivity].
    pose proof (project_card_built n o y0 H Ey) as Hy. cbn.
    replace (0 * 2) with 0 by lra. rewrite sin_0.
    apply vec3_eq; cbn; lra.
Qed.

Lemma built_where_animated_witness :
  exists o,
    nth_error createProjectsSection 2 = Some o /\
    position (updateProjects 0 o) = position o.
Proof.
  eexists. split; [reflexivity|].
  exact (proj2 (proj2 built_where_animated) 2%nat _ eq_refl).
Defined.
